(** * pyEMA: the LSCF estimator of [pyEMA/pyEMA.py], embedded in Rocq

    The Python module is translated function by function.  NumPy arrays are
    lists (a matrix is the list of its rows), Python exceptions are the
    [Raise] branch of a result type, and the attributes of an [lscf] object
    are the fields of a record that the methods pass along.

    Scalars are kept behind the interface [Scalar].  Two instances are
    given: [b64], IEEE binary64 as NumPy computes with it (it evaluates, so
    runs of the code can be replayed), and [ideal], the real numbers, where
    the algebraic statements are proved. *)

From Stdlib Require Import ZArith List Bool Lia Reals Lra Floats Sorted.
From Stdlib Require String.
Import String.StringSyntax.
Delimit Scope string_scope with string.
Import ListNotations.

Set Implicit Arguments.

(** ** Exceptions and results *)

(** The texts handed to [Exception(...)] in the source, one constructor per
    [raise] site. *)
Inductive message : Type :=
  | lower_must_be_number       (* 'lower must be float or integer' *)
  | lower_must_be_positive     (* 'lower must be positive or equal to zero' *)
  | upper_must_be_number       (* 'upper must be flaot or integer' *)
  | upper_must_be_greater      (* 'upper must be greater than lower' *)
  | cannot_convert_frf         (* 'cannot contert frf to numpy ndarray' *)
  | cannot_convert_freq        (* 'cannot convert freq to numpy array' *)
  | freq_ndim_not_one          (* 'ndim of freq is not equal to 1 (...)' *)
  | arguments_not_defined      (* 'input arguments are not defined' *)
  | cannot_convert_order       (* 'cannot convert pol_order_high to integer' *)
  | order_must_be_positive     (* 'pol_order_high must be positive' *)
  | selector_must_be_none_all_int. (* 'FRF_ind must be None, all or int' *)

Inductive exn : Type :=
  | Exception (m : message)
  | IndexError
  | ValueError
  | AttributeError
  | LinAlgError.

Inductive result (A : Type) : Type :=
  | Ok (a : A)
  | Raise (e : exn).
Arguments Ok {A} a.
Arguments Raise {A} e.

Definition bind {A B} (r : result A) (k : A -> result B) : result B :=
  match r with
  | Ok a => k a
  | Raise e => Raise e
  end.

Notation "x <- e ;; k" := (bind e (fun x => k))
  (at level 61, e at next level, right associativity).
Notation "' p <- e ;; k" := (bind e (fun p => k))
  (at level 61, p pattern, e at next level, right associativity).

Definition from_option {A} (e : exn) (o : option A) : result A :=
  match o with
  | Some a => Ok a
  | None => Raise e
  end.

(** [for x in xs: s = body(x, s)], stopping at the first exception. *)
Fixpoint for_each {X S} (xs : list X) (body : X -> S -> result S) (s : S)
  : result S :=
  match xs with
  | [] => Ok s
  | x :: rest => s' <- body x s ;; for_each rest body s'
  end.

(** [[f(x) for x in xs]] where [f] may raise. *)
Fixpoint map_result {X Y} (f : X -> result Y) (xs : list X)
  : result (list Y) :=
  match xs with
  | [] => Ok []
  | x :: rest => y <- f x ;; ys <- map_result f rest ;; Ok (y :: ys)
  end.

(** ** Python indexing *)

(** An index [i] into a sequence of length [len]: negative indices count
    from the end, anything outside [-len .. len-1] is an [IndexError]. *)
Definition py_index (len : nat) (i : Z) : result nat :=
  if (0 <=? i)%Z && (i <? Z.of_nat len)%Z then Ok (Z.to_nat i)
  else if (- Z.of_nat len <=? i)%Z && (i <? 0)%Z
       then Ok (Z.to_nat (i + Z.of_nat len))
       else Raise IndexError.

(** A slice bound: clipped, never an error. *)
Definition py_bound (len : nat) (i : Z) : nat :=
  if (i <? 0)%Z then Z.to_nat (Z.max 0 (i + Z.of_nat len))
  else Nat.min len (Z.to_nat i).

(** [a[:stop]] for a non-negative [stop]. *)
Definition slice_to {X} (stop : nat) (a : list X) : list X := firstn stop a.

(** [a[start:stop]] for non-negative bounds. *)
Definition slice {X} (start stop : nat) (a : list X) : list X :=
  skipn start (firstn stop a).

(** [a[i] = v] for an index already known to be in range. *)
Fixpoint set_nth {X} (i : nat) (v : X) (a : list X) : list X :=
  match a, i with
  | [], _ => []
  | _ :: rest, O => v :: rest
  | x :: rest, S k => x :: set_nth k v rest
  end.

(** ** Scalars *)

Class Scalar : Type := {
  F : Type;
  f_zero : F;
  f_one : F;
  f_two : F;
  f_pi : F;                      (* np.pi *)
  f_0_01 : F;                    (* the literal 0.01 *)
  f_1em3 : F;                    (* the literal 1e-3 *)
  fadd : F -> F -> F;
  fsub : F -> F -> F;
  fmul : F -> F -> F;
  fdiv : F -> F -> F;
  fopp : F -> F;
  fabs : F -> F;
  fsign : F -> F;                (* np.sign *)
  fhypot : F -> F -> F;          (* np.abs of the complex number x + iy *)
  fltb : F -> F -> bool;         (* x < y *)
  feqb : F -> F -> bool;         (* x == y *)
  of_int : Z -> option F;        (* float(n); None is OverflowError *)
  to_int : F -> option Z         (* int(x); None is ValueError/OverflowError *)
}.

(** *** IEEE binary64 *)

Definition b64_sign (x : float) : float :=
  if PrimFloat.ltb 0%float x then 1%float
  else if PrimFloat.ltb x 0%float then (-1)%float
  else if PrimFloat.eqb x 0%float then 0%float
  else x.

(** NumPy takes [hypot] from the C library; the formula below agrees with
    it whenever both squares and their sum are exact. *)
Definition b64_hypot (x y : float) : float :=
  PrimFloat.sqrt (PrimFloat.add (PrimFloat.mul x x) (PrimFloat.mul y y)).

Definition b64_of_int (n : Z) : option float :=
  let x := SF2Prim (binary_normalize prec emax n 0 false) in
  if PrimFloat.eqb (PrimFloat.abs x) infinity then None else Some x.

(** [int(x)] truncates towards zero and rejects infinities and NaN. *)
Definition b64_to_int (x : float) : option Z :=
  match Prim2SF x with
  | S754_zero _ => Some 0%Z
  | S754_finite s m e =>
      let a := match e with
               | Z0 => Zpos m
               | Zpos k => Z.shiftl (Zpos m) (Zpos k)
               | Zneg k => Z.shiftr (Zpos m) (Zpos k)
               end in
      Some (if s then Z.opp a else a)
  | S754_infinity _ | S754_nan => None
  end.

#[export] Instance b64 : Scalar := {|
  F := float;
  f_zero := 0%float;
  f_one := 1%float;
  f_two := 2%float;
  f_pi := 0x1.921fb54442d18p+1%float;
  f_0_01 := 0x1.47ae147ae147bp-7%float;
  f_1em3 := 0x1.0624dd2f1a9fcp-10%float;
  fadd := PrimFloat.add;
  fsub := PrimFloat.sub;
  fmul := PrimFloat.mul;
  fdiv := PrimFloat.div;
  fopp := PrimFloat.opp;
  fabs := PrimFloat.abs;
  fsign := b64_sign;
  fhypot := b64_hypot;
  fltb := PrimFloat.ltb;
  feqb := PrimFloat.eqb;
  of_int := b64_of_int;
  to_int := b64_to_int
|}.

(** *** Real numbers *)

Definition R_ltb (x y : R) : bool := if Rlt_dec x y then true else false.
Definition R_eqb (x y : R) : bool := if Req_dec_T x y then true else false.

Definition R_sign (x : R) : R :=
  if R_ltb 0 x then 1%R else if R_ltb x 0 then (-1)%R else 0%R.

Definition R_hypot (x y : R) : R := R_sqrt.sqrt (x * x + y * y).

Definition R_to_int (x : R) : Z :=
  if Rlt_dec x 0 then Z.opp (Int_part (- x)) else Int_part x.

#[export] Instance ideal : Scalar := {|
  F := R;
  f_zero := 0%R;
  f_one := 1%R;
  f_two := 2%R;
  f_pi := PI;
  f_0_01 := (1 / 100)%R;
  f_1em3 := (1 / 1000)%R;
  fadd := Rplus;
  fsub := Rminus;
  fmul := Rmult;
  fdiv := Rdiv;
  fopp := Ropp;
  fabs := Rabs;
  fsign := R_sign;
  fhypot := R_hypot;
  fltb := R_ltb;
  feqb := R_eqb;
  of_int := fun n => Some (IZR n);
  to_int := fun x => Some (R_to_int x)
|}.

(** ** Module-level functions of [pyEMA.py] *)

Section Numerics.

Context {Sc : Scalar}.

(** A complex number as NumPy stores it: two scalars. *)
Record complex : Type := Cx { re : F; im : F }.

(** *** [complex_freq_to_freq_and_damp] *)

Definition complex_freq_to_freq_and_damp (sr : list complex)
  : list F * list F :=
  (* fr = np.sign(np.imag(sr)) * np.abs(sr) *)
  let fr := map (fun s => fmul (fsign (im s)) (fhypot (re s) (im s))) sr in
  (* xir = -sr.real/fr *)
  let xir := map (fun sf => fdiv (fopp (re (fst sf))) (snd sf))
                 (combine sr fr) in
  (* fr /= (2 * np.pi) *)
  let fr := map (fun f => fdiv f (fmul f_two f_pi)) fr in
  (fr, xir).

(** *** [redundant_values] *)

(** [np.abs(a - b) < prec] *)
Definition closer_than (prec a b : F) : bool := fltb (fabs (fsub a b)) prec.

(** The matrix [test_omega]: the double loop sets entry [(i, j)] for
    [j < i] only, every other entry keeps the zero of [np.zeros]. *)
Definition test_omega (omega : list F) (prec : F) : list (list Z) :=
  let N := length omega in
  map (fun i =>
         map (fun j =>
                if (j <? i)%nat
                then if closer_than prec (nth i omega f_zero)
                                         (nth j omega f_zero)
                     then 1%Z else 0%Z
                else 0%Z)
             (seq 0 N))
      (seq 0 N).

Definition sum_Z (l : list Z) : Z := fold_right Z.add 0%Z l.

(** [np.sum(m, axis=0)] for a matrix with [cols] columns. *)
Definition sum_axis0 (cols : nat) (m : list (list Z)) : list Z :=
  map (fun j => sum_Z (map (fun row => nth j row 0%Z) m)) (seq 0 cols).

(** [np.argwhere(test < 1)]: one row [[j]] per index [j] that passes. *)
Definition argwhere_lt_1 (test : list Z) : list (list nat) :=
  map (fun j => [j])
      (filter (fun j => (nth j test 0%Z <? 1)%Z) (seq 0 (length test))).

(** [a[idx]] for an index array of shape (k, 1): the result has the shape
    of [idx]; an index past the end is an [IndexError]. *)
Definition take (a : list F) (idx : list (list nat))
  : result (list (list F)) :=
  map_result (map_result (fun j => from_option IndexError (nth_error a j)))
             idx.

Definition redundant_values (omega xi : list F) (prec : F)
  : result (list (list F) * list (list F)) :=
  let N := length omega in
  let test := sum_axis0 N (test_omega omega prec) in
  omega_mod <- take omega (argwhere_lt_1 test) ;;
  xi_mod <- take xi (argwhere_lt_1 test) ;;
  Ok (omega_mod, xi_mod).

(** *** [stabilisation] *)

(** The four matrices the function fills and returns. *)
Record stab_matrices : Type := Stab {
  fn_temp : list (list F);
  xi_temp : list (list F);
  test_fn : list (list Z);
  test_xi : list (list Z)
}.

(** [np.zeros((rows, cols))] *)
Definition zeros {X} (z : X) (rows cols : nat) : list (list X) :=
  repeat (repeat z cols) rows.

(** [m[:, j]] *)
Definition column {X} (d : X) (j : nat) (m : list (list X)) : list X :=
  map (fun row => nth j row d) m.

(** [m[i, j] = v] *)
Definition set_cell {X} (i j : nat) (v : X) (m : list (list X))
  : list (list X) :=
  set_nth i (set_nth j v (nth i m [])) m.

(** The value of an array of shape (1,). *)
Definition item (row : list F) : F := nth 0 row f_zero.

(** [np.abs((x - c) / c) < err] *)
Definition within (err x c : F) : bool :=
  fltb (fabs (fdiv (fsub x c) c)) err.

(** A row of zeros after [row[mask] = 1]. *)
Definition mark (mask : list bool) : list Z :=
  map (fun b : bool => if b then 1%Z else 0%Z) mask.

(** [m[0:k, 0:1] = v], where [v] has shape (len v, 1): the rows of [v] go
    to column 0; NumPy accepts the assignment when [v] has as many rows
    as the slice, or a single row. *)
Definition assign_first_column (k : nat) (v : list (list F))
  (m : list (list F)) : result (list (list F)) :=
  let rows := Nat.min k (length m) in
  if (length v =? rows)%nat then
    Ok (fold_left (fun acc i => set_cell i 0 (item (nth i v [])) acc)
                  (seq 0 rows) m)
  else if (length v =? 1)%nat then
    Ok (fold_left (fun acc i => set_cell i 0 (item (nth 0 v [])) acc)
                  (seq 0 rows) m)
  else Raise ValueError.

(** The body of [for i in range(len(fn))] at order index [n].  The
    stores [fn_temp[i, n - 1] = fn[i]] and [xi_temp[i, n - 1] = xi[i]] put
    an array of shape (1,) into one cell; they are modelled as NumPy up
    to 2.3 performs them, storing the one element.  From NumPy 2.4 on
    the first of them is a [ValueError]: [stab_cell_on] below has both
    behaviours. *)
Definition stab_cell (nmax n : nat) (err_fn err_xi : F)
  (fn xi : list (list F)) (i : nat) (st : stab_matrices)
  : result stab_matrices :=
  c2 <- py_index nmax (Z.of_nat n - 2) ;;
  let f := item (nth i fn []) in
  let x := item (nth i xi []) in
  let fn_test_i :=
    mark (map (within err_fn f) (column f_zero c2 (fn_temp st))) in
  let xi_test_i :=
    mark (map (within err_xi x) (column f_zero c2 (xi_temp st))) in
  c1 <- py_index nmax (Z.of_nat n - 1) ;;
  r <- py_index (length (fn_temp st)) (Z.of_nat i) ;;
  Ok {| fn_temp := set_cell r c1 f (fn_temp st);
        xi_temp := set_cell r c1 x (xi_temp st);
        test_fn := set_cell r c1 (sum_Z (firstn (2 * n) fn_test_i))
                            (test_fn st);
        test_xi := set_cell r c1 (sum_Z (firstn (2 * n) xi_test_i))
                            (test_xi st) |}.

(** The body of [for nr, n in enumerate(range(nmax))]; [nr] equals [n]. *)
Definition stab_order (sr : list (list complex)) (nmax : nat)
  (err_fn err_xi : F) (n : nat) (st : stab_matrices)
  : result stab_matrices :=
  poles <- from_option IndexError (nth_error sr n) ;;
  let (fn0, xi0) := complex_freq_to_freq_and_damp poles in
  '(fn, xi) <- redundant_values fn0 xi0 f_1em3 ;;
  if (n =? 1)%nat then
    ft <- assign_first_column (length fn) fn (fn_temp st) ;;
    xt <- assign_first_column (length fn) xi (xi_temp st) ;;
    Ok {| fn_temp := ft; xi_temp := xt;
          test_fn := test_fn st; test_xi := test_xi st |}
  else
    _ <- py_index nmax (Z.of_nat n - 1) ;;
    for_each (seq 0 (length fn)) (stab_cell nmax n err_fn err_xi fn xi) st.

Definition stab_init (nmax : nat) : stab_matrices :=
  {| fn_temp := zeros f_zero (2 * nmax) nmax;
     xi_temp := zeros f_zero (2 * nmax) nmax;
     test_fn := zeros 0%Z (2 * nmax) nmax;
     test_xi := zeros 0%Z (2 * nmax) nmax |}.

Definition stabilisation (sr : list (list complex)) (nmax : nat)
  (err_fn err_xi : F) : result stab_matrices :=
  for_each (seq 0 nmax) (stab_order sr nmax err_fn err_xi) (stab_init nmax).

End Numerics.

Arguments complex {Sc}.
Arguments stab_matrices {Sc}.

(** *** [poles_correction] *)

Section Correction.

Context {Sc : Scalar}.

Variable fsqrt : F -> F.           (* np.sqrt *)
Variable f_four : F.               (* the literal 4 *)

(** [a**2] is the product [a*a].  The result [(a+ak+(b+bk)*1.j)] is the
    real array [b+bk] times the complex scalar [1j], added to the real
    array [a+ak]. *)
Definition poles_correction (poles : list complex) (df : F) : list complex :=
  map (fun p =>
         let a := re p in
         let b := im p in
         let r2 := fadd (fmul a a) (fmul b b) in
         let ak := fdiv (fmul (fmul (fmul f_two a) df) f_pi) (fsqrt r2) in
         let bk :=
           fadd (fopp b)
                (fmul (fsign b)
                   (fsqrt
                      (fdiv (fmul (fmul b b)
                               (fadd r2
                                  (fmul (fmul (fmul f_four df) f_pi)
                                        (fadd (fsqrt r2) (fmul df f_pi)))))
                            r2))) in
         let x := fadd b bk in
         Cx (fadd (fadd a ak) (fsub (fmul x f_zero) (fmul f_zero f_one)))
            (fadd f_zero (fadd (fmul x f_one) (fmul f_zero f_zero))))
      poles.

End Correction.

(** *** The store of a one-element array into a cell *)

Section CellStore.

Context {Sc : Scalar}.

(** What [m[i, j] = v] does when [v] is an array of shape (1,), as
    [fn[i]] and [xi[i]] are in [stabilisation]: up to NumPy 2.3 the one
    element is stored (with a DeprecationWarning from NumPy 1.25 on);
    from NumPy 2.4 on the statement is a [ValueError]. *)
Inductive cell_store : Type :=
  | StoresElement           (* NumPy up to 2.3 *)
  | RejectsArray.           (* NumPy 2.4 and later *)

(** The body of [for i in range(len(fn))] under either behaviour:
    [stab_cell] is the first one; under the second the indices are
    looked up as before and [fn_temp[i, n - 1] = fn[i]] raises. *)
Definition stab_cell_on (v : cell_store) (nmax n : nat) (err_fn err_xi : F)
  (fn xi : list (list F)) (i : nat) (st : stab_matrices)
  : result stab_matrices :=
  match v with
  | StoresElement => stab_cell nmax n err_fn err_xi fn xi i st
  | RejectsArray =>
      _ <- py_index nmax (Z.of_nat n - 2) ;;
      _ <- py_index nmax (Z.of_nat n - 1) ;;
      _ <- py_index (length (fn_temp st)) (Z.of_nat i) ;;
      Raise ValueError
  end.

Definition stab_order_on (v : cell_store) (sr : list (list complex))
  (nmax : nat) (err_fn err_xi : F) (n : nat) (st : stab_matrices)
  : result stab_matrices :=
  poles <- from_option IndexError (nth_error sr n) ;;
  let (fn0, xi0) := complex_freq_to_freq_and_damp poles in
  '(fn, xi) <- redundant_values fn0 xi0 f_1em3 ;;
  if (n =? 1)%nat then
    ft <- assign_first_column (length fn) fn (fn_temp st) ;;
    xt <- assign_first_column (length fn) xi (xi_temp st) ;;
    Ok {| fn_temp := ft; xi_temp := xt;
          test_fn := test_fn st; test_xi := test_xi st |}
  else
    _ <- py_index nmax (Z.of_nat n - 1) ;;
    for_each (seq 0 (length fn)) (stab_cell_on v nmax n err_fn err_xi fn xi)
             st.

(** [stabilisation] under either behaviour. *)
Definition stabilisation_on (v : cell_store) (sr : list (list complex))
  (nmax : nat) (err_fn err_xi : F) : result stab_matrices :=
  for_each (seq 0 nmax) (stab_order_on v sr nmax err_fn err_xi)
           (stab_init nmax).

End CellStore.

(** ** The NumPy and SciPy routines the class calls *)

(** Complex arithmetic and the library routines are taken as given: NumPy
    computes them with kernels (complex division, logarithm, FFT, LAPACK)
    whose rounding is their own.  The routines that can fail return a
    result. *)
Class Numpy {Sc : Scalar} : Type := {
  cadd : complex -> complex -> complex;
  csub : complex -> complex -> complex;
  cmul : complex -> complex -> complex;
  cdiv : complex -> complex -> complex;
  clog : complex -> complex;                             (* np.log *)
  irfft : list complex -> nat -> list F;                 (* np.fft.irfft *)
  linalg_inv : list (list F) -> result (list (list F));  (* np.linalg.inv *)
  linalg_solve : list (list F) -> list F -> result (list F);
  roots : list F -> result (list complex);               (* np.roots *)
  linalg_eig : list (list F)
               -> result (list complex * list (list complex));
  linalg_pinv : nat -> list (list F) -> result (list (list F))
}.

Section Algebra.

Context {Sc : Scalar} {Np : Numpy}.

Definition c_of_real (x : F) : complex := Cx x f_zero.
Definition c_one : complex := Cx f_one f_zero.
Definition c_i : complex := Cx f_zero f_one.       (* 1j *)
Definition cneg (z : complex) : complex := Cx (fopp (re z)) (fopp (im z)).
Definition cconj (z : complex) : complex := Cx (re z) (fopp (im z)).

Definition sum_F (l : list F) : F := fold_left fadd l f_zero.
Definition sum_C (l : list complex) : complex :=
  fold_left cadd l (c_of_real f_zero).

(** [np.dot] of two vectors. *)
Definition dot (u v : list F) : F :=
  sum_F (map (fun p => fmul (fst p) (snd p)) (combine u v)).

(** [m.T] for a matrix with [cols] columns. *)
Definition transpose (cols : nat) (m : list (list F)) : list (list F) :=
  map (fun j => column f_zero j m) (seq 0 cols).

(** [np.dot(a, b)] where [b] has [cols] columns. *)
Definition matmul (cols : nat) (a b : list (list F)) : list (list F) :=
  map (fun row => map (dot row) (transpose cols b)) a.

(** [m[:k, :k]] *)
Definition leading_block {X} (k : nat) (m : list (list X)) : list (list X) :=
  map (firstn k) (firstn k m).

(** [scipy.linalg.toeplitz(c, r)]: first column [c], first row [r]. *)
Definition toeplitz (c r : list F) : list (list F) :=
  map (fun a =>
         map (fun b => if (b <=? a)%nat then nth (a - b) c f_zero
                       else nth (b - a) r f_zero)
             (seq 0 (length r)))
      (seq 0 (length c)).

(** [scipy.linalg.companion(a)]: first row [-a[1:]/a[0]], ones below the
    diagonal; fewer than two coefficients or a zero leading one is a
    [ValueError]. *)
Definition companion (a : list F) : result (list (list F)) :=
  match a with
  | a0 :: (_ :: _) as tail =>
      if feqb a0 f_zero then Raise ValueError
      else
        let k := length tail in
        Ok (map (fun x => fdiv (fopp x) a0) tail
            :: map (fun i => map (fun j => if (j =? i)%nat then f_one
                                           else f_zero)
                                 (seq 0 k))
                   (seq 0 (k - 1)))
  | _ => Raise ValueError
  end.

(** A small Python integer as a float. *)
Definition float_of (n : Z) : F :=
  match of_int n with Some x => x | None => f_zero end.

(** [x[:, indices]] after [np.fft.irfft(x, n=nf)], times [nf]. *)
Definition irfft_at (x : list (list complex)) (nf : Z) (indices : list Z)
  : result (list (list F)) :=
  if (nf <? 1)%Z then Raise ValueError
  else
    map_result
      (fun row =>
         let y := irfft row (Z.to_nat nf) in
         map_result (fun k => j <- py_index (length y) k ;;
                              Ok (fmul (nth j y f_zero) (float_of nf)))
                    indices)
      x.

(** [irfft_adjusted_lower_limit] *)
Definition irfft_adjusted_lower_limit (ncols : nat) (x : list (list complex))
  (low_lim : nat) (indices : list Z) : result (list (list F)) :=
  let nf := (2 * (Z.of_nat ncols - 1))%Z in
  a <- irfft_at x nf indices ;;
  b <- irfft_at (map (slice_to low_lim) x) nf indices ;;
  Ok (map (fun ab => map (fun p => fsub (fst p) (snd p))
                         (combine (fst ab) (snd ab)))
          (combine a b)).

(** [np.arange(lo, hi)] *)
Definition arange (lo hi : Z) : list Z :=
  map (fun k => (lo + Z.of_nat k)%Z) (seq 0 (Z.to_nat (hi - lo))).

End Algebra.

(** ** The class [lscf] *)

Section Lscf.

Context {Sc : Scalar} {Np : Numpy}.

(** *** Python values and arrays *)

(** What the scalar arguments of the constructor may be. *)
Inductive pyval : Type :=
  | PyNone
  | PyBool (b : bool)
  | PyInt (n : Z)
  | PyFloat (x : F).

(** [float(v)] *)
Definition py_float (v : pyval) : option F :=
  match v with
  | PyNone => None
  | PyBool b => Some (if b then f_one else f_zero)
  | PyInt n => of_int n
  | PyFloat x => Some x
  end.

(** [int(v)] *)
Definition py_int (v : pyval) : option Z :=
  match v with
  | PyNone => None
  | PyBool b => Some (if b then 1%Z else 0%Z)
  | PyInt n => Some n
  | PyFloat x => to_int x
  end.

(** An array-like argument: a sequence, or a sequence of rows given with
    the row length NumPy would report. *)
Inductive array_like (X : Type) : Type :=
  | Seq1 (v : list X)
  | Seq2 (ncols : nat) (rows : list (list X)).
Arguments Seq1 {X} v.
Arguments Seq2 {X} ncols rows.

(** A matrix with its second dimension, which the rows alone do not tell
    when there are none. *)
Record matrix (X : Type) : Type := Matrix {
  ncols : nat;
  mrows : list (list X)
}.

(** [np.asarray]: rows of unequal length do not make an array. *)
Definition asarray {X} (a : array_like X) : option (array_like X) :=
  match a with
  | Seq1 v => Some (Seq1 v)
  | Seq2 ncols rows =>
      if forallb (fun row => (length row =? ncols)%nat) rows
      then Some (Seq2 ncols rows) else None
  end.

Definition ndim {X} (a : array_like X) : nat :=
  match a with Seq1 _ => 1%nat | Seq2 _ _ => 2%nat end.

(** A NaN is the one value that differs from itself. *)
Definition is_nan (x : F) : bool := negb (feqb x x).

Fixpoint find_index {X} (p : X -> bool) (l : list X) : option nat :=
  match l with
  | [] => None
  | x :: rest => if p x then Some 0%nat
                 else option_map S (find_index p rest)
  end.

(** Index of the first smallest entry of [x :: rest], scanning with the
    best value and its index so far. *)
Fixpoint first_min (best : F) (best_at next : nat) (rest : list F) : nat :=
  match rest with
  | [] => best_at
  | y :: rest' =>
      if fltb y best then first_min y next (S next) rest'
      else first_min best best_at (S next) rest'
  end.

(** [np.argmin]: the first NaN if there is one, else the first minimum;
    an empty array is a [ValueError]. *)
Definition argmin (l : list F) : result nat :=
  match l with
  | [] => Raise ValueError
  | x :: rest =>
      match find_index is_nan l with
      | Some i => Ok i
      | None => Ok (first_min x 0 1 rest)
      end
  end.

(** [np.argmin(np.abs(freq - target))] *)
Definition nearest_index (freq : list F) (target : F) : result nat :=
  argmin (map (fun f => fabs (fsub f target)) freq).

(** *** Attributes *)

(** [self.frf] is the integer 0 in pyFRF mode and a matrix otherwise. *)
Inductive frf_attr : Type :=
  | FrfInt (n : Z)
  | FrfArray (ncols : nat) (rows : list (list complex)).

(** One pole reference of [pole_ind]: (order index, index in the order). *)
Definition pole_ref : Type := (Z * Z)%type.

(** The attributes of an [lscf] object; [None] is an attribute not set
    yet. *)
Record lscf : Type := Lscf {
  lower : option F;
  upper : option F;
  frf : option frf_attr;
  freq : option (array_like F);
  pol_order_high : option Z;
  omega : option (list F);
  sampling_time : option F;
  all_poles : option (list (list complex));
  pole_freq : option (list (list F));
  pole_xi : option (list (list F));
  partfactors : option (list (list complex));
  pole_ind : option (list pole_ref);
  modal_A : option (matrix complex);            (* self.A *)
  LR : option (list complex);
  UR : option (list complex);
  poles : option (list complex)
}.

(** A fresh object, before [__init__] runs. *)
Definition blank : lscf :=
  {| lower := None; upper := None; frf := None; freq := None;
     pol_order_high := None; omega := None; sampling_time := None;
     all_poles := None; pole_freq := None; pole_xi := None;
     partfactors := None; pole_ind := None; modal_A := None;
     LR := None; UR := None; poles := None |}.

(** *** Methods: a computation on [self] that may raise *)

(** A method body takes the object and gives back the object as it has
    become, with a value or the exception raised.  What was assigned
    before a [raise] stays assigned. *)
Definition method (A : Type) : Type := lscf -> lscf * result A.

Definition ret {A} (a : A) : method A := fun self => (self, Ok a).
Definition throw {A} (e : exn) : method A := fun self => (self, Raise e).

Definition mbind {A B} (m : method A) (k : A -> method B) : method B :=
  fun self =>
    match m self with
    | (self', Ok a) => k a self'
    | (self', Raise e) => (self', Raise e)
    end.

Notation "x <~ e ;; k" := (mbind e (fun x => k))
  (at level 61, e at next level, right associativity).
Notation "e ;;; k" := (mbind e (fun _ => k))
  (at level 61, right associativity).

Definition lift {A} (r : result A) : method A := fun self => (self, r).

(** [self.attr], an [AttributeError] when the attribute is not set. *)
Definition attr {A} (get : lscf -> option A) : method A :=
  fun self => (self, from_option AttributeError (get self)).

Definition assign (update : lscf -> lscf) : method unit :=
  fun self => (update self, Ok tt).

Definition set_lower (x : F) (o : lscf) : lscf :=
  {| lower := Some x; upper := upper o; frf := frf o; freq := freq o;
     pol_order_high := pol_order_high o; omega := omega o;
     sampling_time := sampling_time o; all_poles := all_poles o;
     pole_freq := pole_freq o; pole_xi := pole_xi o;
     partfactors := partfactors o; pole_ind := pole_ind o;
     modal_A := modal_A o; LR := LR o; UR := UR o; poles := poles o |}.

Definition set_upper (x : F) (o : lscf) : lscf :=
  {| lower := lower o; upper := Some x; frf := frf o; freq := freq o;
     pol_order_high := pol_order_high o; omega := omega o;
     sampling_time := sampling_time o; all_poles := all_poles o;
     pole_freq := pole_freq o; pole_xi := pole_xi o;
     partfactors := partfactors o; pole_ind := pole_ind o;
     modal_A := modal_A o; LR := LR o; UR := UR o; poles := poles o |}.

Definition set_frf (x : frf_attr) (o : lscf) : lscf :=
  {| lower := lower o; upper := upper o; frf := Some x; freq := freq o;
     pol_order_high := pol_order_high o; omega := omega o;
     sampling_time := sampling_time o; all_poles := all_poles o;
     pole_freq := pole_freq o; pole_xi := pole_xi o;
     partfactors := partfactors o; pole_ind := pole_ind o;
     modal_A := modal_A o; LR := LR o; UR := UR o; poles := poles o |}.

Definition set_freq (x : array_like F) (o : lscf) : lscf :=
  {| lower := lower o; upper := upper o; frf := frf o; freq := Some x;
     pol_order_high := pol_order_high o; omega := omega o;
     sampling_time := sampling_time o; all_poles := all_poles o;
     pole_freq := pole_freq o; pole_xi := pole_xi o;
     partfactors := partfactors o; pole_ind := pole_ind o;
     modal_A := modal_A o; LR := LR o; UR := UR o; poles := poles o |}.

Definition set_pol_order_high (x : Z) (o : lscf) : lscf :=
  {| lower := lower o; upper := upper o; frf := frf o; freq := freq o;
     pol_order_high := Some x; omega := omega o;
     sampling_time := sampling_time o; all_poles := all_poles o;
     pole_freq := pole_freq o; pole_xi := pole_xi o;
     partfactors := partfactors o; pole_ind := pole_ind o;
     modal_A := modal_A o; LR := LR o; UR := UR o; poles := poles o |}.

Definition set_omega (x : list F) (o : lscf) : lscf :=
  {| lower := lower o; upper := upper o; frf := frf o; freq := freq o;
     pol_order_high := pol_order_high o; omega := Some x;
     sampling_time := sampling_time o; all_poles := all_poles o;
     pole_freq := pole_freq o; pole_xi := pole_xi o;
     partfactors := partfactors o; pole_ind := pole_ind o;
     modal_A := modal_A o; LR := LR o; UR := UR o; poles := poles o |}.

Definition set_sampling_time (x : F) (o : lscf) : lscf :=
  {| lower := lower o; upper := upper o; frf := frf o; freq := freq o;
     pol_order_high := pol_order_high o; omega := omega o;
     sampling_time := Some x; all_poles := all_poles o;
     pole_freq := pole_freq o; pole_xi := pole_xi o;
     partfactors := partfactors o; pole_ind := pole_ind o;
     modal_A := modal_A o; LR := LR o; UR := UR o; poles := poles o |}.

(** *** [__init__] *)

(** The arguments of the constructor. *)
Record init_args : Type := InitArgs {
  arg_frf : option (array_like complex);
  arg_freq : option (array_like F);
  arg_dt : option F;
  arg_lower : pyval;
  arg_upper : pyval;
  arg_pol_order_high : pyval;
  arg_pyfrf : bool
}.

(** [a[-1]] *)
Definition last_item {X} (a : list X) : result X :=
  from_option IndexError (nth_error a (length a - 1)).

(** The branch [elif not pyfrf and frf is not None and freq is not None]:
    both arrays are stored, then cut at the index nearest to [upper]. *)
Definition store_arrays (frf0 : array_like complex) (freq0 : array_like F)
  (up : F) : method unit :=
  frf1 <~ lift (from_option (Exception cannot_convert_frf) (asarray frf0)) ;;
  assign (set_frf (match frf1 with
                   | Seq1 v => FrfArray (length v) [v]
                   | Seq2 ncols rows => FrfArray ncols rows
                   end)) ;;;
  freq1 <~ lift (from_option (Exception cannot_convert_freq)
                             (asarray freq0)) ;;
  assign (set_freq freq1) ;;;
  match freq1 with
  | Seq2 _ _ => throw (Exception freq_ndim_not_one)
  | Seq1 fq =>
      cutoff_ind <~ lift (nearest_index fq up) ;;
      stored <~ attr frf ;;
      match stored with
      | FrfInt _ => throw IndexError
      | FrfArray ncols rows =>
          assign (set_frf (FrfArray (Nat.min cutoff_ind ncols)
                                    (map (slice_to cutoff_ind) rows)))
      end ;;;
      assign (set_freq (Seq1 (slice_to cutoff_ind fq)))
  end.

Definition init (a : init_args) : method unit :=
  match py_float (arg_lower a) with
  | None => throw (Exception lower_must_be_number)
  | Some lo =>
    assign (set_lower lo) ;;;
    (if fltb lo f_zero then throw (Exception lower_must_be_positive)
     else ret tt) ;;;
    match py_float (arg_upper a) with
    | None => throw (Exception upper_must_be_number)
    | Some up =>
      assign (set_upper up) ;;;
      (if fltb up lo then throw (Exception upper_must_be_greater)
       else ret tt) ;;;
      (if arg_pyfrf a then assign (set_frf (FrfInt 0))
       else match arg_frf a, arg_freq a with
            | Some frf0, Some freq0 => store_arrays frf0 freq0 up
            | _, _ => throw (Exception arguments_not_defined)
            end) ;;;
      match py_int (arg_pol_order_high a) with
      | None => throw (Exception cannot_convert_order)
      | Some order =>
        assign (set_pol_order_high order) ;;;
        (if (order <=? 0)%Z then throw (Exception order_must_be_positive)
         else ret tt) ;;;
        if arg_pyfrf a then ret tt
        else
          stored <~ attr freq ;;
          match stored with
          | Seq2 _ _ => throw ValueError
          | Seq1 fq =>
              assign (set_omega (map (fmul (fmul f_two f_pi)) fq)) ;;;
              match arg_dt a with
              | None =>
                  top <~ lift (last_item fq) ;;
                  assign (set_sampling_time
                            (fdiv f_one (fmul f_two top)))
              | Some dt => assign (set_sampling_time dt)
              end
          end
      end
    end
  end.

(** [for x in xs: body(x)] inside a method. *)
Fixpoint mfor {X} (xs : list X) (body : X -> method unit) : method unit :=
  match xs with
  | [] => ret tt
  | x :: rest => body x ;;; mfor rest body
  end.

(** [for x in xs: acc = body(x, acc)] inside a method. *)
Fixpoint mfold {X B} (xs : list X) (body : X -> B -> method B) (acc : B)
  : method B :=
  match xs with
  | [] => ret acc
  | x :: rest => acc' <~ body x acc ;; mfold rest body acc'
  end.

(** One call of [f] per element, collecting what is returned. *)
Fixpoint mmap {X Y} (f : X -> method Y) (xs : list X) : method (list Y) :=
  match xs with
  | [] => ret []
  | x :: rest => y <~ f x ;; ys <~ mmap f rest ;; ret (y :: ys)
  end.

(** *** [get_poles] *)

Definition reset_pole_lists (o : lscf) : lscf :=
  {| lower := lower o; upper := upper o; frf := frf o; freq := freq o;
     pol_order_high := pol_order_high o; omega := omega o;
     sampling_time := sampling_time o; all_poles := Some [];
     pole_freq := Some []; pole_xi := Some []; partfactors := Some [];
     pole_ind := pole_ind o;
     modal_A := modal_A o; LR := LR o; UR := UR o; poles := poles o |}.

Definition set_partfactors (x : list (list complex)) (o : lscf) : lscf :=
  {| lower := lower o; upper := upper o; frf := frf o; freq := freq o;
     pol_order_high := pol_order_high o; omega := omega o;
     sampling_time := sampling_time o; all_poles := all_poles o;
     pole_freq := pole_freq o; pole_xi := pole_xi o;
     partfactors := Some x; pole_ind := pole_ind o;
     modal_A := modal_A o; LR := LR o; UR := UR o; poles := poles o |}.

Definition set_pole_lists (p : list (list complex)) (f x : list (list F))
  (o : lscf) : lscf :=
  {| lower := lower o; upper := upper o; frf := frf o; freq := freq o;
     pol_order_high := pol_order_high o; omega := omega o;
     sampling_time := sampling_time o; all_poles := Some p;
     pole_freq := Some f; pole_xi := Some x;
     partfactors := partfactors o; pole_ind := pole_ind o;
     modal_A := modal_A o; LR := LR o; UR := UR o; poles := poles o |}.

(** The Toeplitz matrices [s] (one per output), [t] and [r]. *)
Record normal_matrices : Type := Normal {
  s_mats : list (list (list F));
  t_mat : list (list F);
  r_mat : list (list F)
}.

Definition build_normal_matrices (ncols : nat) (rows : list (list complex))
  (lower_ind : nat) (n : Z) : result normal_matrices :=
  let nf := (2 * (Z.of_nat ncols - 1))%Z in
  let indices_s := arange (- n) (n + 1) in
  let indices_t := arange 0 (n + 1) in
  let k := Z.to_nat n in
  sk0 <- irfft_adjusted_lower_limit ncols rows lower_ind indices_s ;;
  let sk := map (map fopp) sk0 in
  t0 <- irfft_adjusted_lower_limit ncols
          (map (map (fun z => c_of_real (fadd (fmul (re z) (re z))
                                              (fmul (im z) (im z)))))
               rows)
          lower_ind indices_t ;;
  r0 <- irfft_at [repeat c_one lower_ind] nf indices_t ;;
  let r1 := map fopp (nth 0 r0 []) in
  _ <- py_index (length r1) 0 ;;
  let r2 := set_nth 0 (fadd (nth 0 r1 f_zero) (float_of nf)) r1 in
  let tsum := map (fun j => sum_F (column f_zero j t0)) (seq 0 (S k)) in
  Ok {| s_mats := map (fun row => toeplitz (skipn k row)
                                           (rev (firstn (S k) row))) sk;
        t_mat := toeplitz tsum tsum;
        r_mat := toeplitz r2 r2 |}.

(** [d] after the loop over the outputs and [d += t[:j+1, :j+1]]. *)
Definition reduced_normal_matrix (m : normal_matrices) (j : nat)
  : result (list (list F)) :=
  let sub (a b : list (list F)) :=
    map (fun p => map (fun q => fsub (fst q) (snd q))
                      (combine (fst p) (snd p)))
        (combine a b) in
  let add (a b : list (list F)) :=
    map (fun p => map (fun q => fadd (fst q) (snd q))
                      (combine (fst p) (snd p)))
        (combine a b) in
  d <- for_each (s_mats m)
         (fun s_i d =>
            rinv <- linalg_inv (leading_block (S j) (r_mat m)) ;;
            let snew := leading_block (S j) s_i in
            Ok (sub d (matmul (S j)
                         (matmul (S j) (transpose (S j) snew) rinv) snew)))
         (zeros f_zero (S j) (S j)) ;;
  Ok (add d (leading_block (S j) (t_mat m))).

(** The denominator polynomial of order [j], highest power first:
    [np.append(a0an1, 1)[::-1]]. *)
Definition order_polynomial (m : normal_matrices) (j : nat)
  : result (list F) :=
  d <- reduced_normal_matrix m j ;;
  a0an1 <- linalg_solve (map (map fopp) (leading_block j d))
                        (firstn j (column f_zero j d)) ;;
  Ok (rev (a0an1 ++ [f_one])).

(** [poles = -np.log(sr) / self.sampling_time] *)
Definition poles_of_roots (dt : F) (sr : list complex) : list complex :=
  map (fun z => cdiv (cneg (clog z)) (c_of_real dt)) sr.

(** The body of [for j in range(2, n+1, 2)]. *)
Definition poles_of_order (m : normal_matrices) (j : nat) : method unit :=
  coeffs <~ lift (order_polynomial m j) ;;
  sr <~ lift (roots coeffs) ;;
  dt <~ attr sampling_time ;;
  let found := poles_of_roots dt sr in
  _t <~ lift (companion coeffs) ;;
  vw <~ lift (linalg_eig _t) ;;
  last_row <~ lift (last_item (snd vw)) ;;
  pf <~ attr partfactors ;;
  assign (set_partfactors (pf ++ [last_row])) ;;;
  let (f_pole, ceta) := complex_freq_to_freq_and_damp found in
  ps <~ attr all_poles ;;
  fs <~ attr pole_freq ;;
  xs <~ attr pole_xi ;;
  assign (set_pole_lists (ps ++ [found]) (fs ++ [f_pole]) (xs ++ [ceta])).

(** [range(2, n+1, 2)] *)
Definition even_orders (n : Z) : list nat :=
  map (fun k => (2 * (k + 1))%nat) (seq 0 (Z.to_nat (n / 2))).

Definition get_poles : method unit :=
  assign reset_pole_lists ;;;
  stored_freq <~ attr freq ;;
  lo <~ attr lower ;;
  match stored_freq with
  | Seq2 _ _ => throw ValueError
  | Seq1 fq =>
      lower_ind <~ lift (nearest_index fq lo) ;;
      order <~ attr pol_order_high ;;
      let n := (order * 2)%Z in
      stored <~ attr frf ;;
      match stored with
      | FrfInt _ => throw AttributeError
      | FrfArray ncols rows =>
          m <~ lift (build_normal_matrices ncols rows lower_ind n) ;;
          mfor (even_orders n) (poles_of_order m)
      end
  end.

(** *** [FRF_reconstruct] *)

(** What [FRF_ind] may be when [lsfd] is called. *)
Inductive selector : Type :=
  | SelNone
  | SelStr (s : String.string)
  | SelBool (b : bool)
  | SelInt (k : Z)
  | SelFloat (x : F).

Definition set_modal (a : matrix complex) (lr ur ps : list complex)
  (o : lscf) : lscf :=
  {| lower := lower o; upper := upper o; frf := frf o; freq := freq o;
     pol_order_high := pol_order_high o; omega := omega o;
     sampling_time := sampling_time o; all_poles := all_poles o;
     pole_freq := pole_freq o; pole_xi := pole_xi o;
     partfactors := partfactors o; pole_ind := pole_ind o;
     modal_A := Some a; LR := Some lr; UR := Some ur; poles := Some ps |}.

(** The reconstruction for an integer index. *)
Definition FRF_reconstruct (FRF_ind : Z) : method (list complex) :=
  om <~ attr omega ;;
  a <~ attr modal_A ;;
  let denominator (w : F) (p : complex) := csub (cmul c_i (c_of_real w)) p in
  acc <~ mfold (seq 0 (ncols a))
           (fun n FRF_true =>
              row <~ lift (py_index (length (mrows a)) FRF_ind) ;;
              let a_n := nth n (nth row (mrows a) []) (c_of_real f_zero) in
              ps <~ attr poles ;;
              p <~ lift (from_option IndexError (nth_error ps n)) ;;
              ret (map (fun wy =>
                          cadd (snd wy)
                            (cadd (cdiv a_n (denominator (fst wy) p))
                                  (cdiv (cconj a_n)
                                        (denominator (fst wy) (cconj p)))))
                       (combine om FRF_true)))
           (repeat (c_of_real f_zero) (length om)) ;;
  lr <~ attr LR ;;
  k <~ lift (py_index (length lr) FRF_ind) ;;
  ur <~ attr UR ;;
  k' <~ lift (py_index (length ur) FRF_ind) ;;
  let lr_k := nth k lr (c_of_real f_zero) in
  let ur_k := nth k' ur (c_of_real f_zero) in
  ret (map (fun wy =>
              cadd (snd wy)
                   (cadd (cdiv (cneg lr_k) (c_of_real (fmul (fst wy) (fst wy))))
                         ur_k))
           (combine om acc)).

(** NumPy broadcasting of two shapes, aligned at the last axis. *)
Fixpoint broadcast_rev (s1 s2 : list nat) : result (list nat) :=
  match s1, s2 with
  | [], s | s, [] => Ok s
  | a :: s1', b :: s2' =>
      rest <- broadcast_rev s1' s2' ;;
      if (a =? b)%nat then Ok (a :: rest)
      else if (a =? 1)%nat then Ok (b :: rest)
      else if (b =? 1)%nat then Ok (a :: rest)
      else Raise ValueError
  end.

Definition broadcast (s1 s2 : list nat) : result (list nat) :=
  r <- broadcast_rev (rev s1) (rev s2) ;; Ok (rev r).

(** [out += rhs]: the operands must broadcast to the shape of [out]. *)
Definition inplace_add (out rhs : list nat) : result (list nat) :=
  s <- broadcast out rhs ;;
  if list_eq_dec Nat.eq_dec s out then Ok out else Raise ValueError.

(** The reconstruction when the index is a Python [bool].  NumPy reads a
    [bool] in an index as a mask of no dimension, not as 0 or 1: it puts
    an axis of length 1 ([True]) or 0 ([False]) in front and uses up no
    axis of the array, so [A[b, n]] is row [n] of [A] under a new axis.
    Only shapes matter for what happens; they are followed here. *)
Definition FRF_reconstruct_mask (b : bool) : method (list complex) :=
  om <~ attr omega ;;
  a <~ attr modal_A ;;
  let front := if b then 1%nat else 0%nat in
  _ <~ mfold (seq 0 (ncols a))
         (fun n FRF_true =>
            _ <~ lift (py_index (length (mrows a)) (Z.of_nat n)) ;;
            ps <~ attr poles ;;
            _ <~ lift (from_option IndexError (nth_error ps n)) ;;
            term <~ lift (broadcast [front; ncols a] [length om]) ;;
            both <~ lift (broadcast term term) ;;
            lift (inplace_add FRF_true both))
         [length om] ;;
  lr <~ attr LR ;;
  ur <~ attr UR ;;
  low <~ lift (broadcast [front; length lr] [length om]) ;;
  res <~ lift (broadcast low [front; length ur]) ;;
  _ <~ lift (inplace_add [length om] res) ;;
  ret [].

(** *** [lsfd] *)

(** [_ome]: the angular frequency, or 0.01 in place of a zero. *)
Definition guarded (w : F) : F := if feqb w f_zero then f_0_01 else w.

(** The two lower-residual entries of a row of [TA]. *)
Definition lower_residual_entries (lower_r : bool) (w : F) : list F :=
  if lower_r
  then [fopp (fdiv f_one (fmul (guarded w) (guarded w))); fopp f_zero]
  else [f_zero; f_zero].

(** Row [i] of the design matrix [TA] once every column is assigned. *)
Definition design_row (ps : list complex)
  (complex_mode upper_r lower_r : bool) (w : F) : list F :=
  let jw := cmul c_i (c_of_real w) in
  map (fun p => re (cadd (cdiv c_one (csub jw p))
                         (cdiv c_one (csub jw (cconj p))))) ps
  ++ map (fun p => if complex_mode
                   then im (csub (cdiv c_one (csub jw p))
                                 (cdiv c_one (csub jw (cconj p))))
                   else f_zero) ps
  ++ lower_residual_entries lower_r w
  ++ (if upper_r then [f_one; f_zero] else [f_zero; f_zero]).

(** What [lsfd] returns. *)
Inductive lsfd_result : Type :=
  | ModalConstants (a : matrix complex)
  | WithAllRows (frf_ : matrix complex) (a : matrix complex)
  | WithOneRow (frf_ : list complex) (a : matrix complex).

(** The first part of [lsfd], down to [self.poles = poles]: the least
    squares fit, which leaves [self.A], [self.LR], [self.UR] and
    [self.poles] assigned.  Its value is [self.A]. *)
Definition modal_fit (whose_poles : option lscf)
  (f_lower f_upper : option F) (complex_mode upper_r lower_r : bool)
  : method (matrix complex) :=
  self <~ (fun o => (o, Ok o)) ;;
  let whose := match whose_poles with None => self | Some other => other end in
  refs <~ lift (from_option AttributeError (pole_ind whose)) ;;
  ps <~ lift (map_result
                (fun ref : pole_ref =>
                   orders <- from_option AttributeError (all_poles whose) ;;
                   i <- py_index (length orders) (fst ref) ;;
                   let order := nth i orders [] in
                   k <- py_index (length order) (snd ref) ;;
                   Ok (nth k order (c_of_real f_zero)))
                refs) ;;
  lo <~ match f_lower with Some x => ret x | None => attr lower end ;;
  up <~ match f_upper with Some x => ret x | None => attr upper end ;;
  stored_freq <~ attr freq ;;
  match stored_freq with
  | Seq2 _ _ => throw ValueError
  | Seq1 fq =>
      lower_ind <~ lift (nearest_index fq lo) ;;
      upper_ind <~ lift (nearest_index fq up) ;;
      let _freq := slice lower_ind upper_ind fq in
      stored <~ attr frf ;;
      match stored with
      | FrfInt _ => throw IndexError
      | FrfArray _ rows =>
          let _FRF_mat := map (slice lower_ind upper_ind) rows in
          let ome := map (fmul (fmul f_two f_pi)) _freq in
          let M_2 := length ps in
          let width := (M_2 * 2 + 4)%nat in
          let TA := map (design_row ps complex_mode upper_r lower_r) ome in
          let TAt := transpose width TA in
          p <~ lift (linalg_pinv width (matmul width TAt TA)) ;;
          let AT := matmul (length ome) p TAt in
          A_LSFD <~ lift (map_result
                            (fun frf_row =>
                               if (length frf_row =? length ome)%nat
                               then Ok (map (fun at_row =>
                                               re (sum_C
                                                 (map (fun q =>
                                                    cmul (c_of_real (fst q))
                                                         (snd q))
                                                    (combine at_row frf_row))))
                                            (firstn width
                                               (AT ++ repeat [] width)))
                               else Raise ValueError)
                            _FRF_mat) ;;
          let entry (row : list F) (k : nat) := nth k row f_zero in
          let pair (row : list F) (k : nat) :=
            cadd (c_of_real (entry row k))
                 (cmul c_i (c_of_real (entry row (S k)))) in
          assign (set_modal
                    {| ncols := M_2;
                       mrows := map (fun row =>
                                  map (fun n =>
                                         cneg (cadd (c_of_real (entry row n))
                                                 (cmul c_i (c_of_real
                                                    (entry row (M_2 + n))))))
                                      (seq 0 M_2))
                                  A_LSFD |}
                    (map (fun row => pair row (2 * M_2)) A_LSFD)
                    (map (fun row => pair row (2 * M_2 + 2)) A_LSFD)
                    ps) ;;;
          attr modal_A
      end
  end.

(** [self.frf.shape[0]] *)
Definition outputs : method nat :=
  stored <~ attr frf ;;
  match stored with
  | FrfInt _ => throw AttributeError
  | FrfArray _ rows => ret (length rows)
  end.

(** [lsfd]: the fit, then the branch on [FRF_ind]. *)
Definition lsfd (whose_poles : option lscf) (FRF_ind : selector)
  (f_lower f_upper : option F) (complex_mode upper_r lower_r : bool)
  : method lsfd_result :=
  a <~ modal_fit whose_poles f_lower f_upper complex_mode upper_r lower_r ;;
  match FRF_ind with
  | SelNone => ret (ModalConstants a)
  | SelStr s =>
      if String.eqb s "all"%string
      then
        n <~ outputs ;;
        om <~ attr omega ;;
        frf_ <~ mmap (fun i => FRF_reconstruct (Z.of_nat i)) (seq 0 n) ;;
        ret (WithAllRows {| ncols := length om; mrows := frf_ |} a)
      else throw (Exception selector_must_be_none_all_int)
  | SelBool b =>
      frf_ <~ FRF_reconstruct_mask b ;;
      ret (WithOneRow frf_ a)
  | SelInt k =>
      frf_ <~ FRF_reconstruct k ;;
      ret (WithOneRow frf_ a)
  | SelFloat _ => throw (Exception selector_must_be_none_all_int)
  end.

End Lscf.

Arguments pyval {Sc}.
Arguments frf_attr {Sc}.
Arguments lscf {Sc}.
Arguments init_args {Sc}.
Arguments method {Sc} A.
Arguments normal_matrices {Sc}.
Arguments selector {Sc}.
Arguments lsfd_result {Sc}.

(** *** [add_frf] and [_select_closest_poles_on_the_fly] *)

Section PyFRFAndChart.

Context {Sc : Scalar}.

Notation "x <~ e ;; k" := (mbind e (fun x => k))
  (at level 61, e at next level, right associativity).
Notation "e ;;; k" := (mbind e (fun _ => k))
  (at level 61, right associativity).

(** What [add_frf] asks of a pyFRF object: the frequency axis and the
    receptance, both one-dimensional arrays. *)
Record pyfrf_object : Type := PyFRF {
  get_f_axis : list F;
  get_FRF : list complex
}.

Variable f_0_1 : F.                (* the literal 1.0e-1 *)
Variable fgeb : F -> F -> bool.    (* x >= y *)

(** [a[sel]] for a boolean array [sel]: the lengths must agree. *)
Definition masked {X} (sel : list bool) (a : list X) : result (list X) :=
  if (length sel =? length a)%nat
  then Ok (map snd (filter fst (combine sel a)))
  else Raise IndexError.

Definition add_frf (o : pyfrf_object) : method unit :=
  let freq0 := get_f_axis o in
  let sel := map (fun f => fgeb f f_0_1) freq0 in
  kept <~ lift (masked sel freq0) ;;
  assign (set_freq (Seq1 kept)) ;;;
  assign (set_omega (map (fmul (fmul f_two f_pi)) kept)) ;;;
  top <~ lift (last_item kept) ;;
  assign (set_sampling_time (fdiv f_one (fmul f_two top))) ;;;
  picked_frf <~ lift (masked sel (get_FRF o)) ;;
  (* np.vstack of a one-dimensional array: one row per entry, and at
     least one entry *)
  new_frf <~ match picked_frf with
             | [] => throw ValueError
             | _ => ret (map (fun z => [z]) picked_frf)
             end ;;
  let new_frf_T := [map (fun row => nth 0 row (Cx f_zero f_zero)) new_frf] in
  stored <~ attr frf ;;
  match stored with
  | FrfInt _ => assign (set_frf (FrfArray (length new_frf) new_frf_T))
  | FrfArray ncols rows =>
      if (ncols =? length new_frf)%nat
      then assign (set_frf (FrfArray ncols (rows ++ new_frf_T)))
      else throw ValueError
  end.

Definition set_pole_ind (x : list pole_ref) (o : lscf) : lscf :=
  {| lower := lower o; upper := upper o; frf := frf o; freq := freq o;
     pol_order_high := pol_order_high o; omega := omega o;
     sampling_time := sampling_time o; all_poles := all_poles o;
     pole_freq := pole_freq o; pole_xi := pole_xi o;
     partfactors := partfactors o; pole_ind := Some x;
     modal_A := modal_A o; LR := LR o; UR := UR o; poles := poles o |}.

(** The attributes that [stab_chart] alone sets: where the user clicked
    and what was picked so far. *)
Record chart : Type := Chart {
  x_data_pole : F;
  y_data_pole : F;
  nat_freq : list F;
  nat_xi : list F
}.

Definition set_nat_freq (x : list F) (c : chart) : chart :=
  {| x_data_pole := x_data_pole c; y_data_pole := y_data_pole c;
     nat_freq := x; nat_xi := nat_xi c |}.

Definition set_nat_xi (x : list F) (c : chart) : chart :=
  {| x_data_pole := x_data_pole c; y_data_pole := y_data_pole c;
     nat_freq := nat_freq c; nat_xi := x |}.

(** [_select_closest_poles_on_the_fly]: the object and the chart's
    attributes as they are left, with the outcome. *)
Definition select_closest_poles_on_the_fly (c : chart) (self : lscf)
  : (chart * lscf) * result unit :=
  match pole_freq self with
  | None => ((c, self), Raise AttributeError)
  | Some fs =>
    match argmin (map (fun k => fabs (fsub (float_of k) (y_data_pole c)))
                      (arange 0 (Z.of_nat (length fs)))) with
    | Raise e => ((c, self), Raise e)
    | Ok y_ind =>
      match nth_error fs y_ind with
      | None => ((c, self), Raise IndexError)
      | Some order =>
        match argmin (map (fun f => fabs (fsub f (x_data_pole c))) order) with
        | Raise e => ((c, self), Raise e)
        | Ok sel =>
          match pole_ind self with
          | None => ((c, self), Raise AttributeError)
          | Some refs =>
            let self1 :=
              set_pole_ind (refs ++ [(Z.of_nat y_ind, Z.of_nat sel)]) self in
            match nth_error order sel with
            | None => ((c, self1), Raise IndexError)
            | Some f =>
              let c1 := set_nat_freq (nat_freq c ++ [f]) c in
              match pole_xi self1 with
              | None => ((c1, self1), Raise AttributeError)
              | Some xs =>
                match nth_error xs y_ind with
                | None => ((c1, self1), Raise IndexError)
                | Some xorder =>
                  match nth_error xorder sel with
                  | None => ((c1, self1), Raise IndexError)
                  | Some x =>
                      ((set_nat_xi (nat_xi c1 ++ [x]) c1, self1), Ok tt)
                  end
                end
              end
            end
          end
        end
      end
    end
  end.

End PyFRFAndChart.

(** ** Binary64 runs *)

(** To replay calls of the methods in binary64, [Numpy] is given an
    instance: complex arithmetic by the textbook formulas, and a
    pseudo-inverse that is the true one on diagonal matrices whose
    non-zero entries are of like size.  The logarithm, the FFT and the
    LAPACK routines cannot be computed here; they get placeholders of the
    right shape, and nothing below states anything about their values. *)
Definition b64_cdiv (a b : @complex b64) : @complex b64 :=
  let d := (re b * re b + im b * im b)%float in
  Cx (Sc:=b64) ((re a * re b + im a * im b) / d)%float
               ((im a * re b - re a * im b) / d)%float.

Definition is_diagonal (m : list (list float)) : bool :=
  forallb (fun i =>
             forallb (fun j => (i =? j)%nat
                               || PrimFloat.eqb (nth j (nth i m []) 0%float)
                                                0%float)
                     (seq 0 (length (nth i m []))))
          (seq 0 (length m)).

Definition b64_pinv (n : nat) (m : list (list float))
  : result (list (list float)) :=
  if is_diagonal m
  then Ok (map (fun i =>
                  map (fun j =>
                         let d := nth j (nth i m []) 0%float in
                         if (i =? j)%nat && negb (PrimFloat.eqb d 0%float)
                         then (1 / d)%float else 0%float)
                      (seq 0 n))
               (seq 0 n))
  else Raise LinAlgError.

#[export] Instance b64_numpy : @Numpy b64 := {|
  cadd := fun a b : @complex b64 =>
            Cx (Sc:=b64) (re a + re b)%float (im a + im b)%float;
  csub := fun a b : @complex b64 =>
            Cx (Sc:=b64) (re a - re b)%float (im a - im b)%float;
  cmul := fun a b : @complex b64 =>
            Cx (Sc:=b64) (re a * re b - im a * im b)%float
                         (re a * im b + im a * re b)%float;
  cdiv := b64_cdiv;
  clog := fun z : @complex b64 => z;
  irfft := fun (_ : list (@complex b64)) n => repeat 0%float n;
  linalg_inv := fun m : list (list float) => Ok m;
  linalg_solve := fun (_ : list (list float)) (b : list float) => Ok b;
  roots := fun c : list float =>
             Ok (map (fun x => Cx (Sc:=b64) x 0%float) (tl c));
  linalg_eig := fun m : list (list float) =>
                  Ok ([], [map (fun _ => Cx (Sc:=b64) 0%float 0%float) m]);
  linalg_pinv := b64_pinv
|}.

(** Two outputs measured at 1, 2 and 3 Hz, band 0 to 3 Hz, one order. *)
Definition two_outputs : @init_args b64 :=
  {| arg_frf := Some (Seq2 3 [[Cx (Sc:=b64) 1 0; Cx (Sc:=b64) 2 0; Cx (Sc:=b64) 3 0];
                              [Cx (Sc:=b64) 4 0; Cx (Sc:=b64) 5 0; Cx (Sc:=b64) 6 0]]%float);
     arg_freq := Some (Seq1 [1; 2; 3]%float);
     arg_dt := None;
     arg_lower := PyInt 0;
     arg_upper := PyInt 3;
     arg_pol_order_high := PyInt 1;
     arg_pyfrf := false |}.

(** The object after construction, with one pole computed and picked. *)
Definition picked (o : @lscf b64) : @lscf b64 :=
  {| lower := lower o; upper := upper o; frf := frf o; freq := freq o;
     pol_order_high := pol_order_high o; omega := omega o;
     sampling_time := sampling_time o;
     all_poles := Some [[Cx (Sc:=b64) (-1) 10; Cx (Sc:=b64) (-1) (-10)]%float];
     pole_freq := pole_freq o; pole_xi := pole_xi o;
     partfactors := partfactors o; pole_ind := Some [(0, 0)%Z];
     modal_A := modal_A o; LR := LR o; UR := UR o; poles := poles o |}.

Definition two_outputs_object : @lscf b64 :=
  picked (fst (init two_outputs blank)).

(* ================================================================== *)
(** * Properties *)

(** ** Lists *)

Lemma nth_map_seq {X} (f : nat -> X) (d : X) (N j : nat) :
  (j < N)%nat -> nth j (map f (seq 0 N)) d = f j.
Proof.
  intros Hj.
  rewrite (nth_indep _ d (f 0%nat)) by (rewrite length_map, length_seq; exact Hj).
  rewrite map_nth, seq_nth by exact Hj.
  reflexivity.
Qed.

Lemma map_nth_seq {X} (d : X) (l : list X) :
  map (fun j => nth j l d) (seq 0 (length l)) = l.
Proof.
  induction l as [|x l IH]; simpl; [reflexivity|].
  f_equal. rewrite <- seq_shift, map_map. exact IH.
Qed.

Lemma map_singleton_nth_seq {X} (d : X) (l : list X) :
  map (fun j => [nth j l d]) (seq 0 (length l)) = map (fun x => [x]) l.
Proof.
  rewrite <- (map_map (fun j => nth j l d) (fun x => [x])).
  rewrite map_nth_seq. reflexivity.
Qed.

Lemma last_is_nth {X} (d : X) (l : list X) :
  last l d = nth (length l - 1) l d.
Proof.
  induction l as [|x l IH]; [reflexivity|].
  destruct l as [|y l]; [reflexivity|].
  change (last (x :: y :: l) d) with (last (y :: l) d).
  rewrite IH. cbn [length Nat.sub]. rewrite Nat.sub_0_r. reflexivity.
Qed.

Lemma map_result_ok {X Y} (f : X -> result Y) (g : X -> Y) (xs : list X) :
  (forall x, In x xs -> f x = Ok (g x)) ->
  map_result f xs = Ok (map g xs).
Proof.
  induction xs as [|x xs IH]; intros H; simpl; [reflexivity|].
  rewrite (H x) by (left; reflexivity). simpl.
  rewrite IH by (intros y Hy; apply H; right; exact Hy).
  reflexivity.
Qed.

Lemma filter_all {X} (p : X -> bool) (l : list X) :
  (forall x, In x l -> p x = true) -> filter p l = l.
Proof.
  induction l as [|x l IH]; intros H; simpl; [reflexivity|].
  rewrite (H x) by (left; reflexivity).
  f_equal. apply IH. intros y Hy. apply H. right. exact Hy.
Qed.

Lemma filter_drops_one (p : nat -> bool) (k : nat) (l : list nat) :
  NoDup l -> In k l ->
  (forall x, In x l -> p x = negb (x =? k)%nat) ->
  S (length (filter p l)) = length l.
Proof.
  induction l as [|x l IH]; intros Hnd Hin Hp; [destruct Hin|].
  inversion Hnd as [|? ? Hx Hnd']; subst.
  simpl. rewrite (Hp x) by (left; reflexivity).
  destruct (Nat.eqb_spec x k) as [->|Hne]; simpl.
  - f_equal. f_equal. apply filter_all.
    intros y Hy. rewrite (Hp y) by (right; exact Hy).
    destruct (Nat.eqb_spec y k) as [->|_]; [contradiction|reflexivity].
  - f_equal. apply IH; [exact Hnd'| |].
    + destruct Hin as [->|Hin]; [contradiction|exact Hin].
    + intros y Hy. apply Hp. right. exact Hy.
Qed.

Lemma sum_Z_cons (a : Z) (l : list Z) : sum_Z (a :: l) = (a + sum_Z l)%Z.
Proof. reflexivity. Qed.

(** A sum of indicators is below 1 exactly when no indicator is set. *)
Lemma sum_indicator_nonneg {X} (b : X -> bool) (xs : list X) :
  (0 <= sum_Z (map (fun x => if b x then 1 else 0) xs))%Z.
Proof.
  induction xs as [|x xs IH]; cbn [map]; [unfold sum_Z; simpl; lia|].
  rewrite sum_Z_cons. destruct (b x); lia.
Qed.

Lemma sum_indicator_lt_1 {X} (b : X -> bool) (xs : list X) :
  (sum_Z (map (fun x => if b x then 1 else 0) xs) <? 1)%Z
  = negb (existsb b xs).
Proof.
  induction xs as [|x xs IH]; cbn [map existsb]; [reflexivity|].
  pose proof (sum_indicator_nonneg b xs) as Hnn.
  rewrite sum_Z_cons.
  destruct (b x); cbn [orb negb].
  - apply Z.ltb_ge. lia.
  - rewrite Z.add_0_l. exact IH.
Qed.

Lemma sum_indicator_pos {X} (b : X -> bool) (xs : list X) :
  (0 < sum_Z (map (fun x => if b x then 1 else 0) xs))%Z
  <-> exists x, In x xs /\ b x = true.
Proof.
  pose proof (sum_indicator_lt_1 b xs) as H.
  pose proof (sum_indicator_nonneg b xs) as Hnn.
  rewrite <- existsb_exists.
  destruct (existsb b xs); simpl in H.
  - apply Z.ltb_ge in H. split; [reflexivity|lia].
  - apply Z.ltb_lt in H. split; [lia|discriminate].
Qed.

(** ** [redundant_values] *)

Section Redundant.

Context {Sc : Scalar}.

(** Entry [j] has a later entry closer than [prec]. *)
Definition shadowed (omega : list F) (prec : F) (j : nat) : bool :=
  existsb (fun i => (j <? i)%nat &&
                    closer_than prec (nth i omega f_zero) (nth j omega f_zero))
          (seq 0 (length omega)).

(** The indices that survive. *)
Definition kept (omega : list F) (prec : F) : list nat :=
  filter (fun j => negb (shadowed omega prec j)) (seq 0 (length omega)).

Lemma test_column (omega : list F) (prec : F) (j : nat) :
  (j < length omega)%nat ->
  (nth j (sum_axis0 (length omega) (test_omega omega prec)) 0%Z <? 1)%Z
  = negb (shadowed omega prec j).
Proof.
  intros Hj. unfold sum_axis0, test_omega, shadowed.
  rewrite nth_map_seq by exact Hj.
  rewrite map_map.
  rewrite <- sum_indicator_lt_1. f_equal. f_equal.
  apply map_ext_in. intros i Hi.
  rewrite nth_map_seq by exact Hj.
  destruct (j <? i)%nat; simpl; reflexivity.
Qed.

Lemma argwhere_kept (omega : list F) (prec : F) :
  argwhere_lt_1 (sum_axis0 (length omega) (test_omega omega prec))
  = map (fun j => [j]) (kept omega prec).
Proof.
  unfold argwhere_lt_1, kept. f_equal.
  assert (Hlen : length (sum_axis0 (length omega) (test_omega omega prec))
                 = length omega)
    by (unfold sum_axis0; rewrite length_map, length_seq; reflexivity).
  rewrite Hlen. apply filter_ext_in. intros j Hj.
  apply in_seq in Hj. apply test_column. lia.
Qed.

Lemma take_kept (a : list F) (js : list nat) :
  (forall j, In j js -> (j < length a)%nat) ->
  take a (map (fun j => [j]) js) = Ok (map (fun j => [nth j a f_zero]) js).
Proof.
  intros H. unfold take.
  rewrite map_result_ok with (g := fun idx => map (fun j => nth j a f_zero) idx).
  - rewrite map_map. reflexivity.
  - intros idx Hidx. apply in_map_iff in Hidx as [j [<- Hj]].
    apply map_result_ok. intros k [<-|[]].
    rewrite (nth_error_nth' a f_zero (H j Hj)). reflexivity.
Qed.

Lemma kept_in_range (omega : list F) (prec : F) (j : nat) :
  In j (kept omega prec) -> (j < length omega)%nat.
Proof.
  unfold kept. intros Hj. apply filter_In in Hj as [Hj _].
  apply in_seq in Hj. lia.
Qed.

(** What the function returns, in closed form: the surviving entries, in
    their order, as two columns of shape (k, 1). *)
Lemma redundant_values_kept (omega xi : list F) (prec : F) :
  length xi = length omega ->
  redundant_values omega xi prec
  = Ok (map (fun j => [nth j omega f_zero]) (kept omega prec),
        map (fun j => [nth j xi f_zero]) (kept omega prec)).
Proof.
  intros Hlen. unfold redundant_values.
  rewrite argwhere_kept.
  rewrite take_kept by apply kept_in_range. simpl.
  rewrite take_kept
    by (intros j Hj; rewrite Hlen; eapply kept_in_range; exact Hj).
  reflexivity.
Qed.

Lemma kept_all (omega : list F) (prec : F) :
  (forall i j, (j < i < length omega)%nat ->
     closer_than prec (nth i omega f_zero) (nth j omega f_zero) = false) ->
  kept omega prec = seq 0 (length omega).
Proof.
  intros Hfar. unfold kept. apply filter_all. intros j Hj.
  apply negb_true_iff.
  destruct (shadowed omega prec j) eqn:Hs; [|reflexivity].
  unfold shadowed in Hs. apply existsb_exists in Hs as [i [Hi Hc]].
  apply in_seq in Hi. apply andb_prop in Hc as [Hji Hc].
  apply Nat.ltb_lt in Hji.
  rewrite Hfar in Hc by lia. discriminate.
Qed.

Lemma kept_all_but_one (omega : list F) (prec : F) (i0 j0 : nat) :
  (j0 < i0 < length omega)%nat ->
  closer_than prec (nth i0 omega f_zero) (nth j0 omega f_zero) = true ->
  (forall i j, (j < i < length omega)%nat -> (i, j) <> (i0, j0) ->
     closer_than prec (nth i omega f_zero) (nth j omega f_zero) = false) ->
  S (length (kept omega prec)) = length omega.
Proof.
  intros Hij Hclose Hfar. unfold kept.
  transitivity (length (seq 0 (length omega))); [|apply length_seq].
  apply filter_drops_one with (k := j0).
  - apply seq_NoDup.
  - apply in_seq. lia.
  - intros j Hj. apply in_seq in Hj. f_equal.
    destruct (Nat.eqb_spec j j0) as [->|Hne].
    + unfold shadowed. apply existsb_exists. exists i0. split.
      * apply in_seq. lia.
      * rewrite Hclose. destruct (Nat.ltb_spec j0 i0); [reflexivity|lia].
    + destruct (shadowed omega prec j) eqn:Hs; [|reflexivity].
      unfold shadowed in Hs. apply existsb_exists in Hs as [i [Hi Hc]].
      apply in_seq in Hi. apply andb_prop in Hc as [Hji Hc].
      apply Nat.ltb_lt in Hji.
      rewrite Hfar in Hc; [discriminate|lia|].
      intros Heq. inversion Heq. contradiction.
Qed.

(** C5.  With exactly one pair of entries closer than [prec] the two
    returned columns have one entry fewer than the input; with no such
    pair they hold the entries of the input unchanged, one per row. *)
Theorem redundant_values_dedup (omega xi : list F) (prec : F) :
  length xi = length omega ->
  ((forall i j, (j < i < length omega)%nat ->
      closer_than prec (nth i omega f_zero) (nth j omega f_zero) = false) ->
   redundant_values omega xi prec
   = Ok (map (fun x => [x]) omega, map (fun x => [x]) xi))
  /\
  (forall i0 j0, (j0 < i0 < length omega)%nat ->
     closer_than prec (nth i0 omega f_zero) (nth j0 omega f_zero) = true ->
     (forall i j, (j < i < length omega)%nat -> (i, j) <> (i0, j0) ->
        closer_than prec (nth i omega f_zero) (nth j omega f_zero) = false) ->
     exists omega_mod xi_mod,
       redundant_values omega xi prec = Ok (omega_mod, xi_mod) /\
       S (length omega_mod) = length omega /\
       S (length xi_mod) = length xi).
Proof.
  intros Hlen. split.
  - intros Hfar. rewrite redundant_values_kept by exact Hlen.
    rewrite (kept_all _ _ Hfar).
    f_equal. f_equal.
    + apply map_singleton_nth_seq.
    + rewrite <- Hlen. apply map_singleton_nth_seq.
  - intros i0 j0 Hij Hclose Hfar.
    eexists. eexists. split; [apply redundant_values_kept; exact Hlen|].
    rewrite !length_map, Hlen.
    split; eapply kept_all_but_one; eauto.
Qed.

End Redundant.

(** ** Loops and matrices *)

Lemma for_each_app {X St} (body : X -> St -> result St) (xs ys : list X)
  (s : St) :
  for_each (xs ++ ys) body s
  = (s' <- for_each xs body s ;; for_each ys body s').
Proof.
  revert s. induction xs as [|x xs IH]; intros s; simpl; [reflexivity|].
  destruct (body x s) as [s1|e]; simpl; [apply IH|reflexivity].
Qed.

(** An invariant indexed by the number of iterations done. *)
Lemma for_each_seq_invariant {St} (I : nat -> St -> Prop)
  (body : nat -> St -> result St) (len : nat) (s s' : St) :
  I 0%nat s ->
  (forall k t t', (k < len)%nat -> I k t -> body k t = Ok t' -> I (S k) t') ->
  for_each (seq 0 len) body s = Ok s' ->
  I len s'.
Proof.
  revert s'. induction len as [|len IH]; intros s' H0 Hstep Hrun.
  - simpl in Hrun. inversion Hrun; subst. exact H0.
  - rewrite seq_S, for_each_app in Hrun. simpl in Hrun.
    destruct (for_each (seq 0 len) body s) as [t|e] eqn:Ht;
      simpl in Hrun; [|discriminate].
    destruct (body len t) as [t'|e] eqn:Hb; simpl in Hrun; [|discriminate].
    inversion Hrun; subst.
    apply (Hstep len t); [lia| |exact Hb].
    apply IH; [exact H0| |reflexivity].
    intros k u u' Hk. apply Hstep. lia.
Qed.

Lemma length_set_nth {X} (i : nat) (v : X) (l : list X) :
  length (set_nth i v l) = length l.
Proof.
  revert i. induction l as [|x l IH]; intros [|i]; simpl; auto.
Qed.

Lemma nth_set_nth {X} (d : X) (i j : nat) (v : X) (l : list X) :
  nth j (set_nth i v l) d
  = if (j =? i)%nat && (i <? length l)%nat then v else nth j l d.
Proof.
  revert i j. induction l as [|x l IH]; intros i j.
  - simpl. rewrite andb_false_r. destruct i; reflexivity.
  - destruct i as [|i]; destruct j as [|j]; simpl; try reflexivity.
    rewrite IH. reflexivity.
Qed.

(** The entry [m[i, j]]. *)
Definition cell {X} (d : X) (i j : nat) (m : list (list X)) : X :=
  nth j (nth i m []) d.

(** [m] has [rows] rows of [cols] entries. *)
Definition shape {X} (rows cols : nat) (m : list (list X)) : Prop :=
  length m = rows /\
  forall i, (i < rows)%nat -> length (nth i m []) = cols.

Lemma shape_zeros {X} (z : X) (rows cols : nat) :
  shape rows cols (zeros z rows cols).
Proof.
  unfold shape, zeros. split; [apply repeat_length|].
  intros i Hi. rewrite nth_repeat_lt by exact Hi. apply repeat_length.
Qed.

Lemma cell_zeros {X} (z : X) (rows cols i j : nat) :
  cell z i j (zeros z rows cols) = z.
Proof.
  unfold cell, zeros.
  destruct (Nat.lt_ge_cases i rows) as [Hi|Hi].
  - rewrite nth_repeat_lt by exact Hi.
    destruct (Nat.lt_ge_cases j cols) as [Hj|Hj].
    + apply nth_repeat_lt. exact Hj.
    + apply nth_overflow. rewrite repeat_length. exact Hj.
  - rewrite (nth_overflow _ []) by (rewrite repeat_length; exact Hi).
    destruct j; reflexivity.
Qed.

Lemma shape_set_cell {X} (rows cols i j : nat) (v : X) (m : list (list X)) :
  shape rows cols m -> shape rows cols (set_cell i j v m).
Proof.
  intros [Hlen Hrow]. unfold shape, set_cell.
  rewrite length_set_nth. split; [exact Hlen|].
  intros k Hk. rewrite nth_set_nth.
  destruct ((k =? i)%nat && (i <? length m)%nat) eqn:E.
  - apply andb_prop in E as [E _]. apply Nat.eqb_eq in E. subst k.
    rewrite length_set_nth. apply Hrow. exact Hk.
  - apply Hrow. exact Hk.
Qed.

Lemma cell_set_cell {X} (d : X) (rows cols i j i' j' : nat) (v : X)
  (m : list (list X)) :
  shape rows cols m -> (i' < rows)%nat -> (j' < cols)%nat ->
  cell d i j (set_cell i' j' v m)
  = if (i =? i')%nat && (j =? j')%nat then v else cell d i j m.
Proof.
  intros [Hlen Hrow] Hi Hj. unfold cell, set_cell.
  rewrite nth_set_nth. rewrite Hlen.
  destruct (Nat.ltb_spec i' rows) as [_|]; [|lia].
  rewrite andb_true_r.
  destruct (Nat.eqb_spec i i') as [->|Hne]; simpl; [|reflexivity].
  rewrite nth_set_nth. rewrite (Hrow i' Hi).
  destruct (Nat.ltb_spec j' cols) as [_|]; [|lia].
  rewrite andb_true_r. reflexivity.
Qed.

Lemma column_cells {X} (d : X) (j : nat) (m : list (list X)) :
  column d j m = map (fun i => cell d i j m) (seq 0 (length m)).
Proof.
  unfold column, cell.
  rewrite <- (map_map (fun i => nth i m []) (fun row => nth j row d)).
  rewrite map_nth_seq. reflexivity.
Qed.

Lemma column_ext {X} (d : X) (j : nat) (m m' : list (list X)) :
  length m = length m' ->
  (forall i, cell d i j m = cell d i j m') ->
  column d j m = column d j m'.
Proof.
  intros Hlen Hcell. rewrite !column_cells, Hlen.
  apply map_ext. exact Hcell.
Qed.

(** ** [stabilisation] *)

Section Stabilisation.

Context {Sc : Scalar}.

Variable sr : list (list complex).
Variable nmax : nat.
Variables err_fn err_xi : F.

(** The deduplicated frequencies and dampings of order index [n], as the
    loop body computes them. *)
Definition order_values (n : nat) : result (list (list F) * list (list F)) :=
  poles <- from_option IndexError (nth_error sr n) ;;
  redundant_values (fst (complex_freq_to_freq_and_damp poles))
                   (snd (complex_freq_to_freq_and_damp poles)) f_1em3.

Lemma stab_order_eq (n : nat) (st : stab_matrices) :
  stab_order sr nmax err_fn err_xi n st
  = ('(fn, xi) <- order_values n ;;
     if (n =? 1)%nat then
       ft <- assign_first_column (length fn) fn (fn_temp st) ;;
       xt <- assign_first_column (length fn) xi (xi_temp st) ;;
       Ok {| fn_temp := ft; xi_temp := xt;
             test_fn := test_fn st; test_xi := test_xi st |}
     else
       _ <- py_index nmax (Z.of_nat n - 1) ;;
       for_each (seq 0 (length fn))
                (stab_cell nmax n err_fn err_xi fn xi) st).
Proof.
  unfold stab_order, order_values.
  destruct (nth_error sr n) as [poles|]; simpl; [|reflexivity].
  destruct (complex_freq_to_freq_and_damp poles) as [fn0 xi0]. reflexivity.
Qed.

(** The column that order index [n] writes: [n - 1] as a Python index. *)
Definition written (n : nat) : nat :=
  if (n =? 0)%nat then (nmax - 1)%nat else (n - 1)%nat.

(** The column that order index [n] reads: [n - 2] as a Python index. *)
Definition compared (n : nat) : nat :=
  if (n <? 2)%nat then (nmax + n - 2)%nat else (n - 2)%nat.

Lemma py_index_written (n : nat) :
  (n < nmax)%nat -> py_index nmax (Z.of_nat n - 1) = Ok (written n).
Proof.
  intros Hn. unfold py_index, written.
  destruct n as [|n].
  - replace (Z.of_nat 0 - 1)%Z with (-1)%Z by lia.
    destruct (Z.leb_spec 0 (-1)); [lia|]. cbn [andb].
    destruct (Z.leb_spec (- Z.of_nat nmax) (-1)); [|lia].
    cbn [andb Z.ltb Z.compare Nat.eqb]. f_equal. lia.
  - destruct (Z.leb_spec 0 (Z.of_nat (S n) - 1)); [|lia].
    destruct (Z.ltb_spec (Z.of_nat (S n) - 1) (Z.of_nat nmax)); [|lia].
    cbn [andb Nat.eqb]. f_equal. lia.
Qed.

Lemma py_index_compared (n c : nat) :
  (n < nmax)%nat -> n <> 1%nat ->
  py_index nmax (Z.of_nat n - 2) = Ok c ->
  c = compared n /\ (c < nmax)%nat /\ c <> written n.
Proof.
  intros Hn Hn1. unfold py_index, compared, written.
  destruct (Z.leb_spec 0 (Z.of_nat n - 2));
    destruct (Z.ltb_spec (Z.of_nat n - 2) (Z.of_nat nmax)); cbn [andb];
    try lia.
  - intros E. inversion E; subst.
    destruct (Nat.ltb_spec n 2); destruct (Nat.eqb_spec n 0); lia.
  - destruct (Z.leb_spec (- Z.of_nat nmax) (Z.of_nat n - 2));
      destruct (Z.ltb_spec (Z.of_nat n - 2) 0); cbn [andb];
      try discriminate; try lia.
    intros E. inversion E; subst.
    destruct (Nat.ltb_spec n 2); destruct (Nat.eqb_spec n 0); lia.
Qed.

Lemma py_index_row (rows i r : nat) :
  py_index rows (Z.of_nat i) = Ok r -> r = i /\ (i < rows)%nat.
Proof.
  unfold py_index.
  destruct (Z.leb_spec 0 (Z.of_nat i)); [|lia].
  destruct (Z.ltb_spec (Z.of_nat i) (Z.of_nat rows)); cbn [andb].
  - intros E. inversion E. lia.
  - destruct (Z.leb_spec (- Z.of_nat rows) (Z.of_nat i));
      destruct (Z.ltb_spec (Z.of_nat i) 0); cbn [andb];
      try discriminate; lia.
Qed.

Lemma written_injective (n m : nat) :
  (n < nmax)%nat -> (m < nmax)%nat -> written n = written m -> n = m.
Proof.
  unfold written. intros Hn Hm.
  destruct (Nat.eqb_spec n 0); destruct (Nat.eqb_spec m 0); lia.
Qed.

(** All four matrices keep the shape [np.zeros] gave them. *)
Definition stab_shape (st : stab_matrices) : Prop :=
  shape (2 * nmax) nmax (fn_temp st) /\ shape (2 * nmax) nmax (xi_temp st) /\
  shape (2 * nmax) nmax (test_fn st) /\ shape (2 * nmax) nmax (test_xi st).

(** [np.sum(test[i, :2*n])] for the comparison of [x] with a column. *)
Definition count_within (err : F) (n : nat) (x : F) (col : list F) : Z :=
  sum_Z (firstn (2 * n) (mark (map (within err x) col))).

(** What the inner loop has done to a matrix after [k] rows: the written
    column holds [new i] in rows below [k], everything else is as in
    [old]. *)
Definition rows_written {X} (d : X) (c k : nat) (new : nat -> X)
  (old cur : list (list X)) : Prop :=
  forall i j, cell d i j cur
              = if (j =? c)%nat && (i <? k)%nat then new i
                else cell d i j old.

Lemma rows_written_start {X} (d : X) (c : nat) (new : nat -> X)
  (m : list (list X)) : rows_written d c 0 new m m.
Proof.
  intros i j. rewrite andb_false_r. reflexivity.
Qed.

Lemma rows_written_step {X} (d : X) (c k : nat) (new : nat -> X)
  (old cur : list (list X)) :
  shape (2 * nmax) nmax cur -> (k < 2 * nmax)%nat -> (c < nmax)%nat ->
  rows_written d c k new old cur ->
  rows_written d c (S k) new old (set_cell k c (new k) cur).
Proof.
  intros Hsh Hk Hc Hw i j.
  rewrite (cell_set_cell d i j (new k) Hsh Hk Hc), Hw.
  destruct (Nat.eqb_spec i k) as [->|Hik];
    destruct (Nat.eqb_spec j c) as [->|Hjc]; cbn [andb].
  - destruct (Nat.ltb_spec k (S k)); [reflexivity|lia].
  - reflexivity.
  - destruct (Nat.ltb_spec i k); destruct (Nat.ltb_spec i (S k));
      try reflexivity; lia.
  - reflexivity.
Qed.

Lemma rows_written_column {X} (d : X) (c k j : nat) (new : nat -> X)
  (old cur : list (list X)) :
  length cur = length old -> j <> c ->
  rows_written d c k new old cur ->
  column d j cur = column d j old.
Proof.
  intros Hlen Hj Hw. apply column_ext; [exact Hlen|].
  intros i. rewrite Hw.
  destruct (Nat.eqb_spec j c); [contradiction|reflexivity].
Qed.

(** The inner loop of the comparison branch, run from [old]. *)
Lemma stab_cells_run (n : nat) (fn xi : list (list F))
  (old cur : stab_matrices) (k : nat) :
  stab_shape old -> (n < nmax)%nat -> n <> 1%nat ->
  for_each (seq 0 k) (stab_cell nmax n err_fn err_xi fn xi) old = Ok cur ->
  stab_shape cur /\ (k <= 2 * nmax)%nat /\
  rows_written f_zero (written n) k (fun i => item (nth i fn []))
               (fn_temp old) (fn_temp cur) /\
  rows_written f_zero (written n) k (fun i => item (nth i xi []))
               (xi_temp old) (xi_temp cur) /\
  rows_written 0%Z (written n) k
    (fun i => count_within err_fn n (item (nth i fn []))
                (column f_zero (compared n) (fn_temp old)))
    (test_fn old) (test_fn cur) /\
  rows_written 0%Z (written n) k
    (fun i => count_within err_xi n (item (nth i xi []))
                (column f_zero (compared n) (xi_temp old)))
    (test_xi old) (test_xi cur).
Proof.
  intros Hold Hn Hn1.
  apply (for_each_seq_invariant
    (fun k cur =>
       stab_shape cur /\ (k <= 2 * nmax)%nat /\
       rows_written f_zero (written n) k (fun i => item (nth i fn []))
                    (fn_temp old) (fn_temp cur) /\
       rows_written f_zero (written n) k (fun i => item (nth i xi []))
                    (xi_temp old) (xi_temp cur) /\
       rows_written 0%Z (written n) k
         (fun i => count_within err_fn n (item (nth i fn []))
                     (column f_zero (compared n) (fn_temp old)))
         (test_fn old) (test_fn cur) /\
       rows_written 0%Z (written n) k
         (fun i => count_within err_xi n (item (nth i xi []))
                     (column f_zero (compared n) (xi_temp old)))
         (test_xi old) (test_xi cur))).
  - split; [exact Hold|]. split; [lia|].
    split; [|split; [|split]]; apply rows_written_start.
  - intros q t t' _ [Hsh [Hq [Hf [Hx [Htf Htx]]]]] Hbody.
    unfold stab_cell in Hbody.
    destruct (py_index nmax (Z.of_nat n - 2)) as [c2|] eqn:Hc2;
      cbn [bind] in Hbody; [|discriminate].
    rewrite (py_index_written Hn) in Hbody. cbn [bind] in Hbody.
    destruct (py_index (length (fn_temp t)) (Z.of_nat q)) as [r|] eqn:Hr;
      cbn [bind] in Hbody; [|discriminate].
    inversion Hbody; subst t'; clear Hbody.
    destruct Hsh as [Sf [Sx [Stf Stx]]].
    destruct (py_index_row _ _ Hr) as [-> Hrow].
    rewrite (proj1 Sf) in Hrow.
    destruct (py_index_compared Hn Hn1 Hc2) as [-> [Hc2lt Hne]].
    assert (Hw : (written n < nmax)%nat)
      by (unfold written; destruct (Nat.eqb_spec n 0); lia).
    assert (Hcf : column f_zero (compared n) (fn_temp t)
                  = column f_zero (compared n) (fn_temp old)).
    { eapply rows_written_column; [|exact Hne|exact Hf].
      destruct Hold as [[Lo _] _]. rewrite (proj1 Sf), Lo. reflexivity. }
    assert (Hcx : column f_zero (compared n) (xi_temp t)
                  = column f_zero (compared n) (xi_temp old)).
    { eapply rows_written_column; [|exact Hne|exact Hx].
      destruct Hold as [_ [[Lo _] _]]. rewrite (proj1 Sx), Lo. reflexivity. }
    rewrite Hcf, Hcx.
    unfold stab_shape. cbn [fn_temp xi_temp test_fn test_xi].
    split.
    { split; [|split; [|split]]; apply shape_set_cell; assumption. }
    split; [lia|].
    split.
    { exact (@rows_written_step _ f_zero (written n) q
               (fun i => item (nth i fn [])) _ _ Sf Hrow Hw Hf). }
    split.
    { exact (@rows_written_step _ f_zero (written n) q
               (fun i => item (nth i xi [])) _ _ Sx Hrow Hw Hx). }
    split.
    { exact (@rows_written_step _ 0%Z (written n) q
               (fun i => count_within err_fn n (item (nth i fn []))
                           (column f_zero (compared n) (fn_temp old)))
               _ _ Stf Hrow Hw Htf). }
    exact (@rows_written_step _ 0%Z (written n) q
             (fun i => count_within err_xi n (item (nth i xi []))
                         (column f_zero (compared n) (xi_temp old)))
             _ _ Stx Hrow Hw Htx).
Qed.

Lemma rows_written_ext {X} (d : X) (c k : nat) (new new' : nat -> X)
  (old cur : list (list X)) :
  (forall i, (i < k)%nat -> new i = new' i) ->
  rows_written d c k new old cur -> rows_written d c k new' old cur.
Proof.
  intros Hext Hw i j. rewrite Hw.
  destruct (Nat.eqb_spec j c); cbn [andb]; [|reflexivity].
  destruct (Nat.ltb_spec i k); [apply Hext; assumption|reflexivity].
Qed.

Lemma rows_written_same {X} (d : X) (c k : nat) (new : nat -> X)
  (m : list (list X)) :
  (forall i, (i < k)%nat -> cell d i c m = new i) ->
  rows_written d c k new m m.
Proof.
  intros H i j.
  destruct (Nat.eqb_spec j c) as [->|]; cbn [andb]; [|reflexivity].
  destruct (Nat.ltb_spec i k); [apply H; assumption|reflexivity].
Qed.

(** The slice assignment of the first-step branch. *)
Lemma fold_first_column (new : nat -> F) (m : list (list F)) (rows : nat) :
  shape (2 * nmax) nmax m -> (1 <= nmax)%nat -> (rows <= 2 * nmax)%nat ->
  shape (2 * nmax) nmax
    (fold_left (fun acc i => set_cell i 0 (new i) acc) (seq 0 rows) m) /\
  rows_written f_zero 0 rows new m
    (fold_left (fun acc i => set_cell i 0 (new i) acc) (seq 0 rows) m).
Proof.
  intros Hsh Hc. induction rows as [|rows IH]; intros Hr.
  - simpl. split; [exact Hsh|apply rows_written_start].
  - destruct IH as [Hs Hw]; [lia|].
    rewrite seq_S, fold_left_app. cbn [fold_left Nat.add].
    split; [apply shape_set_cell; exact Hs|].
    exact (@rows_written_step _ f_zero 0%nat rows new _ _ Hs Hr Hc Hw).
Qed.

Lemma assign_first_column_cells (v m m' : list (list F)) :
  shape (2 * nmax) nmax m -> (1 <= nmax)%nat ->
  assign_first_column (length v) v m = Ok m' ->
  (length v <= 2 * nmax)%nat /\ shape (2 * nmax) nmax m' /\
  rows_written f_zero 0 (length v) (fun i => item (nth i v [])) m m'.
Proof.
  intros Hsh Hc. unfold assign_first_column. rewrite (proj1 Hsh).
  destruct (Nat.eqb_spec (length v) (Nat.min (length v) (2 * nmax)))
    as [E|E].
  - rewrite <- E. intros H. injection H as <-.
    assert (Hle : (length v <= 2 * nmax)%nat) by lia.
    split; [exact Hle|].
    apply fold_first_column; assumption.
  - destruct (Nat.eqb_spec (length v) 1) as [E1|E1]; [|discriminate].
    exfalso. apply E. rewrite E1. lia.
Qed.

Lemma map_result_length {X Y} (f : X -> result Y) (xs : list X)
  (ys : list Y) :
  map_result f xs = Ok ys -> length ys = length xs.
Proof.
  revert ys. induction xs as [|x xs IH]; intros ys; simpl.
  - intros H. inversion H. reflexivity.
  - destruct (f x); simpl; [|discriminate].
    destruct (map_result f xs) as [zs|]; simpl; [|discriminate].
    intros H. inversion H. simpl. f_equal. apply IH. reflexivity.
Qed.

Lemma redundant_values_lengths (omega xi : list F) (prec : F)
  (om xm : list (list F)) :
  redundant_values omega xi prec = Ok (om, xm) ->
  length xm = length om /\ (length om <= length omega)%nat.
Proof.
  unfold redundant_values.
  destruct (take omega _) as [a|] eqn:Ha; simpl; [|discriminate].
  destruct (take xi _) as [b|] eqn:Hb; simpl; [|discriminate].
  intros H. inversion H; subst.
  apply map_result_length in Ha, Hb. rewrite Ha, Hb.
  split; [reflexivity|].
  unfold argwhere_lt_1. rewrite length_map.
  etransitivity; [apply filter_length_le|].
  rewrite length_seq. unfold sum_axis0. rewrite length_map, length_seq.
  reflexivity.
Qed.

(** What order index [n] leaves in the column it writes. *)
Definition order_column (st : stab_matrices) (n : nat) : Prop :=
  exists fn xi,
    order_values n = Ok (fn, xi) /\
    (length fn <= 2 * nmax)%nat /\ length xi = length fn /\
    forall i,
      cell f_zero i (written n) (fn_temp st)
        = (if (i <? length fn)%nat then item (nth i fn []) else f_zero) /\
      cell f_zero i (written n) (xi_temp st)
        = (if (i <? length fn)%nat then item (nth i xi []) else f_zero) /\
      cell 0%Z i (written n) (test_fn st)
        = (if (2 <=? n)%nat && (i <? length fn)%nat
           then count_within err_fn n (item (nth i fn []))
                  (column f_zero (n - 2) (fn_temp st))
           else 0%Z) /\
      cell 0%Z i (written n) (test_xi st)
        = (if (2 <=? n)%nat && (i <? length fn)%nat
           then count_within err_xi n (item (nth i xi []))
                  (column f_zero (n - 2) (xi_temp st))
           else 0%Z).

(** The column of an order index not reached yet is as [np.zeros] left it. *)
Definition untouched (st : stab_matrices) (n : nat) : Prop :=
  forall i,
    cell f_zero i (written n) (fn_temp st) = f_zero /\
    cell f_zero i (written n) (xi_temp st) = f_zero /\
    cell 0%Z i (written n) (test_fn st) = 0%Z /\
    cell 0%Z i (written n) (test_xi st) = 0%Z.

Definition stab_invariant (m : nat) (st : stab_matrices) : Prop :=
  stab_shape st /\
  (forall n, (n < m)%nat -> order_column st n) /\
  (forall n, (m <= n)%nat -> (n < nmax)%nat -> untouched st n).

Lemma count_within_0 (err x : F) (col : list F) :
  count_within err 0 x col = 0%Z.
Proof. reflexivity. Qed.

(** One pass of the outer loop, both branches at once. *)
Lemma stab_order_effect (m : nat) (st st' : stab_matrices) :
  (m < nmax)%nat -> stab_shape st -> untouched st m ->
  stab_order sr nmax err_fn err_xi m st = Ok st' ->
  exists fn xi,
    order_values m = Ok (fn, xi) /\
    (length fn <= 2 * nmax)%nat /\ length xi = length fn /\
    stab_shape st' /\
    rows_written f_zero (written m) (length fn)
      (fun i => item (nth i fn [])) (fn_temp st) (fn_temp st') /\
    rows_written f_zero (written m) (length fn)
      (fun i => item (nth i xi [])) (xi_temp st) (xi_temp st') /\
    rows_written 0%Z (written m) (length fn)
      (fun i => if (2 <=? m)%nat
                then count_within err_fn m (item (nth i fn []))
                       (column f_zero (m - 2) (fn_temp st))
                else 0%Z)
      (test_fn st) (test_fn st') /\
    rows_written 0%Z (written m) (length fn)
      (fun i => if (2 <=? m)%nat
                then count_within err_xi m (item (nth i xi []))
                       (column f_zero (m - 2) (xi_temp st))
                else 0%Z)
      (test_xi st) (test_xi st').
Proof.
  intros Hm Hsh Hun. rewrite stab_order_eq.
  destruct (order_values m) as [[fn xi]|] eqn:Hov; cbn [bind];
    [|discriminate].
  assert (Hlen : length xi = length fn).
  { unfold order_values in Hov.
    destruct (nth_error sr m); cbn [from_option bind] in Hov;
      [|discriminate].
    apply redundant_values_lengths in Hov. apply Hov. }
  destruct (Nat.eqb_spec m 1) as [->|Hm1].
  - destruct Hsh as [Sf [Sx [Stf Stx]]].
    destruct (assign_first_column (length fn) fn (fn_temp st)) as [ft|]
      eqn:Hft; cbn [bind]; [|discriminate].
    destruct (assign_first_column (length fn) xi (xi_temp st)) as [xt|]
      eqn:Hxt; cbn [bind]; [|discriminate].
    intros H. inversion H; subst st'; clear H.
    rewrite <- Hlen in Hxt.
    apply assign_first_column_cells in Hft as [Hle [Sft Wf]];
      [|exact Sf|lia].
    apply assign_first_column_cells in Hxt as [_ [Sxt Wx]];
      [|exact Sx|lia].
    rewrite Hlen in Wx.
    exists fn, xi. cbn [fn_temp xi_temp test_fn test_xi].
    split; [reflexivity|]. split; [exact Hle|]. split; [exact Hlen|].
    split; [repeat split; first [apply Sft|apply Sxt|apply Stf|apply Stx]|].
    change (written 1) with 0%nat.
    split; [exact Wf|]. split; [exact Wx|].
    split; apply rows_written_same; intros i _;
      destruct (Hun i) as [_ [_ [H1 H2]]]; assumption.
  - destruct (py_index nmax (Z.of_nat m - 1)) as [c1|] eqn:Hc1;
      cbn [bind]; [|discriminate].
    intros Hrun.
    destruct (@stab_cells_run m fn xi st st' (length fn) Hsh Hm Hm1 Hrun)
      as [Hsh' [Hle [Wf [Wx [Wtf Wtx]]]]].
    exists fn, xi.
    split; [reflexivity|]. split; [exact Hle|]. split; [exact Hlen|].
    split; [exact Hsh'|]. split; [exact Wf|]. split; [exact Wx|].
    assert (Hcmp : (2 <= m)%nat -> compared m = (m - 2)%nat).
    { intros H2. unfold compared.
      destruct (Nat.ltb_spec m 2); [lia|reflexivity]. }
    split; (eapply rows_written_ext; [|eassumption]); intros i _; cbv beta;
      (destruct (Nat.leb_spec 2 m) as [H2|H2];
       [rewrite (Hcmp H2); reflexivity|]);
      (replace m with 0%nat by lia); apply count_within_0.
Qed.

Lemma written_lt (n : nat) : (n < nmax)%nat -> (written n < nmax)%nat.
Proof.
  unfold written. intros Hn. destruct (Nat.eqb_spec n 0); lia.
Qed.

Lemma stab_shape_length (st st' : stab_matrices) :
  stab_shape st -> stab_shape st' ->
  length (fn_temp st') = length (fn_temp st) /\
  length (xi_temp st') = length (xi_temp st).
Proof.
  intros [[A _] [[B _] _]] [[A' _] [[B' _] _]].
  rewrite A, A', B, B'. split; reflexivity.
Qed.

Lemma stab_invariant_step (m : nat) (st st' : stab_matrices) :
  (m < nmax)%nat -> stab_invariant m st ->
  stab_order sr nmax err_fn err_xi m st = Ok st' ->
  stab_invariant (S m) st'.
Proof.
  intros Hm [Hsh [Hdone Hnew]] Hrun.
  destruct (@stab_order_effect m st st' Hm Hsh (Hnew m (le_n m) Hm) Hrun)
    as [fn [xi [Hov [Hle [Hlen [Hsh' [Wf [Wx [Wtf Wtx]]]]]]]]].
  destruct (stab_shape_length Hsh Hsh') as [Lf Lx].
  assert (Hcolf : forall j, j <> written m ->
            column f_zero j (fn_temp st') = column f_zero j (fn_temp st))
    by (intros j Hj; eapply rows_written_column; eassumption).
  assert (Hcolx : forall j, j <> written m ->
            column f_zero j (xi_temp st') = column f_zero j (xi_temp st))
    by (intros j Hj; eapply rows_written_column; eassumption).
  split; [exact Hsh'|]. split.
  - intros n Hn.
    destruct (Nat.eq_dec n m) as [->|Hnm].
    + exists fn, xi.
      split; [exact Hov|]. split; [exact Hle|]. split; [exact Hlen|].
      intros i. destruct (Hnew m (le_n m) Hm i) as [Z1 [Z2 [Z3 Z4]]].
      rewrite (Wf i), (Wx i), (Wtf i), (Wtx i), Nat.eqb_refl. cbn [andb].
      rewrite Z1, Z2, Z3, Z4.
      destruct (Nat.leb_spec 2 m) as [H2|H2]; cbn [andb].
      * assert (Hj : (m - 2)%nat <> written m)
          by (unfold written; destruct (Nat.eqb_spec m 0); lia).
        rewrite (Hcolf _ Hj), (Hcolx _ Hj).
        repeat split; reflexivity.
      * repeat split; try reflexivity;
          destruct (i <? length fn)%nat; reflexivity.
    + assert (Hlt : (n < m)%nat) by lia.
      destruct (Hdone n Hlt) as [fn' [xi' [Hov' [Hle' [Hlen' Hcells]]]]].
      exists fn', xi'.
      split; [exact Hov'|]. split; [exact Hle'|]. split; [exact Hlen'|].
      intros i.
      assert (Hw : written n <> written m).
      { intros E. apply Hnm. apply written_injective; [lia|exact Hm|exact E]. }
      rewrite (Wf i), (Wx i), (Wtf i), (Wtx i).
      destruct (Nat.eqb_spec (written n) (written m)); [contradiction|].
      cbn [andb].
      destruct (Hcells i) as [C1 [C2 [C3 C4]]].
      rewrite C1, C2, C3, C4.
      destruct (Nat.leb_spec 2 n) as [H2|H2]; cbn [andb].
      * assert (Hj : (n - 2)%nat <> written m)
          by (unfold written; destruct (Nat.eqb_spec m 0); lia).
        rewrite (Hcolf _ Hj), (Hcolx _ Hj).
        repeat split; reflexivity.
      * repeat split; reflexivity.
  - intros n Hn Hn' i.
    assert (Hw : written n <> written m).
    { intros E. apply written_injective in E; lia. }
    rewrite (Wf i), (Wx i), (Wtf i), (Wtx i).
    destruct (Nat.eqb_spec (written n) (written m)); [contradiction|].
    cbn [andb]. apply Hnew; lia.
Qed.

Lemma stab_invariant_init : stab_invariant 0 (stab_init nmax).
Proof.
  split; [|split].
  - unfold stab_shape, stab_init. cbn [fn_temp xi_temp test_fn test_xi].
    split; [|split; [|split]]; apply shape_zeros.
  - intros n Hn. lia.
  - intros n _ _ i. unfold stab_init. cbn [fn_temp xi_temp test_fn test_xi].
    rewrite !cell_zeros. repeat split; reflexivity.
Qed.

(** Every column of the returned matrices, order by order. *)
Lemma stabilisation_columns (st : stab_matrices) :
  stabilisation sr nmax err_fn err_xi = Ok st ->
  stab_shape st /\ forall n, (n < nmax)%nat -> order_column st n.
Proof.
  intros Hrun. unfold stabilisation in Hrun.
  apply (for_each_seq_invariant stab_invariant) in Hrun.
  - destruct Hrun as [Hsh [Hdone _]]. split; assumption.
  - apply stab_invariant_init.
  - intros k t t' Hk Hinv Hbody. eapply stab_invariant_step; eassumption.
Qed.

Lemma map_prefix_pad {X} (g : nat -> X) (z : X) (k rows : nat) :
  (k <= rows)%nat ->
  map (fun i => if (i <? k)%nat then g i else z) (seq 0 rows)
  = map g (seq 0 k) ++ repeat z (rows - k).
Proof.
  intros Hk.
  replace rows with (k + (rows - k))%nat at 1 by lia.
  rewrite seq_app, map_app. f_equal.
  - apply map_ext_in. intros i Hi. apply in_seq in Hi.
    destruct (Nat.ltb_spec i k); [reflexivity|lia].
  - cbn [Nat.add]. generalize (rows - k)%nat as len. intros len.
    transitivity (map (fun _ : nat => z) (seq k len)).
    + apply map_ext_in. intros i Hi. apply in_seq in Hi.
      destruct (Nat.ltb_spec i k); [lia|reflexivity].
    + rewrite map_const, length_seq. reflexivity.
Qed.

Lemma column_of_cells {X} (d : X) (j rows cols k : nat) (g : nat -> X)
  (z : X) (m : list (list X)) :
  shape rows cols m -> (k <= rows)%nat ->
  (forall i, cell d i j m = if (i <? k)%nat then g i else z) ->
  column d j m = map g (seq 0 k) ++ repeat z (rows - k).
Proof.
  intros [Hlen _] Hk Hcell.
  rewrite column_cells, Hlen, <- map_prefix_pad by exact Hk.
  apply map_ext. exact Hcell.
Qed.

Lemma map_item_seq (v : list (list F)) :
  map (fun i => item (nth i v [])) (seq 0 (length v)) = map item v.
Proof.
  rewrite <- (map_map (fun i => nth i v []) item), map_nth_seq. reflexivity.
Qed.

(** C9.  The first pass of the loop has [n = 0]; it is not the first-step
    branch (that one needs [n == 1]) but the comparison branch, whose
    column index [n - 1 = -1] is the last column.  No later pass writes
    that column, so in the returned matrices the last column of [fn_temp]
    and [xi_temp] holds the deduplicated values of the lowest order,
    padded with zeros, and the last column of [test_fn] and [test_xi] is
    zero. *)
Theorem stabilisation_last_column_is_lowest_order (st : stab_matrices) :
  (1 <= nmax)%nat ->
  stabilisation sr nmax err_fn err_xi = Ok st ->
  (forall s0, stab_order sr nmax err_fn err_xi 0 s0
     = ('(fn, xi) <- order_values 0 ;;
        _ <- py_index nmax (-1) ;;
        for_each (seq 0 (length fn))
                 (stab_cell nmax 0 err_fn err_xi fn xi) s0)) /\
  py_index nmax (-1) = Ok (nmax - 1)%nat /\
  exists fn xi,
    order_values 0 = Ok (fn, xi) /\
    (length fn <= 2 * nmax)%nat /\ length xi = length fn /\
    column f_zero (nmax - 1) (fn_temp st)
      = map item fn ++ repeat f_zero (2 * nmax - length fn) /\
    column f_zero (nmax - 1) (xi_temp st)
      = map item xi ++ repeat f_zero (2 * nmax - length fn) /\
    column 0%Z (nmax - 1) (test_fn st) = repeat 0%Z (2 * nmax) /\
    column 0%Z (nmax - 1) (test_xi st) = repeat 0%Z (2 * nmax).
Proof.
  intros Hn Hrun.
  split; [intros s0; apply stab_order_eq|].
  split; [apply (@py_index_written 0%nat); lia|].
  destruct (stabilisation_columns Hrun) as [[Sf [Sx [Stf Stx]]] Hcols].
  destruct (Hcols 0%nat) as [fn [xi [Hov [Hle [Hlen Hcells]]]]]; [lia|].
  change (written 0) with (nmax - 1)%nat in Hcells.
  exists fn, xi.
  split; [exact Hov|]. split; [exact Hle|]. split; [exact Hlen|].
  split; [|split; [|split]].
  - rewrite <- map_item_seq.
    eapply column_of_cells; [exact Sf|exact Hle|].
    intros i. apply Hcells.
  - rewrite <- map_item_seq, <- Hlen.
    eapply column_of_cells; [exact Sx|lia|].
    intros i. rewrite Hlen. apply Hcells.
  - rewrite <- (Nat.sub_0_r (2 * nmax)).
    change (repeat 0%Z (2 * nmax - 0))
      with (map (fun _ : nat => 0%Z) (seq 0 0) ++ repeat 0%Z (2 * nmax - 0)).
    eapply column_of_cells; [exact Stf|lia|].
    intros i. cbn [Nat.ltb Nat.leb]. apply Hcells.
  - rewrite <- (Nat.sub_0_r (2 * nmax)).
    change (repeat 0%Z (2 * nmax - 0))
      with (map (fun _ : nat => 0%Z) (seq 0 0) ++ repeat 0%Z (2 * nmax - 0)).
    eapply column_of_cells; [exact Stx|lia|].
    intros i. cbn [Nat.ltb Nat.leb].
    destruct (Hcells i) as [_ [_ [_ H]]]. exact H.
Qed.

Lemma mark_map (w : F -> bool) (col : list F) :
  mark (map w col) = map (fun c => if w c then 1%Z else 0%Z) col.
Proof. unfold mark. apply map_map. Qed.

Lemma in_firstn_nth {X} (d : X) (k : nat) (l : list X) (x : X) :
  In x (firstn k l) <->
  exists r, (r < k)%nat /\ (r < length l)%nat /\ nth r l d = x.
Proof.
  revert k. induction l as [|y l IH]; intros k.
  - rewrite firstn_nil. split; [intros []|].
    intros [r [_ [Hr _]]]. simpl in Hr. lia.
  - destruct k as [|k]; simpl.
    + split; [intros []|]. intros [r [Hr _]]. lia.
    + rewrite IH. split.
      * intros [->|[r [Hr [Hl Hx]]]].
        -- exists 0%nat. repeat split; lia.
        -- exists (S r). repeat split; [lia|lia|exact Hx].
      * intros [[|r] [Hr [Hl Hx]]]; [left; exact Hx|].
        right. exists r. repeat split; [lia|lia|exact Hx].
Qed.

(** The count is positive exactly when one of the first [2 n] entries of
    the column matches. *)
Lemma count_within_pos (err : F) (n : nat) (x : F) (col : list F) :
  (0 < count_within err n x col)%Z <->
  exists r, (r < 2 * n)%nat /\ (r < length col)%nat /\
            within err x (nth r col f_zero) = true.
Proof.
  unfold count_within. rewrite mark_map, firstn_map, sum_indicator_pos.
  split.
  - intros [c [Hin Hw]].
    apply (in_firstn_nth f_zero) in Hin as [r [Hr [Hl Hx]]].
    exists r. rewrite Hx. repeat split; assumption.
  - intros [r [Hr [Hl Hw]]]. exists (nth r col f_zero).
    split; [|exact Hw].
    apply (in_firstn_nth f_zero). exists r. repeat split; assumption.
Qed.

Lemma count_within_zero (err : F) (n : nat) (x : F) (col : list F) :
  (forall r, (r < length col)%nat ->
             within err x (nth r col f_zero) = false) ->
  count_within err n x col = 0%Z.
Proof.
  intros Hno.
  assert (Hnn : (0 <= count_within err n x col)%Z).
  { unfold count_within. rewrite mark_map, firstn_map.
    apply sum_indicator_nonneg. }
  destruct (Z.eq_dec (count_within err n x col) 0) as [E|E]; [exact E|].
  assert (Hpos : (0 < count_within err n x col)%Z) by lia.
  apply count_within_pos in Hpos as [r [_ [Hl Hw]]].
  rewrite (Hno r Hl) in Hw. discriminate.
Qed.

Lemma order_values_length (n : nat) (poles : list complex)
  (fn xi : list (list F)) :
  nth_error sr n = Some poles -> order_values n = Ok (fn, xi) ->
  (length fn <= length poles)%nat.
Proof.
  intros Hp Hov. unfold order_values in Hov. rewrite Hp in Hov.
  cbn [from_option bind] in Hov.
  apply redundant_values_lengths in Hov as [_ Hle].
  unfold complex_freq_to_freq_and_damp in Hle. cbn [fst] in Hle.
  rewrite !length_map in Hle. exact Hle.
Qed.

Lemma order_values_poles (n : nat) (fn xi : list (list F)) :
  order_values n = Ok (fn, xi) -> exists poles, nth_error sr n = Some poles.
Proof.
  unfold order_values. destruct (nth_error sr n) as [poles|].
  - intros _. exists poles. reflexivity.
  - discriminate.
Qed.

(** IEEE arithmetic: dividing by a stored zero gives an infinity or a NaN,
    which no tolerance exceeds. *)
Definition zero_never_matches : Prop :=
  forall err x : F, within err x f_zero = false.

(** The stored column of an order, below its deduplicated values, is still
    the zero of [np.zeros]. *)
Lemma padding_is_zero (st : stab_matrices) (n r : nat)
  (poles : list complex) :
  stabilisation sr nmax err_fn err_xi = Ok st ->
  (2 <= n)%nat -> (n < nmax)%nat ->
  nth_error sr (n - 1) = Some poles -> (length poles <= r)%nat ->
  nth r (column f_zero (n - 2) (fn_temp st)) f_zero = f_zero /\
  nth r (column f_zero (n - 2) (xi_temp st)) f_zero = f_zero.
Proof.
  intros Hrun H2 Hn Hp Hr.
  destruct (stabilisation_columns Hrun) as [[Sf [Sx _]] Hcols].
  destruct (Hcols (n - 1)%nat) as [fn [xi [Hov [_ [_ Hcells]]]]]; [lia|].
  pose proof (order_values_length _ Hp Hov) as Hle.
  replace (written (n - 1)) with (n - 2)%nat in Hcells
    by (unfold written; destruct (Nat.eqb_spec (n - 1) 0); lia).
  rewrite !column_cells, (proj1 Sf), (proj1 Sx).
  destruct (Nat.lt_ge_cases r (2 * nmax)) as [Hlt|Hge].
  - rewrite !nth_map_seq by exact Hlt.
    destruct (Hcells r) as [C1 [C2 _]]. rewrite C1, C2.
    destruct (Nat.ltb_spec r (length fn)); [lia|]. split; reflexivity.
  - rewrite !nth_overflow
      by (rewrite length_map, length_seq; exact Hge).
    split; reflexivity.
Qed.

(** C3, as the code has it.  For an order index [n] from 2 on and a
    deduplicated pole [i] of that order, the returned [test_fn[i, n-1]]
    is the number of matches, within relative tolerance [err_fn], between
    the pole's frequency and the first [2*n] rows of the column of index
    [n-2].  That column holds the deduplicated values of the order index
    before, [n-1] (an order index writes the column one to its left), not
    those of two orders before.  The count is positive when one of those
    rows matches and zero when no row of the column matches.  When the
    orders carry at most the number of poles LSCF gives them (2(k+1) at
    order index k) and division by a stored zero never passes the
    tolerance test, every match in the column lies in those rows.  The
    same holds for the damping with [err_xi]. *)
Theorem stabilisation_counts_matches (st : stab_matrices) (n i : nat)
  (fn xi : list (list F)) :
  stabilisation sr nmax err_fn err_xi = Ok st ->
  (2 <= n)%nat -> (n < nmax)%nat ->
  order_values n = Ok (fn, xi) -> (i < length fn)%nat ->
  let f := item (nth i fn []) in
  let x := item (nth i xi []) in
  let col_f := column f_zero (n - 2) (fn_temp st) in
  let col_x := column f_zero (n - 2) (xi_temp st) in
  let t_fn := cell 0%Z i (n - 1) (test_fn st) in
  let t_xi := cell 0%Z i (n - 1) (test_xi st) in
  (exists fp xp,
     order_values (n - 1) = Ok (fp, xp) /\
     col_f = map item fp ++ repeat f_zero (2 * nmax - length fp) /\
     col_x = map item xp ++ repeat f_zero (2 * nmax - length fp)) /\
  cell f_zero i (n - 1) (fn_temp st) = f /\
  cell f_zero i (n - 1) (xi_temp st) = x /\
  t_fn = sum_Z (firstn (2 * n) (mark (map (within err_fn f) col_f))) /\
  t_xi = sum_Z (firstn (2 * n) (mark (map (within err_xi x) col_x))) /\
  ((exists r, (r < 2 * n)%nat /\
              within err_fn f (nth r col_f f_zero) = true)
   -> (0 < t_fn)%Z) /\
  ((forall r, (r < 2 * nmax)%nat ->
              within err_fn f (nth r col_f f_zero) = false)
   -> t_fn = 0%Z) /\
  ((exists r, (r < 2 * n)%nat /\
              within err_xi x (nth r col_x f_zero) = true)
   -> (0 < t_xi)%Z) /\
  ((forall r, (r < 2 * nmax)%nat ->
              within err_xi x (nth r col_x f_zero) = false)
   -> t_xi = 0%Z) /\
  (zero_never_matches ->
   (forall poles, nth_error sr (n - 1) = Some poles ->
                  (length poles <= 2 * n)%nat) ->
   ((exists r, within err_fn f (nth r col_f f_zero) = true)
    -> (0 < t_fn)%Z) /\
   ((exists r, within err_xi x (nth r col_x f_zero) = true)
    -> (0 < t_xi)%Z)).
Proof.
  intros Hrun H2 Hn Hov Hi f x col_f col_x t_fn t_xi.
  destruct (stabilisation_columns Hrun) as [[Sf [Sx _]] Hcols].
  destruct (Hcols n Hn) as [fn' [xi' [Hov' [_ [_ Hcells]]]]].
  rewrite Hov in Hov'. injection Hov' as <- <-.
  replace (written n) with (n - 1)%nat in Hcells
    by (unfold written; destruct (Nat.eqb_spec n 0); lia).
  destruct (Hcells i) as [C1 [C2 [C3 C4]]].
  destruct (Nat.ltb_spec i (length fn)) as [_|]; [|lia].
  destruct (Nat.leb_spec 2 n) as [_|]; [|lia].
  cbn [andb] in C3, C4.
  fold f in C1, C3. fold x in C2, C4.
  fold col_f in C3. fold col_x in C4. fold t_fn in C3. fold t_xi in C4.
  assert (Lf : length col_f = (2 * nmax)%nat)
    by (unfold col_f, column; rewrite length_map; apply Sf).
  assert (Lx : length col_x = (2 * nmax)%nat)
    by (unfold col_x, column; rewrite length_map; apply Sx).
  split.
  { destruct (Hcols (n - 1)%nat) as [fp [xp [Hovp [Hlep [Hlenp Hcp]]]]];
      [lia|].
    replace (written (n - 1)) with (n - 2)%nat in Hcp
      by (unfold written; destruct (Nat.eqb_spec (n - 1) 0); lia).
    exists fp, xp. split; [exact Hovp|]. split.
    - unfold col_f. rewrite <- map_item_seq.
      eapply column_of_cells; [exact Sf|exact Hlep|].
      intros r. apply Hcp.
    - unfold col_x. rewrite <- map_item_seq, <- Hlenp.
      eapply column_of_cells; [exact Sx|lia|].
      intros r. rewrite Hlenp. apply Hcp. }
  split; [exact C1|]. split; [exact C2|].
  split; [exact C3|]. split; [exact C4|].
  split; [|split; [|split; [|split]]].
  - intros [r [Hr Hw]]. rewrite C3. apply count_within_pos.
    exists r. repeat split; [exact Hr|lia|exact Hw].
  - intros Hno. rewrite C3. apply count_within_zero.
    intros r Hr. apply Hno. lia.
  - intros [r [Hr Hw]]. rewrite C4. apply count_within_pos.
    exists r. repeat split; [exact Hr|lia|exact Hw].
  - intros Hno. rewrite C4. apply count_within_zero.
    intros r Hr. apply Hno. lia.
  - intros Hzero Hpoles.
    destruct (Hcols (n - 1)%nat) as [fp [xp [Hovp _]]]; [lia|].
    destruct (order_values_poles _ Hovp) as [poles Hp].
    pose proof (Hpoles poles Hp) as Hbound.
    split; intros [r Hw].
    + rewrite C3. apply count_within_pos. exists r.
      destruct (Nat.lt_ge_cases r (2 * n)) as [Hlt|Hge].
      * repeat split; [exact Hlt|lia|exact Hw].
      * exfalso.
        destruct (@padding_is_zero st n r poles Hrun H2 Hn Hp) as [Z _];
          [lia|].
        fold col_f in Z. rewrite Z, Hzero in Hw. discriminate.
    + rewrite C4. apply count_within_pos. exists r.
      destruct (Nat.lt_ge_cases r (2 * n)) as [Hlt|Hge].
      * repeat split; [exact Hlt|lia|exact Hw].
      * exfalso.
        destruct (@padding_is_zero st n r poles Hrun H2 Hn Hp) as [_ Z];
          [lia|].
        fold col_x in Z. rewrite Z, Hzero in Hw. discriminate.
Qed.

End Stabilisation.






(** *** A run in binary64 *)

Lemma b64_zero_never_matches : @zero_never_matches b64.
Proof.
  intros err x. unfold within. cbn [fltb fabs fdiv fsub f_zero b64].
  rewrite ltb_spec, abs_spec, div_spec, sub_spec.
  change (Prim2SF 0%float) with (S754_zero false).
  destruct (Prim2SF x) as [s|s| |s m e];
    destruct (Prim2SF err) as [s'|s'| |s' m' e'];
    try destruct s; try destruct s'; reflexivity.
Qed.

(** Three orders of purely imaginary poles: 10i and 20i come back at every
    order, 31i is new at the last one. *)
Definition cx (a b : float) : @complex b64 := Cx (Sc:=b64) a b.

Definition three_orders : list (list (@complex b64)) :=
  [ [cx 0 10; cx 0 (-10)];
    [cx 0 10; cx 0 (-10); cx 0 20; cx 0 (-20)];
    [cx 0 10; cx 0 (-10); cx 0 20; cx 0 (-20); cx 0 31; cx 0 (-31)] ]%float.

Definition three_orders_run : @stab_matrices b64 :=
  match stabilisation three_orders 3 f_1em3 0x1.999999999999ap-5%float with
  | Ok st => st
  | Raise _ => stab_init 3
  end.

Lemma three_orders_ok :
  stabilisation three_orders 3 f_1em3 0x1.999999999999ap-5%float
  = Ok three_orders_run.
Proof. reflexivity. Qed.

Lemma stabilisation_last_column_is_lowest_order_witness :
  exists fn xi,
    order_values three_orders 0 = Ok (fn, xi) /\
    column f_zero 2 (fn_temp three_orders_run)
      = map item fn ++ repeat f_zero (6 - length fn) /\
    column 0%Z 2 (test_fn three_orders_run) = repeat 0%Z 6.
Proof.
  destruct (@stabilisation_last_column_is_lowest_order b64 three_orders 3
              f_1em3 0x1.999999999999ap-5%float three_orders_run
              ltac:(lia) three_orders_ok)
    as [_ [_ [fn [xi [Hov [_ [_ [Hf [_ [Ht _]]]]]]]]]].
  exists fn, xi. repeat split; assumption.
Defined.

Lemma stabilisation_counts_matches_witness :
  (0 < cell 0%Z 0 1 (test_fn three_orders_run))%Z /\
  cell 0%Z 4 1 (test_fn three_orders_run) = 0%Z.
Proof.
  assert (Hov : order_values three_orders 2
                = Ok (map (fun v => [v])
                        (fst (complex_freq_to_freq_and_damp
                                (nth 2 three_orders []))),
                      map (fun v => [v])
                        (snd (complex_freq_to_freq_and_damp
                                (nth 2 three_orders []))))).
  { vm_compute. reflexivity. }
  split.
  - pose proof (@stabilisation_counts_matches b64 three_orders 3
                  f_1em3 0x1.999999999999ap-5%float three_orders_run
                  2 0 _ _ three_orders_ok ltac:(lia) ltac:(lia) Hov
                  ltac:(vm_compute; lia)) as H.
    cbv zeta in H.
    destruct H as [_ [_ [_ [_ [_ [_ [_ [_ [_ H]]]]]]]]].
    destruct (H b64_zero_never_matches) as [Hfn _].
    + intros poles Hp. cbn [Nat.sub three_orders nth_error] in Hp.
      injection Hp as <-. cbn [length]. lia.
    + apply Hfn. exists 0%nat. vm_compute. reflexivity.
  - pose proof (@stabilisation_counts_matches b64 three_orders 3
                  f_1em3 0x1.999999999999ap-5%float three_orders_run
                  2 4 _ _ three_orders_ok ltac:(lia) ltac:(lia) Hov
                  ltac:(vm_compute; lia)) as H.
    cbv zeta in H.
    destruct H as [_ [_ [_ [_ [_ [_ [H _]]]]]]].
    apply H. intros r Hr.
    destruct r as [|[|[|[|[|[|r]]]]]]; try lia; vm_compute; reflexivity.
Defined.

(** The pole 10i is found at order index 0 and again at order index 2,
    but not at order index 1 between them. *)
Definition skipping_orders : list (list (@complex b64)) :=
  [ [cx 0 10]; [cx 0 20]; [cx 0 10] ]%float.

Definition skipping_orders_run : @stab_matrices b64 :=
  match stabilisation skipping_orders 3 f_1em3 0x1.999999999999ap-5%float
  with
  | Ok st => st
  | Raise _ => stab_init 3
  end.

(** At order index 2 the frequency equals the one stored for order index
    0, two orders before, and yet [test_fn] is 0: the comparison was with
    column 0, which holds order index 1. *)
Lemma stabilisation_counts_matches_counterexample :
  stabilisation skipping_orders 3 f_1em3 0x1.999999999999ap-5%float
  = Ok skipping_orders_run /\
  order_values skipping_orders 0 = order_values skipping_orders 2 /\
  within (Sc:=b64) f_1em3
         (cell f_zero 0 1 (fn_temp skipping_orders_run))
         (cell f_zero 0 2 (fn_temp skipping_orders_run)) = true /\
  column f_zero 0 (fn_temp skipping_orders_run)
  = (fst (complex_freq_to_freq_and_damp [cx 0 20%float])
     ++ repeat 0%float 5) /\
  cell 0%Z 0 1 (test_fn skipping_orders_run) = 0%Z.
Proof.
  split; [reflexivity|]. split; [reflexivity|].
  split; [vm_compute; reflexivity|].
  split; [vm_compute; reflexivity|].
  vm_compute. reflexivity.
Qed.

(** ** [complex_freq_to_freq_and_damp] over the reals *)

Section RoundTrip.

Open Scope R_scope.

Lemma complex_freq_to_freq_and_damp_cons {Sc : Scalar}
  (p : complex) (sr : list complex) :
  complex_freq_to_freq_and_damp (p :: sr)
  = (let fr_unscaled := fmul (fsign (im p)) (fhypot (re p) (im p)) in
     (fdiv fr_unscaled (fmul f_two f_pi)
        :: fst (complex_freq_to_freq_and_damp sr),
      fdiv (fopp (re p)) fr_unscaled
        :: snd (complex_freq_to_freq_and_damp sr))).
Proof. reflexivity. Qed.

(** The inverse relation of the specification: the pole [p] stands for
    the frequency [fr] and the damping ratio [xi]. *)
Definition inverse_relation (p : @complex ideal) (fr xi : R) : Prop :=
  let fr_unscaled := R_sign (im p) * R_hypot (re p) (im p) in
  re p = - xi * fr_unscaled /\ fr = fr_unscaled / (2 * PI).

Lemma R_sign_cases (b : R) :
  b <> 0 -> R_sign b = 1 \/ R_sign b = -1.
Proof.
  intros Hb. unfold R_sign, R_ltb.
  destruct (Rlt_dec 0 b); [left; reflexivity|].
  destruct (Rlt_dec b 0); [right; reflexivity|].
  exfalso. apply Hb. lra.
Qed.

Lemma R_hypot_pos (a b : R) : b <> 0 -> 0 < R_hypot a b.
Proof.
  intros Hb. unfold R_hypot. apply sqrt_lt_R0.
  assert (0 <= a * a) by nra. assert (0 < b * b) by nra. lra.
Qed.

Lemma fr_unscaled_nonzero (a b : R) :
  b <> 0 -> R_sign b * R_hypot a b <> 0.
Proof.
  intros Hb. pose proof (R_hypot_pos a Hb) as Hh.
  destruct (R_sign_cases Hb) as [-> | ->]; lra.
Qed.

(** C6.  Over the reals the conversion inverts the relation by which a
    pole is built from a frequency and a damping ratio: given poles with
    non-zero imaginary part, each standing for a pair (fr, xi), the
    function returns exactly those frequencies and those dampings. *)
Theorem complex_freq_to_freq_and_damp_roundtrip
  (l : list (@complex ideal * (R * R))) :
  Forall (fun e => im (fst e) <> 0 /\
                   inverse_relation (fst e) (fst (snd e)) (snd (snd e))) l ->
  complex_freq_to_freq_and_damp (map fst l)
  = (map (fun e => fst (snd e)) l, map (fun e => snd (snd e)) l).
Proof.
  induction 1 as [|[p [fr xi]] l [Hb [Hre Hfr]] _ IH]; [reflexivity|].
  cbn [map fst snd] in *.
  rewrite complex_freq_to_freq_and_damp_cons, IH. cbn [fst snd].
  cbv zeta. cbn [fmul fsign fhypot fdiv fopp f_two f_pi ideal].
  pose proof (fr_unscaled_nonzero (re p) Hb) as Hnz.
  f_equal; f_equal.
  - symmetry. exact Hfr.
  - rewrite Hre at 1.
    set (u := R_sign (im p) * R_hypot (re p) (im p)) in *.
    field. exact Hnz.
Qed.

Lemma R_hypot_3_4 : R_hypot (-3) 4 = 5.
Proof. unfold R_hypot. apply sqrt_lem_1; lra. Qed.

Lemma R_sign_4 : R_sign 4 = 1.
Proof.
  unfold R_sign, R_ltb. destruct (Rlt_dec 0 4); [reflexivity|lra].
Qed.

Lemma complex_freq_to_freq_and_damp_roundtrip_witness :
  complex_freq_to_freq_and_damp [Cx (Sc:=ideal) (-3) 4]
  = ([5 / (2 * PI)], [3 / 5]).
Proof.
  apply (@complex_freq_to_freq_and_damp_roundtrip
           [(Cx (Sc:=ideal) (-3) 4, (5 / (2 * PI), 3 / 5))]).
  constructor; [|constructor].
  cbn [fst snd im re]. split; [lra|].
  unfold inverse_relation. cbn [im re].
  rewrite R_hypot_3_4, R_sign_4. split; lra.
Defined.

End RoundTrip.

Open Scope float_scope.

Lemma redundant_values_dedup_witness :
  redundant_values (Sc:=b64) [1; 5; 3] [7; 8; 9] 1e-3
    = Ok ([[1]; [5]; [3]], [[7]; [8]; [9]])
  /\ exists omega_mod xi_mod,
       redundant_values (Sc:=b64) [1; 2; 2.0005; 3] [10; 20; 30; 40] 1e-3
         = Ok (omega_mod, xi_mod) /\
       S (length omega_mod) = 4%nat /\ S (length xi_mod) = 4%nat.
Proof.
  split.
  - apply (redundant_values_dedup (Sc:=b64) [1; 5; 3] [7; 8; 9] 1e-3 eq_refl).
    intros i j Hij. simpl in Hij.
    destruct i as [|[|[|i]]]; destruct j as [|[|[|j]]];
      try lia; vm_compute; reflexivity.
  - apply (proj2 (redundant_values_dedup (Sc:=b64)
                    [1; 2; 2.0005; 3] [10; 20; 30; 40] 1e-3 eq_refl)
                 2%nat 1%nat).
    + simpl. lia.
    + vm_compute. reflexivity.
    + intros i j Hij Hne. simpl in Hij.
      destruct i as [|[|[|[|i]]]]; destruct j as [|[|[|[|j]]]];
        try lia; try (vm_compute; reflexivity).
      exfalso. apply Hne. reflexivity.
Defined.

(** ** The constructor *)

Section Constructor.

Context {Sc : Scalar}.


(** A successful construction from arrays, step by step. *)
Lemma init_ok_inv (a : init_args) (st : lscf) :
  arg_pyfrf a = false ->
  init a blank = (st, Ok tt) ->
  exists lo up frf0 frf1 fq0 cutoff order,
    py_float (arg_lower a) = Some lo /\ fltb lo f_zero = false /\
    py_float (arg_upper a) = Some up /\ fltb up lo = false /\
    arg_frf a = Some frf0 /\ asarray frf0 = Some frf1 /\
    arg_freq a = Some (Seq1 fq0) /\
    nearest_index fq0 up = Ok cutoff /\
    py_int (arg_pol_order_high a) = Some order /\ (0 < order)%Z /\
    lower st = Some lo /\ upper st = Some up /\
    pol_order_high st = Some order /\
    freq st = Some (Seq1 (slice_to cutoff fq0)) /\
    frf st = Some (match frf1 with
                   | Seq1 v =>
                       FrfArray (Nat.min cutoff (length v))
                                [slice_to cutoff v]
                   | Seq2 k rows =>
                       FrfArray (Nat.min cutoff k)
                                (map (slice_to cutoff) rows)
                   end) /\
    omega st = Some (map (fmul (fmul f_two f_pi)) (slice_to cutoff fq0)) /\
    match arg_dt a with
    | Some dt => sampling_time st = Some dt
    | None => exists top,
                last_item (slice_to cutoff fq0) = Ok top /\
                sampling_time st = Some (fdiv f_one (fmul f_two top))
    end.
Proof.
  intros Hpy H. unfold init in H. rewrite Hpy in H.
  destruct (py_float (arg_lower a)) as [lo|] eqn:Elo; [|discriminate].
  cbv [mbind assign throw ret] in H.
  destruct (fltb lo f_zero) eqn:Enn; [discriminate|].
  destruct (py_float (arg_upper a)) as [up|] eqn:Eup; [|discriminate].
  destruct (fltb up lo) eqn:Egt; [discriminate|].
  destruct (arg_frf a) as [frf0|] eqn:Efrf; [|discriminate].
  destruct (arg_freq a) as [freq0|] eqn:Efreq; [|discriminate].
  unfold store_arrays in H. cbv [mbind assign throw ret lift attr] in H.
  destruct (asarray frf0) as [frf1|] eqn:Ea; cbn [from_option] in H;
    [|discriminate].
  destruct (asarray freq0) as [freq1|] eqn:Eb; cbn [from_option] in H;
    [|discriminate].
  destruct freq1 as [fq0|k2 rows2]; [|discriminate].
  assert (freq0 = Seq1 fq0) as ->.
  { destruct freq0 as [v|k rows]; cbn [asarray] in Eb.
    - congruence.
    - destruct (forallb _ rows); discriminate. }
  destruct (nearest_index fq0 up) as [cutoff|] eqn:Ec; [|discriminate].
  cbn [frf set_frf set_freq from_option] in H.
  destruct (py_int (arg_pol_order_high a)) as [order|] eqn:Eo;
    [|destruct frf1; discriminate].
  destruct frf1 as [v|k rows]; cbn [frf set_frf set_freq from_option] in H.
  - destruct (Z.leb_spec order 0) as [|Hpos]; [discriminate|].
    cbn [freq set_pol_order_high set_freq from_option] in H.
    exists lo, up, frf0, (Seq1 v), fq0, cutoff, order.
    destruct (arg_dt a) as [dt|].
    + injection H as <-.
      repeat (split; [first [reflexivity|assumption]|]). reflexivity.
    + destruct (last_item (slice_to cutoff fq0)) as [top|] eqn:Et;
        [|discriminate].
      injection H as <-.
      repeat (split; [first [reflexivity|assumption]|]).
      exists top. split; reflexivity.
  - destruct (Z.leb_spec order 0) as [|Hpos]; [discriminate|].
    cbn [freq set_pol_order_high set_freq from_option] in H.
    exists lo, up, frf0, (Seq2 k rows), fq0, cutoff, order.
    destruct (arg_dt a) as [dt|].
    + injection H as <-.
      repeat (split; [first [reflexivity|assumption]|]). reflexivity.
    + destruct (last_item (slice_to cutoff fq0)) as [top|] eqn:Et;
        [|discriminate].
      injection H as <-.
      repeat (split; [first [reflexivity|assumption]|]).
      exists top. split; reflexivity.
Qed.


End Constructor.

(** ** The cut at [upper], over the reals *)

Section Truncation.

Open Scope R_scope.

Lemma ideal_no_nan (l : list R) : find_index (is_nan (Sc:=ideal)) l = None.
Proof.
  induction l as [|x l IH]; [reflexivity|].
  cbn [find_index]. unfold is_nan at 1. cbn [feqb ideal]. unfold R_eqb.
  destruct (Req_dec_T x x) as [_|Hne]; [|exfalso; apply Hne; reflexivity].
  cbn [negb]. rewrite IH. reflexivity.
Qed.

(** The scan keeps the index of a least entry among those seen. *)
Lemma first_min_least (rest pre : list R) (best_at : nat) :
  (best_at < length pre)%nat ->
  (forall k, (k < length pre)%nat ->
     nth best_at (pre ++ rest) 0 <= nth k (pre ++ rest) 0) ->
  let c := first_min (Sc:=ideal) (nth best_at (pre ++ rest) 0)
                     best_at (length pre) rest in
  (c < length (pre ++ rest))%nat /\
  forall k, (k < length (pre ++ rest))%nat ->
    nth c (pre ++ rest) 0 <= nth k (pre ++ rest) 0.
Proof.
  revert pre best_at. induction rest as [|y rest IH]; intros pre best_at Hb Hmin.
  - cbn [first_min]. rewrite app_nil_r in *. split; [exact Hb|exact Hmin].
  - cbn [first_min]. cbn [fltb ideal]. unfold R_ltb.
    assert (Hy : nth (length pre) (pre ++ y :: rest) 0 = y)
      by (rewrite app_nth2, Nat.sub_diag by lia; reflexivity).
    assert (Happ : pre ++ y :: rest = (pre ++ [y]) ++ rest)
      by (rewrite <- app_assoc; reflexivity).
    assert (Hlen : length (pre ++ [y]) = S (length pre))
      by (rewrite length_app; simpl; lia).
    destruct (Rlt_dec y (nth best_at (pre ++ y :: rest) 0)) as [Hlt|Hge].
    + specialize (IH (pre ++ [y]) (length pre)).
      rewrite <- Happ, Hy, Hlen in IH. apply IH; [lia|].
      intros k Hk. destruct (Nat.eq_dec k (length pre)) as [->|Hne].
      * rewrite Hy. lra.
      * specialize (Hmin k ltac:(lia)). lra.
    + specialize (IH (pre ++ [y]) best_at).
      rewrite <- Happ, Hlen in IH. apply IH; [lia|].
      intros k Hk. destruct (Nat.eq_dec k (length pre)) as [->|Hne].
      * rewrite Hy. lra.
      * apply Hmin. lia.
Qed.

Lemma argmin_least (l : list R) (c : nat) :
  argmin (Sc:=ideal) l = Ok c ->
  (c < length l)%nat /\
  forall k, (k < length l)%nat -> nth c l 0 <= nth k l 0.
Proof.
  unfold argmin. destruct l as [|x rest]; [discriminate|].
  rewrite ideal_no_nan. intros H. injection H as <-.
  apply (@first_min_least rest [x] 0%nat).
  - simpl. lia.
  - intros k Hk. simpl in Hk. replace k with 0%nat by lia. lra.
Qed.

(** The frequency vector is strictly ascending. *)
Definition ascending (fq : list R) : Prop :=
  forall i j, (i < j < length fq)%nat -> nth i fq 0 < nth j fq 0.

(** The length of the frequency axis of the [frf] argument. *)
Definition bins {X} (a : array_like X) : nat :=
  match a with
  | Seq1 v => length v
  | Seq2 k _ => k
  end.

Lemma nearest_index_before (fq : list R) (up : R) (c : nat) :
  ascending fq -> nearest_index (Sc:=ideal) fq up = Ok c ->
  (c < length fq)%nat /\
  ((0 < c)%nat -> nth (c - 1) fq 0 <= up).
Proof.
  intros Hasc Hc. unfold nearest_index in Hc.
  apply argmin_least in Hc as [Hlt Hmin].
  rewrite length_map in Hlt, Hmin.
  split; [exact Hlt|]. intros Hpos.
  destruct (Rle_dec (nth (c - 1) fq 0) up) as [Hle|Hgt]; [exact Hle|].
  exfalso.
  cbn [fabs fsub ideal] in Hmin. change (@F ideal) with R in *.
  assert (Hd : forall k, (k < length fq)%nat ->
            nth k (map (fun f : R => Rabs (f - up)) fq) 0
            = Rabs (nth k fq 0 - up)).
  { intros k Hk.
    rewrite (nth_indep _ 0 (Rabs (0 - up)))
      by (rewrite length_map; exact Hk).
    rewrite (map_nth (fun f : R => Rabs (f - up))). reflexivity. }
  specialize (Hmin (c - 1)%nat ltac:(lia)).
  rewrite !Hd in Hmin by lia.
  pose proof (Hasc (c - 1)%nat c ltac:(lia)) as Hstep.
  rewrite !Rabs_right in Hmin by lra. lra.
Qed.

(** The rows of an array argument as NumPy holds them: a one-dimensional
    [frf] is one row. *)
Definition array_rows {X} (a : array_like X) : list (list X) :=
  match a with
  | Seq1 v => [v]
  | Seq2 _ rows => rows
  end.

(** The constructor on arrays that pass every check, run to its end: all
    attributes are assigned before [self.freq[-1]] is read. *)
Lemma init_from_arrays {Sc : Scalar} (a : init_args) (lo up : F)
  (order : Z)
  (frf0 : array_like complex) (fq0 : list F) (c : nat) :
  arg_pyfrf a = false ->
  py_float (arg_lower a) = Some lo -> fltb lo f_zero = false ->
  py_float (arg_upper a) = Some up -> fltb up lo = false ->
  arg_frf a = Some frf0 -> asarray frf0 = Some frf0 ->
  arg_freq a = Some (Seq1 fq0) ->
  nearest_index fq0 up = Ok c ->
  py_int (arg_pol_order_high a) = Some order -> (0 < order)%Z ->
  init a blank
  = (let st0 :=
       set_omega (map (fmul (fmul f_two f_pi)) (slice_to c fq0))
         (set_pol_order_high order
            (set_freq (Seq1 (slice_to c fq0))
               (set_frf (FrfArray (Nat.min c (bins frf0))
                                  (map (slice_to c) (array_rows frf0)))
                  (set_freq (Seq1 fq0)
                     (set_frf (FrfArray (bins frf0) (array_rows frf0))
                        (set_upper up (set_lower lo blank))))))) in
     match arg_dt a with
     | Some dt => (set_sampling_time dt st0, Ok tt)
     | None =>
         match last_item (slice_to c fq0) with
         | Ok top =>
             (set_sampling_time (fdiv f_one (fmul f_two top)) st0, Ok tt)
         | Raise e => (st0, Raise e)
         end
     end).
Proof.
  intros Hpy Hlo Hnn Hup Hge Hfrf Ha Hfreq Hc Ho Hpos.
  unfold init, store_arrays.
  rewrite Hlo, Hup, Hpy, Hfrf, Hfreq, Ho.
  cbv [mbind assign throw ret lift attr]. rewrite Hnn, Hge, Ha.
  cbn [from_option asarray]. rewrite Hc.
  destruct (Z.leb_spec order 0); [lia|].
  destruct frf0 as [v|k rows];
    cbn [frf freq set_frf set_freq set_pol_order_high from_option
         bins array_rows map];
    destruct (arg_dt a); try reflexivity;
    destruct (last_item (slice_to c fq0)); reflexivity.
Qed.

(** The scan keeps the first index of a least entry among those seen. *)
Lemma first_min_first (rest pre : list R) (best_at : nat) :
  (best_at < length pre)%nat ->
  (forall k, (k < length pre)%nat ->
     nth best_at (pre ++ rest) 0 <= nth k (pre ++ rest) 0) ->
  (forall k, (k < best_at)%nat ->
     nth best_at (pre ++ rest) 0 < nth k (pre ++ rest) 0) ->
  let c := first_min (Sc:=ideal) (nth best_at (pre ++ rest) 0)
                     best_at (length pre) rest in
  forall k, (k < c)%nat -> nth c (pre ++ rest) 0 < nth k (pre ++ rest) 0.
Proof.
  revert pre best_at. induction rest as [|y rest IH];
    intros pre best_at Hb Hmin Hfirst.
  - cbn [first_min]. exact Hfirst.
  - cbn [first_min]. cbn [fltb ideal]. unfold R_ltb.
    assert (Hy : nth (length pre) (pre ++ y :: rest) 0 = y)
      by (rewrite app_nth2, Nat.sub_diag by lia; reflexivity).
    assert (Happ : pre ++ y :: rest = (pre ++ [y]) ++ rest)
      by (rewrite <- app_assoc; reflexivity).
    assert (Hlen : length (pre ++ [y]) = S (length pre))
      by (rewrite length_app; simpl; lia).
    destruct (Rlt_dec y (nth best_at (pre ++ y :: rest) 0)) as [Hlt|Hge].
    + specialize (IH (pre ++ [y]) (length pre)).
      rewrite <- Happ, Hy, Hlen in IH. apply IH; [lia| |].
      * intros k Hk. destruct (Nat.eq_dec k (length pre)) as [->|Hne].
        -- rewrite Hy. lra.
        -- specialize (Hmin k ltac:(lia)). lra.
      * intros k Hk. specialize (Hmin k Hk). lra.
    + specialize (IH (pre ++ [y]) best_at).
      rewrite <- Happ, Hlen in IH. apply IH; [lia| |].
      * intros k Hk. destruct (Nat.eq_dec k (length pre)) as [->|Hne].
        -- rewrite Hy. lra.
        -- apply Hmin. lia.
      * exact Hfirst.
Qed.

Lemma argmin_first (l : list R) (c : nat) :
  argmin (Sc:=ideal) l = Ok c ->
  forall k, (k < c)%nat -> nth c l 0 < nth k l 0.
Proof.
  unfold argmin. destruct l as [|x rest]; [discriminate|].
  rewrite ideal_no_nan. intros H. injection H as <-.
  apply (@first_min_first rest [x] 0%nat).
  - simpl. lia.
  - intros k Hk. simpl in Hk. replace k with 0%nat by lia. lra.
  - intros k Hk. lia.
Qed.

Lemma nearest_index_ok (fq : list R) (up : R) :
  fq <> [] -> exists c, nearest_index (Sc:=ideal) fq up = Ok c.
Proof.
  intros Hne. unfold nearest_index, argmin.
  destruct fq as [|f fq]; [contradiction|]. cbn [map].
  rewrite ideal_no_nan. eexists. reflexivity.
Qed.

Lemma distance_nth (fq : list R) (up : R) (k : nat) :
  (k < length fq)%nat ->
  nth k (map (fun f : R => @fabs ideal (@fsub ideal f up)) fq) 0
  = Rabs (nth k fq 0 - up).
Proof.
  intros Hk. cbn [fabs fsub ideal].
  rewrite (nth_indep _ 0 (Rabs (0 - up))) by (rewrite length_map; exact Hk).
  rewrite (map_nth (fun f : R => Rabs (f - up))). reflexivity.
Qed.

(** C4, as the code has it.  For arguments that pass every check (an
    [frf] with as many bins as the non-empty, strictly ascending [freq]
    has entries, [upper > lower >= 0], a positive order) the cut is at
    the index [c] of the first entry of [freq] that is nearest to
    [upper]: what is stored is [freq[:c]] and [frf[:, :c]], both with
    exactly [c] bins, and every frequency kept is at most [upper].  The
    nearest entry itself is dropped, so that nothing at all is kept when
    it is the first one; construction returns exactly when something is
    kept or [dt] is given, and ends in the [IndexError] of
    [self.freq[-1]] otherwise. *)
Theorem init_truncation (a : @init_args ideal)
  (frf0 : array_like complex) (fq0 : list R) (lo up : R) (order : Z) :
  arg_pyfrf a = false ->
  arg_frf a = Some frf0 -> asarray frf0 = Some frf0 ->
  arg_freq a = Some (Seq1 fq0) ->
  bins frf0 = length fq0 -> fq0 <> [] -> ascending fq0 ->
  py_float (arg_lower a) = Some lo -> py_float (arg_upper a) = Some up ->
  0 <= lo < up ->
  py_int (arg_pol_order_high a) = Some order -> (0 < order)%Z ->
  exists c,
    nearest_index fq0 up = Ok c /\ (c < length fq0)%nat /\
    (forall k, (k < length fq0)%nat ->
       Rabs (nth c fq0 0 - up) <= Rabs (nth k fq0 0 - up)) /\
    (forall k, (k < c)%nat ->
       Rabs (nth c fq0 0 - up) < Rabs (nth k fq0 0 - up)) /\
    freq (fst (init a blank)) = Some (Seq1 (firstn c fq0)) /\
    frf (fst (init a blank))
    = Some (FrfArray c (map (firstn c) (array_rows frf0))) /\
    length (firstn c fq0) = c /\
    Forall (fun row => length row = c) (map (firstn c) (array_rows frf0)) /\
    Forall (fun f => f <= up) (firstn c fq0) /\
    (snd (init a blank) = Ok tt <-> (0 < c)%nat \/ arg_dt a <> None) /\
    (c = 0%nat -> arg_dt a = None -> snd (init a blank) = Raise IndexError).
Proof.
  intros Hpy Hfrf Ha Hfreq Hbins Hne Hasc Hlo Hup Hbounds Ho Hpos.
  destruct (nearest_index_ok up Hne) as [c Hc].
  destruct (@nearest_index_before fq0 up c Hasc Hc) as [Hlt Hbefore].
  assert (Hnn : @fltb ideal lo f_zero = false).
  { cbn [fltb f_zero ideal]. unfold R_ltb.
    destruct (Rlt_dec lo 0); [lra|reflexivity]. }
  assert (Hge : @fltb ideal up lo = false).
  { cbn [fltb ideal]. unfold R_ltb.
    destruct (Rlt_dec up lo); [lra|reflexivity]. }
  pose proof (@init_from_arrays ideal a lo up order frf0 fq0 c Hpy Hlo Hnn
                Hup Hge Hfrf Ha Hfreq Hc Ho Hpos) as Hrun.
  cbv zeta in Hrun. rewrite Hbins, (Nat.min_l c (length fq0)) in Hrun by lia.
  unfold slice_to in Hrun.
  change (@F ideal) with R in *.
  assert (Hlen : length (firstn c fq0) = c)
    by (rewrite length_firstn; lia).
  assert (Hlast : last_item (firstn c fq0)
                  = match c with
                    | O => Raise IndexError
                    | S _ => Ok (nth (c - 1) fq0 0)
                    end).
  { unfold last_item. rewrite Hlen. destruct c as [|c'].
    - reflexivity.
    - rewrite (nth_error_nth' _ 0) by (rewrite Hlen; lia).
      cbn [from_option]. rewrite nth_firstn.
      destruct (Nat.ltb_spec (S c' - 1) (S c')); [reflexivity|lia]. }
  exists c. split; [exact Hc|]. split; [exact Hlt|].
  unfold nearest_index in Hc.
  pose proof (argmin_first _ Hc) as Hfirst.
  apply argmin_least in Hc as [_ Hmin]. rewrite length_map in Hmin.
  split.
  { intros k Hk. specialize (Hmin k Hk).
    rewrite !distance_nth in Hmin by assumption. exact Hmin. }
  split.
  { intros k Hk. specialize (Hfirst k Hk).
    rewrite !distance_nth in Hfirst by lia. exact Hfirst. }
  assert (Hstate : freq (fst (init a blank)) = Some (Seq1 (firstn c fq0)) /\
                   frf (fst (init a blank))
                   = Some (FrfArray c (map (firstn c) (array_rows frf0)))).
  { rewrite Hrun. destruct (arg_dt a) as [dt|]; [split; reflexivity|].
    rewrite Hlast. destruct c; split; reflexivity. }
  split; [apply Hstate|]. split; [apply Hstate|]. split; [exact Hlen|].
  split.
  { apply Forall_map, Forall_forall. intros row Hrow.
    rewrite length_firstn.
    assert (Hrl : length row = length fq0).
    { rewrite <- Hbins. destruct frf0 as [v|k rows]; cbn [array_rows bins] in *.
      - destruct Hrow as [<-|[]]. reflexivity.
      - cbn [asarray] in Ha.
        destruct (forallb (fun r => (length r =? k)%nat) rows) eqn:Hrect;
          [|discriminate].
        rewrite forallb_forall in Hrect. apply Nat.eqb_eq, Hrect, Hrow. }
    lia. }
  split.
  { apply Forall_forall. intros f Hf.
    apply (In_nth _ _ 0) in Hf as [i [Hi Hf]].
    rewrite Hlen in Hi. rewrite nth_firstn in Hf.
    destruct (Nat.ltb_spec i c); [|lia]. subst f.
    specialize (Hbefore ltac:(lia)).
    destruct (Nat.eq_dec i (c - 1)) as [->|Hic]; [exact Hbefore|].
    pose proof (Hasc i (c - 1)%nat ltac:(lia)). lra. }
  split.
  - rewrite Hrun. destruct (arg_dt a) as [dt|].
    + cbn [snd]. split; [intros _; right; discriminate|reflexivity].
    + rewrite Hlast. destruct c; cbn [snd].
      * split; [discriminate|]. intros [H|H]; [lia|contradiction].
      * split; [intros _; left; lia|reflexivity].
  - intros -> Hdt. rewrite Hrun, Hdt, Hlast. reflexivity.
Qed.

(** One output at 1 and 2 Hz, band 0 to 2 Hz. *)
Definition two_bins : @init_args ideal :=
  {| arg_frf := Some (Seq1 [Cx (Sc:=ideal) 1 0; Cx (Sc:=ideal) 2 0]);
     arg_freq := Some (Seq1 [1; 2]);
     arg_dt := Some 1;
     arg_lower := PyInt 0;
     arg_upper := PyInt 2;
     arg_pol_order_high := PyInt 1;
     arg_pyfrf := false |}.

Lemma two_bins_cutoff : nearest_index (Sc:=ideal) [1; 2] 2 = Ok 1%nat.
Proof.
  unfold nearest_index, argmin. cbn [map].
  rewrite ideal_no_nan. cbn [first_min fltb fabs fsub ideal].
  unfold R_ltb.
  destruct (Rlt_dec (Rabs (2 - 2)) (Rabs (1 - 2))) as [_|Hn];
    [reflexivity|].
  exfalso. apply Hn.
  replace (2 - 2) with 0 by lra. rewrite Rabs_R0.
  replace (1 - 2) with (- (1)) by lra. rewrite Rabs_Ropp, Rabs_R1. lra.
Qed.

Lemma two_bins_ok : snd (init two_bins blank) = Ok tt.
Proof.
  unfold init, store_arrays, two_bins.
  cbn [arg_lower arg_upper arg_frf arg_freq arg_dt arg_pol_order_high
       arg_pyfrf py_float py_int of_int ideal asarray].
  cbv [mbind assign throw ret lift attr]. cbn [fltb f_zero ideal].
  unfold R_ltb.
  destruct (Rlt_dec 0 0) as [H|_]; [lra|].
  destruct (Rlt_dec 2 0) as [H|_]; [lra|].
  cbn [from_option]. rewrite two_bins_cutoff. reflexivity.
Qed.

Lemma init_truncation_witness :
  freq (fst (init two_bins blank)) = Some (Seq1 [1]) /\
  frf (fst (init two_bins blank))
  = Some (FrfArray 1 [[Cx (Sc:=ideal) 1 0]]) /\
  snd (init two_bins blank) = Ok tt.
Proof.
  destruct (@init_truncation two_bins
              (Seq1 [Cx (Sc:=ideal) 1 0; Cx (Sc:=ideal) 2 0]) [1; 2] 0 2 1%Z
              eq_refl eq_refl eq_refl eq_refl eq_refl)
    as (c & Hc & _ & _ & _ & Hfreq & Hfrf & _ & _ & _ & Hok & _).
  - discriminate.
  - intros i j Hij. cbn [length] in Hij.
    destruct i as [|[|i]]; destruct j as [|[|j]]; try lia.
    cbn [nth]. lra.
  - reflexivity.
  - reflexivity.
  - lra.
  - reflexivity.
  - lia.
  - rewrite two_bins_cutoff in Hc. injection Hc as <-.
    split; [exact Hfreq|]. split; [exact Hfrf|].
    apply Hok. left. lia.
Defined.

End Truncation.

(** Three bins at 1, 2 and 3 Hz, with [upper] at 1.25 Hz, just above the
    first of them. *)
Definition upper_above_first_bin (dt : option float) : @init_args b64 :=
  {| arg_frf := Some (Seq1 [Cx (Sc:=b64) 1 0; Cx (Sc:=b64) 2 0;
                            Cx (Sc:=b64) 3 0]);
     arg_freq := Some (Seq1 [1; 2; 3]);
     arg_dt := dt;
     arg_lower := PyInt 0;
     arg_upper := @PyFloat b64 1.25;
     arg_pol_order_high := PyInt 1;
     arg_pyfrf := false |}.

(** The arguments are valid and 1 Hz lies below [upper], yet the nearest
    entry is the first one and the cut keeps nothing: without [dt] the
    constructor raises, with [dt] it returns a frequency vector that has
    no last element. *)
Lemma init_truncation_counterexample :
  snd (init (upper_above_first_bin None) blank) = Raise IndexError /\
  snd (init (upper_above_first_bin (Some 0.5)) blank) = Ok tt /\
  freq (fst (init (upper_above_first_bin (Some 0.5)) blank))
  = Some (Seq1 []) /\
  frf (fst (init (upper_above_first_bin (Some 0.5)) blank))
  = Some (FrfArray 0 [[]]).
Proof. repeat split; reflexivity. Qed.

(** ** Sampling time and poles *)

Section Poles.

Context {Sc : Scalar} {Np : Numpy}.

(** [sr] is the array of roots [get_poles] finds at order [j]. *)
Definition roots_of_order (m : normal_matrices) (j : nat)
  (sr : list complex) : Prop :=
  exists coeffs, order_polynomial m j = Ok coeffs /\ roots coeffs = Ok sr.

Lemma poles_of_order_inv (m : normal_matrices) (j : nat) (t t' : lscf) :
  poles_of_order m j t = (t', Ok tt) ->
  exists sr dt ps,
    roots_of_order m j sr /\
    sampling_time t = Some dt /\ all_poles t = Some ps /\
    sampling_time t' = Some dt /\
    all_poles t' = Some (ps ++ [poles_of_roots dt sr]).
Proof.
  unfold poles_of_order. cbv [mbind lift attr assign ret].
  destruct (order_polynomial m j) as [coeffs|] eqn:Ec; [|discriminate].
  destruct (roots coeffs) as [sr|] eqn:Er; [|discriminate].
  destruct (sampling_time t) as [dt|] eqn:Edt; cbn [from_option];
    [|discriminate].
  destruct (companion coeffs) as [ct|]; [|discriminate].
  destruct (linalg_eig ct) as [vw|]; [|discriminate].
  destruct (last_item (snd vw)) as [last_row|]; [|discriminate].
  destruct (partfactors t) as [pf|]; cbn [from_option]; [|discriminate].
  destruct (complex_freq_to_freq_and_damp (poles_of_roots dt sr))
    as [f_pole ceta].
  cbn [all_poles pole_freq pole_xi set_partfactors].
  destruct (all_poles t) as [ps|] eqn:Eps; cbn [from_option];
    [|discriminate].
  destruct (pole_freq t) as [fs|]; cbn [from_option]; [|discriminate].
  destruct (pole_xi t) as [xs|]; cbn [from_option]; [|discriminate].
  intros H. injection H as <-.
  exists sr, dt, ps.
  split; [exists coeffs; split; assumption|].
  cbn [sampling_time all_poles set_pole_lists set_partfactors].
  repeat split; try reflexivity; assumption.
Qed.

Lemma poles_loop (m : normal_matrices) (dt : F) (js : list nat) :
  forall (seen : list nat) (srs : list (list complex)) (t t' : lscf),
    sampling_time t = Some dt ->
    all_poles t = Some (map (poles_of_roots dt) srs) ->
    Forall2 (roots_of_order m) seen srs ->
    mfor js (poles_of_order m) t = (t', Ok tt) ->
    exists srs',
      Forall2 (roots_of_order m) (seen ++ js) srs' /\
      all_poles t' = Some (map (poles_of_roots dt) srs').
Proof.
  induction js as [|j js IH]; intros seen srs t t' Hdt Hall Hseen Hrun.
  - cbn [mfor] in Hrun. cbv [ret] in Hrun. injection Hrun as <-.
    exists srs. rewrite app_nil_r. split; assumption.
  - cbn [mfor] in Hrun. cbv [mbind] in Hrun.
    destruct (poles_of_order m j t) as [t1 [[]|e]] eqn:Hstep;
      [|discriminate].
    apply poles_of_order_inv in Hstep
      as (sr & dt' & ps & Hsr & Hdt' & Hps & Hdt1 & Hall1).
    rewrite Hdt in Hdt'. injection Hdt' as <-.
    rewrite Hall in Hps. injection Hps as <-.
    destruct (IH (seen ++ [j]) (srs ++ [sr]) t1 t') as [srs' [H2 Hall']].
    + exact Hdt1.
    + rewrite Hall1, map_app. reflexivity.
    + apply Forall2_app; [exact Hseen|].
      constructor; [exact Hsr|constructor].
    + exact Hrun.
    + exists srs'. rewrite <- app_assoc in H2. split; assumption.
Qed.

(** C7.  Without [dt] the constructor takes the sampling time from the
    last entry of the frequency vector it kept, [1 / (2 * freq[-1])], and
    with [dt] it takes [dt]; [get_poles] turns every root [z] of every
    order into the pole [-log(z) / sampling_time]. *)
Theorem sampling_time_and_poles :
  (forall (a : init_args) (st : lscf),
     arg_pyfrf a = false -> init a blank = (st, Ok tt) ->
     exists fq,
       freq st = Some (Seq1 fq) /\
       match arg_dt a with
       | Some dt => sampling_time st = Some dt
       | None => exists top,
                   last_item fq = Ok top /\
                   sampling_time st = Some (fdiv f_one (fmul f_two top))
       end) /\
  (forall (st st' : lscf) (dt : F),
     get_poles st = (st', Ok tt) -> sampling_time st = Some dt ->
     exists m order srs,
       pol_order_high st = Some order /\
       Forall2 (roots_of_order m) (even_orders (order * 2)) srs /\
       all_poles st'
       = Some (map (map (fun z => cdiv (cneg (clog z)) (c_of_real dt)))
                   srs)).
Proof.
  split.
  - intros a st Hpy Hinit.
    destruct (init_ok_inv a Hpy Hinit)
      as (lo & up & frf0 & frf1 & fq0 & c & order & _ & _ & _ & _ & _ & _ &
          _ & _ & _ & _ & _ & _ & _ & Sfreq & _ & _ & Hdt).
    exists (slice_to c fq0). split; assumption.
  - intros st st' dt Hrun Hdt. unfold get_poles in Hrun.
    cbv [mbind lift attr assign throw] in Hrun.
    cbn [freq lower pol_order_high frf reset_pole_lists] in Hrun.
    destruct (freq st) as [[fq|k rows]|];
      cbn [from_option freq lower pol_order_high frf reset_pole_lists]
        in Hrun;
      try discriminate.
    + destruct (lower st) as [lo|];
        cbn [from_option freq lower pol_order_high frf reset_pole_lists]
          in Hrun;
        [|discriminate].
      destruct (nearest_index fq lo) as [lower_ind|];
        cbn [from_option freq lower pol_order_high frf reset_pole_lists]
          in Hrun;
        [|discriminate].
      destruct (pol_order_high st) as [order|];
        cbn [from_option freq lower pol_order_high frf reset_pole_lists]
          in Hrun;
        [|discriminate].
      destruct (frf st) as [[z|ncols rows]|];
        cbn [from_option freq lower pol_order_high frf reset_pole_lists]
          in Hrun;
        try discriminate.
      destruct (build_normal_matrices ncols rows lower_ind (order * 2))
        as [m|]; [|discriminate].
      destruct (mfor (even_orders (order * 2)) (poles_of_order m)
                     (reset_pole_lists st)) as [t r] eqn:Hloop.
      destruct r as [[]|e]; [|discriminate]. injection Hrun as <-.
      destruct (@poles_loop m dt (even_orders (order * 2)) [] []
                  (reset_pole_lists st) t) as [srs [H2 Hall]];
        [exact Hdt|reflexivity|constructor|exact Hloop|].
      exists m, order, srs. split; [reflexivity|]. split; assumption.
    + destruct (lower st); discriminate.
Qed.

End Poles.

(** ** The reconstructor *)

Section Reconstructor.

Context {Sc : Scalar} {Np : Numpy}.

Lemma mfold_ok {X B} (P : B -> Prop) (body : X -> B -> method B)
  (s : lscf) (xs : list X) :
  forall acc,
    P acc ->
    (forall x b, In x xs -> P b ->
       exists b', body x b s = (s, Ok b') /\ P b') ->
    exists b', mfold xs body acc s = (s, Ok b') /\ P b'.
Proof.
  induction xs as [|x xs IH]; intros acc Hacc Hbody.
  - exists acc. split; [reflexivity|exact Hacc].
  - destruct (Hbody x acc (or_introl eq_refl) Hacc) as [b1 [E1 P1]].
    destruct (IH b1 P1) as [b' [E' P']].
    + intros y b Hy. apply Hbody. right. exact Hy.
    + exists b'. split; [|exact P'].
      cbn [mfold]. cbv [mbind]. rewrite E1. exact E'.
Qed.

Lemma mmap_ok {X Y} (Q : Y -> Prop) (f : X -> method Y) (s : lscf)
  (xs : list X) :
  (forall x, In x xs -> exists y, f x s = (s, Ok y) /\ Q y) ->
  exists ys, mmap f xs s = (s, Ok ys) /\
             length ys = length xs /\ Forall Q ys.
Proof.
  induction xs as [|x xs IH]; intros Hf.
  - exists []. repeat split. constructor.
  - destruct (Hf x (or_introl eq_refl)) as [y [Ey Qy]].
    destruct IH as [ys [Eys [Hlen HQ]]].
    + intros z Hz. apply Hf. right. exact Hz.
    + exists (y :: ys). cbn [mmap]. cbv [mbind ret]. rewrite Ey.
      rewrite Eys.
      split; [reflexivity|]. split; [simpl; f_equal; exact Hlen|].
      constructor; assumption.
Qed.

(** The object whose poles [lsfd] uses. *)
Definition pole_owner (whose_poles : option lscf) (self : lscf) : lscf :=
  match whose_poles with None => self | Some other => other end.

(** The modal constants [self.A] as [lsfd] lays them out from the
    solution rows [A_LSFD]: one column per pole. *)
Definition modal_constants (M_2 : nat) (A_LSFD : list (list F))
  : matrix complex :=
  {| ncols := M_2;
     mrows := map (fun row =>
                map (fun n =>
                       cneg (cadd (c_of_real (nth n row f_zero))
                               (cmul c_i (c_of_real
                                  (nth (M_2 + n) row f_zero)))))
                    (seq 0 M_2))
                A_LSFD |}.

(** A fit that succeeds, step by step. *)
Lemma modal_fit_inv (whose_poles : option lscf)
  (f_lower f_upper : option F) (complex_mode upper_r lower_r : bool)
  (self self' : lscf) (a : matrix complex) :
  modal_fit whose_poles f_lower f_upper complex_mode upper_r lower_r self
  = (self', Ok a) ->
  exists refs ps k rows A_LSFD lrv urv,
    pole_ind (pole_owner whose_poles self) = Some refs /\
    length ps = length refs /\
    frf self = Some (FrfArray k rows) /\
    length A_LSFD = length rows /\
    a = modal_constants (length ps) A_LSFD /\
    self' = set_modal a lrv urv ps self /\
    length lrv = length rows /\ length urv = length rows.
Proof.
  unfold modal_fit. cbv [mbind lift attr assign ret throw].
  fold (pole_owner whose_poles self).
  destruct (pole_ind (pole_owner whose_poles self)) as [refs|] eqn:Erefs;
    cbn [from_option]; [|discriminate].
  match goal with
  | |- context [map_result ?f refs] =>
      destruct (map_result f refs) as [ps|] eqn:Eps; [|discriminate]
  end.
  apply map_result_length in Eps.
  intros H.
  destruct f_lower as [lo|]; [|destruct (lower self) as [lo|];
    cbn [from_option] in H; [|discriminate]];
  (destruct f_upper as [up|]; [|destruct (upper self) as [up|];
     cbn [from_option] in H; [|discriminate]]);
  (destruct (freq self) as [[fq|k2 rows2]|]; cbn [from_option] in H;
     try discriminate);
  (destruct (nearest_index fq lo) as [lower_ind|]; [|discriminate]);
  (destruct (nearest_index fq up) as [upper_ind|]; [|discriminate]);
  (destruct (frf self) as [[z|k rows]|] eqn:Efrf; cbn [from_option] in H;
     try discriminate);
  (match type of H with
   | context [linalg_pinv ?n ?m] =>
       destruct (linalg_pinv n m) as [p|]; [|discriminate]
   end);
  (match type of H with
   | context [map_result ?f ?l] =>
       destruct (map_result f l) as [A_LSFD|] eqn:EA; [|discriminate]
   end);
  apply map_result_length in EA; rewrite length_map in EA;
  cbn [modal_A set_modal from_option] in H;
  injection H as <- <-;
  exists refs, ps, k, rows, A_LSFD;
  eexists; eexists;
  (split; [reflexivity|]); (split; [exact Eps|]);
  (split; [reflexivity|]); (split; [exact EA|]);
  (split; [reflexivity|]); (split; [reflexivity|]);
  rewrite !length_map; split; exact EA.
Qed.

Lemma py_index_in_range (len i : nat) :
  (i < len)%nat -> py_index len (Z.of_nat i) = Ok i.
Proof.
  intros Hi. unfold py_index.
  destruct (Z.leb_spec 0 (Z.of_nat i)); [|lia].
  destruct (Z.ltb_spec (Z.of_nat i) (Z.of_nat len)); [|lia].
  cbn [andb]. f_equal. lia.
Qed.

(** After a fit, reconstructing an existing output returns one value per
    entry of [omega] and leaves the object as it is. *)
Lemma FRF_reconstruct_ok (s : lscf) (om : list F) (a : matrix complex)
  (ps lrv urv : list complex) (i : nat) :
  omega s = Some om -> modal_A s = Some a -> poles s = Some ps ->
  LR s = Some lrv -> UR s = Some urv ->
  length ps = ncols a ->
  (i < length (mrows a))%nat -> (i < length lrv)%nat ->
  (i < length urv)%nat ->
  exists row, FRF_reconstruct (Z.of_nat i) s = (s, Ok row) /\
              length row = length om.
Proof.
  intros Hom Ha Hps Hlr Hur Hlen Hi Hil Hiu.
  unfold FRF_reconstruct. cbv [mbind attr lift ret].
  rewrite Hom, Ha. cbn [from_option].
  match goal with
  | |- context [mfold ?xs ?body ?acc s] =>
      destruct (@mfold_ok _ _ (fun b => length b = length om) body s xs acc)
        as [acc' [E Hacc]]
  end.
  - apply repeat_length.
  - intros n b Hn Hb. apply in_seq in Hn.
    rewrite (py_index_in_range Hi). rewrite Hps. cbn [from_option].
    destruct (nth_error ps n) as [p|] eqn:Ep.
    + cbn [from_option]. eexists. split; [reflexivity|].
      rewrite length_map, length_combine, Hb. lia.
    + apply nth_error_None in Ep. lia.
  - rewrite E. rewrite Hlr, Hur. cbn [from_option].
    rewrite (py_index_in_range Hil), (py_index_in_range Hiu).
    eexists. split; [reflexivity|].
    rewrite length_map, length_combine, Hacc. lia.
Qed.

Lemma broadcast_rev_spec (s1 s2 : list nat) :
  match broadcast_rev s1 s2 with
  | Ok s => length s = Nat.max (length s1) (length s2)
  | Raise e => e = ValueError
  end.
Proof.
  revert s2. induction s1 as [|a s1 IH]; intros s2.
  - destruct s2; reflexivity.
  - destruct s2 as [|b s2]; [reflexivity|].
    cbn [broadcast_rev]. specialize (IH s2).
    destruct (broadcast_rev s1 s2) as [rest|e]; cbn [bind]; [|exact IH].
    destruct (a =? b)%nat; [simpl; lia|].
    destruct (a =? 1)%nat; [simpl; lia|].
    destruct (b =? 1)%nat; [simpl; lia|reflexivity].
Qed.

Lemma broadcast_spec (s1 s2 : list nat) :
  match broadcast s1 s2 with
  | Ok s => length s = Nat.max (length s1) (length s2)
  | Raise e => e = ValueError
  end.
Proof.
  unfold broadcast.
  pose proof (broadcast_rev_spec (rev s1) (rev s2)) as H.
  destruct (broadcast_rev (rev s1) (rev s2)) as [r|e]; cbn [bind];
    [|exact H].
  rewrite length_rev. rewrite !length_rev in H. exact H.
Qed.

(** A one-dimensional array cannot take a two-dimensional sum in place. *)
Lemma inplace_add_2d (len : nat) (rhs : list nat) :
  length rhs = 2%nat -> inplace_add [len] rhs = Raise ValueError.
Proof.
  intros Hrhs. unfold inplace_add.
  pose proof (broadcast_spec [len] rhs) as H.
  destruct (broadcast [len] rhs) as [s|e]; cbn [bind]; [|subst; reflexivity].
  destruct (list_eq_dec Nat.eq_dec s [len]) as [->|_]; [|reflexivity].
  rewrite Hrhs in H. simpl in H. discriminate H.
Qed.

(** With a [bool] for index the reconstruction always stops at an
    exception of NumPy. *)
Lemma FRF_reconstruct_mask_raises (s : lscf) (b : bool) (om : list F)
  (a : matrix complex) (ps lrv urv : list complex) :
  omega s = Some om -> modal_A s = Some a -> poles s = Some ps ->
  LR s = Some lrv -> UR s = Some urv ->
  length ps = ncols a ->
  exists e, FRF_reconstruct_mask b s = (s, Raise e) /\
            (e = IndexError \/ e = ValueError).
Proof.
  intros Hom Ha Hps Hlr Hur Hlen.
  unfold FRF_reconstruct_mask. cbv [mbind attr lift ret].
  rewrite Hom, Ha. cbn [from_option].
  destruct (ncols a) as [|m] eqn:Hm.
  - cbn [seq mfold]. cbv [ret]. rewrite Hlr, Hur. cbn [from_option].
    pose proof (broadcast_spec [if b then 1%nat else 0%nat; length lrv]
                               [length om]) as H1.
    destruct (broadcast _ [length om]) as [low|e1];
      [|exists e1; split; [reflexivity|right; exact H1]].
    pose proof (broadcast_spec low [if b then 1%nat else 0%nat; length urv])
      as H2.
    destruct (broadcast low _) as [res|e2];
      [|exists e2; split; [reflexivity|right; exact H2]].
    rewrite inplace_add_2d by (rewrite H2, H1; reflexivity).
    exists ValueError. split; [reflexivity|right; reflexivity].
  - cbn [seq mfold]. cbv [mbind attr lift ret].
    destruct (py_index (length (mrows a)) (Z.of_nat 0)) as [r|e0] eqn:Er.
    + rewrite Hps. cbn [from_option].
      destruct (nth_error ps 0) as [p|] eqn:Ep;
        [|apply nth_error_None in Ep; lia].
      cbn [from_option].
      pose proof (broadcast_spec [if b then 1%nat else 0%nat; S m]
                                 [length om]) as H1.
      destruct (broadcast _ [length om]) as [term|e1];
        [|exists e1; split; [reflexivity|right; exact H1]].
      pose proof (broadcast_spec term term) as H2.
      destruct (broadcast term term) as [both|e2];
        [|exists e2; split; [reflexivity|right; exact H2]].
      rewrite inplace_add_2d
        by (rewrite H2, H1; simpl; reflexivity).
      exists ValueError. split; [reflexivity|right; reflexivity].
    + exists e0. split; [reflexivity|]. left.
      unfold py_index in Er.
      destruct ((0 <=? Z.of_nat 0)%Z && (Z.of_nat 0 <? Z.of_nat _)%Z);
        [discriminate|].
      destruct ((- Z.of_nat _ <=? Z.of_nat 0)%Z && (Z.of_nat 0 <? 0)%Z);
        [discriminate|].
      injection Er as <-. reflexivity.
Qed.

(** What a fit leaves on the object. *)
Lemma set_modal_attrs (a : matrix complex) (lrv urv ps : list complex)
  (self : lscf) :
  let s := set_modal a lrv urv ps self in
  omega s = omega self /\ frf s = frf self /\ modal_A s = Some a /\
  poles s = Some ps /\ LR s = Some lrv /\ UR s = Some urv.
Proof. repeat split; reflexivity. Qed.

(** C1, as the code has it.  When [lsfd] with [FRF_ind=None] returns, what
    it returns is the modal constants [self.A] alone, with one row per
    output and one column per selected pole (the 2*numPoles+4 columns are
    those of the solution array [A_LSFD], from which [self.A] is cut).
    With [FRF_ind='all'] the same call returns a matrix with one row per
    output and one column per entry of [omega], and the same modal
    constants.  With a string other than 'all', or a float, it raises the
    exception for an invalid selector. *)
Theorem lsfd_returns (whose_poles : option lscf)
  (f_lower f_upper : option F) (complex_mode upper_r lower_r : bool)
  (self self' : lscf) (a : matrix complex) :
  lsfd whose_poles SelNone f_lower f_upper complex_mode upper_r lower_r self
  = (self', Ok (ModalConstants a)) ->
  exists refs k rows,
    pole_ind (pole_owner whose_poles self) = Some refs /\
    frf self = Some (FrfArray k rows) /\
    ncols a = length refs /\
    length (mrows a) = length rows /\
    Forall (fun row => length row = length refs) (mrows a) /\
    (forall om, omega self = Some om ->
       exists H,
         lsfd whose_poles (SelStr "all"%string) f_lower f_upper
              complex_mode upper_r lower_r self
         = (self', Ok (WithAllRows H a)) /\
         ncols H = length om /\
         length (mrows H) = length rows /\
         Forall (fun row => length row = length om) (mrows H)) /\
    (forall s, String.eqb s "all"%string = false ->
       lsfd whose_poles (SelStr s) f_lower f_upper
            complex_mode upper_r lower_r self
       = (self', Raise (Exception selector_must_be_none_all_int))) /\
    (forall x,
       lsfd whose_poles (SelFloat x) f_lower f_upper
            complex_mode upper_r lower_r self
       = (self', Raise (Exception selector_must_be_none_all_int))).
Proof.
  intros Hnone.
  assert (Hfit : modal_fit whose_poles f_lower f_upper complex_mode
                           upper_r lower_r self = (self', Ok a)).
  { unfold lsfd in Hnone. cbv [mbind ret] in Hnone.
    destruct (modal_fit _ _ _ _ _ _ self) as [s1 [a1|e]];
      [|discriminate].
    injection Hnone as <- <-. reflexivity. }
  destruct (modal_fit_inv _ _ _ _ _ _ _ Hfit)
    as (refs & ps & k & rows & A_LSFD & lrv & urv &
        Hrefs & Hps & Hfrf & HA & -> & -> & Hlr & Hur).
  exists refs, k, rows.
  split; [exact Hrefs|]. split; [exact Hfrf|].
  split; [exact Hps|].
  split; [cbn [mrows modal_constants]; rewrite length_map; exact HA|].
  split.
  { cbn [mrows modal_constants]. apply Forall_map, Forall_forall.
    intros row _. rewrite length_map, length_seq. exact Hps. }
  split; [|split].
  - intros om Hom. unfold lsfd. cbv [mbind]. rewrite Hfit.
    change (String.eqb "all"%string "all"%string) with true. cbv iota.
    unfold outputs. cbv [mbind attr ret throw].
    cbn [frf omega set_modal]. rewrite Hfrf.
    cbn [from_option frf omega set_modal]. rewrite Hom.
    cbn [from_option].
    match goal with
    | |- context [mmap ?f ?xs ?s] =>
        destruct (@mmap_ok _ _ (fun row => length row = length om) f s xs)
          as [ys [E [Hlen HQ]]]
    end.
    + intros i Hi. apply in_seq in Hi.
      eapply FRF_reconstruct_ok; try reflexivity.
      * exact Hom.
      * cbn [mrows modal_constants]. rewrite length_map. lia.
      * lia.
      * lia.
    + rewrite E. eexists. split; [reflexivity|].
      cbn [ncols mrows]. split; [reflexivity|].
      split; [rewrite Hlen, length_seq; reflexivity|exact HQ].
  - intros s0 Hs. unfold lsfd. cbv [mbind throw]. rewrite Hfit, Hs.
    reflexivity.
  - intros x. unfold lsfd. cbv [mbind throw]. rewrite Hfit. reflexivity.
Qed.

(** C10, as the code has it.  A Python [bool] as [FRF_ind] passes the
    [isinstance(FRF_ind, int)] test, so after a fit that succeeds the
    invalid-selector exception is not raised and [FRF_reconstruct] is
    called with the [bool] itself.  NumPy then indexes with it as a mask,
    not as 0 or 1, and the call ends in an [IndexError] or a
    [ValueError]; no reconstructed row is returned. *)
Theorem lsfd_boolean_selector (whose_poles : option lscf)
  (f_lower f_upper : option F) (complex_mode upper_r lower_r : bool)
  (self self' : lscf) (a : matrix complex) (om : list F) (b : bool) :
  modal_fit whose_poles f_lower f_upper complex_mode upper_r lower_r self
  = (self', Ok a) ->
  omega self = Some om ->
  lsfd whose_poles (SelBool b) f_lower f_upper complex_mode upper_r lower_r
       self
  = mbind (FRF_reconstruct_mask b) (fun frf_ => ret (WithOneRow frf_ a))
          self' /\
  exists e,
    lsfd whose_poles (SelBool b) f_lower f_upper complex_mode upper_r
         lower_r self
    = (self', Raise e) /\
    (e = IndexError \/ e = ValueError) /\
    e <> Exception selector_must_be_none_all_int.
Proof.
  intros Hfit Hom.
  destruct (modal_fit_inv _ _ _ _ _ _ _ Hfit)
    as (refs & ps & k & rows & A_LSFD & lrv & urv &
        Hrefs & Hps & Hfrf & HA & Ha & Hself & Hlr & Hur).
  destruct (@FRF_reconstruct_mask_raises self' b om a ps lrv urv)
    as [e [He Hkind]]; try (subst self'; reflexivity).
  { subst self'. exact Hom. }
  { subst a. reflexivity. }
  split.
  - unfold lsfd. cbv [mbind]. rewrite Hfit, He. reflexivity.
  - exists e. split; [|split].
    + unfold lsfd. cbv [mbind]. rewrite Hfit, He. reflexivity.
    + exact Hkind.
    + destruct Hkind as [-> | ->]; discriminate.
Qed.

End Reconstructor.





(** ** The guard against a zero angular frequency *)

Lemma design_row_lower_entry {Sc : Scalar} {Np : Numpy}
  (ps : list complex) (complex_mode upper_r : bool) (w : F) :
  nth (2 * length ps) (design_row ps complex_mode upper_r true w) f_zero
  = fopp (fdiv f_one (fmul (guarded w) (guarded w))).
Proof.
  unfold design_row.
  rewrite app_nth2 by (rewrite length_map; lia).
  rewrite app_nth2 by (rewrite !length_map; lia).
  rewrite !length_map.
  replace (2 * length ps - length ps - length ps)%nat with 0%nat by lia.
  reflexivity.
Qed.

(** C8, as the code has it.  Wherever the angular frequency of a bin
    equals zero, 0.01 takes its place, so the value that is squared in
    the lower-residual column is never zero; over the reals its square,
    the divisor, is then not zero either. *)
Theorem lsfd_zero_guard :
  (forall (Sc : Scalar) (Np : Numpy),
     feqb f_0_01 f_zero = false ->
     forall (ps : list complex) (complex_mode upper_r : bool) (w : F),
       (feqb w f_zero = true -> guarded w = f_0_01) /\
       (feqb w f_zero = false -> guarded w = w) /\
       feqb (guarded w) f_zero = false /\
       nth (2 * length ps) (design_row ps complex_mode upper_r true w) f_zero
       = fopp (fdiv f_one (fmul (guarded w) (guarded w)))) /\
  (forall w : R,
     fmul (guarded (Sc:=ideal) w) (guarded (Sc:=ideal) w) <> 0%R).
Proof.
  split.
  - intros Sc Np Hlit ps complex_mode upper_r w. unfold guarded.
    split; [intros ->; reflexivity|].
    split; [intros ->; reflexivity|].
    split; [|apply design_row_lower_entry].
    destruct (feqb w f_zero) eqn:E; [exact Hlit|exact E].
  - intros w. unfold guarded. cbn [feqb fmul f_zero f_0_01 ideal].
    unfold R_eqb. destruct (Req_dec_T w 0) as [->|Hne]; nra.
Qed.

Lemma lsfd_zero_guard_witness :
  guarded (Sc:=b64) 0%float = f_0_01 /\
  PrimFloat.eqb (guarded (Sc:=b64) 0%float) 0%float = false.
Proof.
  destruct (proj1 lsfd_zero_guard b64 b64_numpy eq_refl [] true true 0%float)
    as [H0 [_ [Hnz _]]].
  split; [apply H0; reflexivity|exact Hnz].
Defined.

(** A bin at 2^-600 Hz: its angular frequency is not zero, so it is not
    replaced, but its square underflows to zero and the lower-residual
    entry is a division by zero. *)
Lemma lsfd_zero_guard_counterexample :
  let w := @fmul b64 (fmul f_two f_pi) 0x1p-600%float in
  feqb w f_zero = false /\
  guarded w = w /\
  feqb (fmul (guarded w) (guarded w)) f_zero = true /\
  lower_residual_entries true w = [neg_infinity; (-0)%float].
Proof. vm_compute. repeat split; reflexivity. Qed.

(** ** Runs of [lsfd] and [get_poles] in binary64 *)

Lemma two_outputs_fit :
  exists a,
    snd (modal_fit None None None false false false two_outputs_object)
    = Ok a.
Proof. eexists. reflexivity. Qed.

(** One pole is selected; the modal constants returned have one column,
    not 2*1+4. *)
Lemma lsfd_returns_counterexample :
  exists a,
    snd (lsfd None SelNone None None false false false two_outputs_object)
    = Ok (ModalConstants a) /\
    pole_ind two_outputs_object = Some [(0, 0)%Z] /\
    ncols a = 1%nat /\
    Forall (fun row => length row = 1%nat) (mrows a) /\
    1%nat <> (2 * 1 + 4)%nat.
Proof.
  eexists. split; [reflexivity|]. split; [reflexivity|].
  split; [reflexivity|]. split; [|lia].
  repeat constructor.
Qed.

Lemma lsfd_returns_witness :
  exists a H,
    snd (lsfd None (SelStr "all"%string) None None false false false
              two_outputs_object)
    = Ok (WithAllRows H a) /\
    ncols a = 1%nat /\ ncols H = 2%nat /\ length (mrows H) = 2%nat.
Proof.
  destruct (lsfd None SelNone None None false false false
                 two_outputs_object) as [self' r] eqn:E.
  assert (Hr : exists a, r = Ok (ModalConstants a)).
  { replace r with (snd (lsfd None SelNone None None false false false
                              two_outputs_object)) by (rewrite E; reflexivity).
    eexists. reflexivity. }
  destruct Hr as [a ->].
  destruct (lsfd_returns _ _ _ _ _ _ _ E)
    as (refs & k & rows & Hrefs & Hfrf & Hcols & _ & _ & Hall & _).
  injection Hrefs as <-. injection Hfrf as <- <-.
  destruct (Hall _ eq_refl) as (H & Hrun & HcH & HrH & _).
  exists a, H. rewrite Hrun. cbn [snd].
  repeat split; assumption.
Defined.

(** [True] as selector is not read as output 1: the call raises. *)
Lemma lsfd_boolean_selector_counterexample :
  snd (lsfd None (SelBool true) None None false false false
            two_outputs_object) = Raise ValueError /\
  snd (lsfd None (SelBool false) None None false false false
            two_outputs_object) = Raise ValueError /\
  exists row a,
    snd (lsfd None (SelInt 1) None None false false false
              two_outputs_object) = Ok (WithOneRow row a).
Proof.
  split; [reflexivity|]. split; [reflexivity|].
  eexists. eexists. reflexivity.
Qed.

Lemma lsfd_boolean_selector_witness :
  exists e,
    snd (lsfd None (SelBool true) None None false false false
              two_outputs_object) = Raise e /\
    (e = IndexError \/ e = ValueError).
Proof.
  destruct (modal_fit None None None false false false two_outputs_object)
    as [self' r] eqn:E.
  assert (Hr : exists a, r = Ok a).
  { replace r with (snd (modal_fit None None None false false false
                                   two_outputs_object))
      by (rewrite E; reflexivity).
    apply two_outputs_fit. }
  destruct Hr as [a ->].
  destruct (lsfd_boolean_selector _ _ _ _ _ _ _ true E eq_refl)
    as [_ (e & Hrun & Hkind & _)].
  exists e. rewrite Hrun. split; [reflexivity|exact Hkind].
Defined.

(** One output over five bins, one order. *)
Definition five_bins : @init_args b64 :=
  {| arg_frf := Some (Seq1 [Cx (Sc:=b64) 1 0; Cx (Sc:=b64) 2 0;
                            Cx (Sc:=b64) 3 0; Cx (Sc:=b64) 4 0;
                            Cx (Sc:=b64) 5 0]%float);
     arg_freq := Some (Seq1 [1; 2; 3; 4; 5]%float);
     arg_dt := None;
     arg_lower := PyInt 0;
     arg_upper := PyInt 5;
     arg_pol_order_high := PyInt 1;
     arg_pyfrf := false |}.

Lemma five_bins_ok : snd (init five_bins blank) = Ok tt.
Proof. reflexivity. Qed.

Lemma five_bins_poles_ok :
  snd (get_poles (fst (init five_bins blank))) = Ok tt.
Proof. reflexivity. Qed.

Lemma sampling_time_and_poles_witness :
  sampling_time (fst (init five_bins blank)) = Some 0.125%float /\
  exists srs,
    all_poles (fst (get_poles (fst (init five_bins blank))))
    = Some (map (@poles_of_roots b64 b64_numpy 0.125%float) srs).
Proof.
  destruct (@sampling_time_and_poles b64 b64_numpy) as [Hinit Hpoles].
  destruct (Hinit five_bins (fst (init five_bins blank)) eq_refl)
    as (fq & Hfq & top & Htop & Hdt).
  { rewrite (surjective_pairing (init five_bins blank)) at 1.
    rewrite five_bins_ok. reflexivity. }
  injection Hfq as <-. injection Htop as <-.
  split; [exact Hdt|].
  destruct (Hpoles (fst (init five_bins blank))
                   (fst (get_poles (fst (init five_bins blank))))
                   0.125%float)
    as (m & order & srs & _ & _ & Hall).
  { rewrite (surjective_pairing (get_poles (fst (init five_bins blank))))
      at 1.
    rewrite five_bins_poles_ok. reflexivity. }
  { exact Hdt. }
  exists srs. exact Hall.
Defined.

(* ================================================================== *)
(** * Further properties *)

(** ** More on [redundant_values] *)

Section Survivors.

Context {Sc : Scalar}.

Lemma seq_increasing (start len : nat) : StronglySorted lt (seq start len).
Proof.
  revert start. induction len as [|len IH]; intros start; cbn [seq].
  - constructor.
  - constructor; [apply IH|].
    apply Forall_forall. intros x Hx. apply in_seq in Hx. lia.
Qed.

Lemma filter_increasing (p : nat -> bool) (l : list nat) :
  StronglySorted lt l -> StronglySorted lt (filter p l).
Proof.
  induction 1 as [|x l Hs IH Hx]; cbn [filter]; [constructor|].
  destruct (p x); [|exact IH].
  constructor; [exact IH|].
  apply Forall_forall. intros y Hy. apply filter_In in Hy as [Hy _].
  rewrite Forall_forall in Hx. apply Hx. exact Hy.
Qed.

Lemma last_entry_kept (omega : list F) (prec : F) :
  omega <> [] -> In (length omega - 1)%nat (kept omega prec).
Proof.
  intros Hne. unfold kept. apply filter_In. split.
  - apply in_seq. destruct omega; [contradiction|]. simpl. lia.
  - apply negb_true_iff. unfold shadowed.
    destruct (existsb _ (seq 0 (length omega))) eqn:E; [|reflexivity].
    apply existsb_exists in E as [i [Hi Hc]]. apply in_seq in Hi.
    apply andb_prop in Hc as [Hlt _]. apply Nat.ltb_lt in Hlt. lia.
Qed.

Lemma kept_far (omega : list F) (prec : F) (j i : nat) :
  In j (kept omega prec) -> (j < i < length omega)%nat ->
  closer_than prec (nth i omega f_zero) (nth j omega f_zero) = false.
Proof.
  intros Hj Hi. unfold kept in Hj. apply filter_In in Hj as [_ Hs].
  apply negb_true_iff in Hs. unfold shadowed in Hs.
  destruct (closer_than prec (nth i omega f_zero) (nth j omega f_zero))
    eqn:E; [|reflexivity].
  assert (Hex : existsb
            (fun i0 => (j <? i0)%nat &&
               closer_than prec (nth i0 omega f_zero) (nth j omega f_zero))
            (seq 0 (length omega)) = true).
  { apply existsb_exists. exists i. split; [apply in_seq; lia|].
    rewrite E. destruct (Nat.ltb_spec j i); [reflexivity|lia]. }
  rewrite Hex in Hs. discriminate.
Qed.

(** X1.  The entries that survive come out in their order; none of them
    has a later entry of the input closer than [prec], so the survivors
    are pairwise apart; and the last entry of the input always survives. *)
Theorem redundant_values_survivors (omega xi : list F) (prec : F) :
  length xi = length omega ->
  exists js,
    redundant_values omega xi prec
    = Ok (map (fun j => [nth j omega f_zero]) js,
          map (fun j => [nth j xi f_zero]) js) /\
    StronglySorted lt js /\
    (forall j, In j js -> (j < length omega)%nat) /\
    (forall j i, In j js -> (j < i < length omega)%nat ->
       closer_than prec (nth i omega f_zero) (nth j omega f_zero) = false) /\
    (omega <> [] -> In (length omega - 1)%nat js).
Proof.
  intros Hlen. exists (kept omega prec).
  split; [apply redundant_values_kept; exact Hlen|].
  split; [apply filter_increasing, seq_increasing|].
  split; [apply kept_in_range|].
  split; [apply kept_far|apply last_entry_kept].
Qed.

Lemma take_raises (a : list F) (js : list nat) :
  (exists j, In j js /\ (length a <= j)%nat) ->
  take a (map (fun j => [j]) js) = Raise IndexError.
Proof.
  unfold take. induction js as [|k js IH]; intros [j [Hj Hle]].
  - destruct Hj.
  - cbn [map map_result].
    destruct (nth_error a k) as [v|] eqn:Ek; cbn [from_option bind].
    + destruct Hj as [->|Hj].
      * apply nth_error_None in Hle. congruence.
      * rewrite IH by (exists j; split; assumption). reflexivity.
    + reflexivity.
Qed.

(** X2.  A damping vector shorter than the frequency vector is an
    [IndexError]: the last frequency always survives, and its damping is
    looked up. *)
Theorem redundant_values_short_xi (omega xi : list F) (prec : F) :
  (length xi < length omega)%nat ->
  redundant_values omega xi prec = Raise IndexError.
Proof.
  intros Hlt. unfold redundant_values. rewrite argwhere_kept.
  rewrite take_kept by apply kept_in_range. cbn [bind].
  rewrite take_raises; [reflexivity|].
  exists (length omega - 1)%nat. split; [|lia].
  apply last_entry_kept. destruct omega; [simpl in Hlt; lia|discriminate].
Qed.

End Survivors.

Lemma redundant_values_survivors_witness :
  exists js,
    redundant_values (Sc:=b64) [1; 2; 3]%float [4; 5; 6]%float f_1em3
    = Ok (map (fun j => [nth j [1; 2; 3]%float (@f_zero b64)]) js,
          map (fun j => [nth j [4; 5; 6]%float (@f_zero b64)]) js) /\
    In 2%nat js.
Proof.
  destruct (@redundant_values_survivors b64 [1; 2; 3]%float [4; 5; 6]%float
              f_1em3 eq_refl) as (js & Hrun & _ & _ & _ & Hlast).
  exists js. split; [exact Hrun|]. apply Hlast. discriminate.
Defined.

Lemma redundant_values_short_xi_witness :
  redundant_values (Sc:=b64) [1; 2; 3]%float [4; 5]%float f_1em3
  = Raise IndexError.
Proof.
  apply (@redundant_values_short_xi b64). simpl. lia.
Defined.

(** ** More on [stabilisation] *)

Section StabilisationRuns.

Context {Sc : Scalar}.

Variable sr : list (list complex).
Variable nmax : nat.
Variables err_fn err_xi : F.

Lemma order_values_ok (n : nat) (poles : list complex) :
  nth_error sr n = Some poles ->
  exists fn xi,
    order_values sr n = Ok (fn, xi) /\
    length xi = length fn /\ (length fn <= length poles)%nat /\
    (poles <> [] -> fn <> []).
Proof.
  intros Hp. unfold order_values. rewrite Hp. cbn [from_option bind].
  set (fr := fst (complex_freq_to_freq_and_damp poles)).
  set (xr := snd (complex_freq_to_freq_and_damp poles)).
  assert (Hfr : length fr = length poles).
  { unfold fr, complex_freq_to_freq_and_damp. cbn [fst].
    rewrite !length_map. reflexivity. }
  assert (Hxr : length xr = length fr).
  { rewrite Hfr. unfold xr, complex_freq_to_freq_and_damp. cbn [snd].
    rewrite length_map, length_combine, length_map. apply Nat.min_id. }
  rewrite (@redundant_values_kept _ fr xr f_1em3 Hxr).
  eexists. eexists. split; [reflexivity|].
  rewrite !length_map. split; [reflexivity|]. split.
  - unfold kept. etransitivity; [apply filter_length_le|].
    rewrite length_seq, Hfr. reflexivity.
  - intros Hne.
    assert (Hfrne : fr <> []).
    { intros E. rewrite E in Hfr. destruct poles; [contradiction|].
      simpl in Hfr. discriminate. }
    pose proof (@last_entry_kept _ fr f_1em3 Hfrne) as Hin.
    destruct (kept fr f_1em3); [destruct Hin|discriminate].
Qed.

Lemma py_index_compared_ok (n : nat) :
  (n < nmax)%nat -> (2 <= nmax)%nat ->
  exists c, py_index nmax (Z.of_nat n - 2) = Ok c.
Proof.
  intros Hn H2. unfold py_index.
  destruct (Z.leb_spec 0 (Z.of_nat n - 2));
    destruct (Z.ltb_spec (Z.of_nat n - 2) (Z.of_nat nmax)); cbn [andb];
    try lia; [eexists; reflexivity|].
  destruct (Z.leb_spec (- Z.of_nat nmax) (Z.of_nat n - 2));
    destruct (Z.ltb_spec (Z.of_nat n - 2) 0); cbn [andb]; try lia.
  eexists; reflexivity.
Qed.

(** The inner loop runs to its end when the rows fit. *)
Lemma stab_cells_ok (n : nat) (fn xi : list (list F)) (k : nat)
  (st : stab_matrices) :
  (n < nmax)%nat -> (2 <= nmax)%nat -> n <> 1%nat ->
  (k <= 2 * nmax)%nat -> stab_shape nmax st ->
  exists st', for_each (seq 0 k) (stab_cell nmax n err_fn err_xi fn xi) st
              = Ok st'.
Proof.
  intros Hn H2 Hn1. induction k as [|k IH]; intros Hk Hsh.
  - exists st. reflexivity.
  - destruct IH as [t Ht]; [lia|exact Hsh|].
    rewrite seq_S, for_each_app, Ht. cbn [bind Nat.add for_each].
    destruct (@stab_cells_run Sc nmax err_fn err_xi n fn xi st t k
                Hsh Hn Hn1 Ht) as [[[Lf _] _] _].
    unfold stab_cell.
    destruct (py_index_compared_ok Hn H2) as [c2 ->]. cbn [bind].
    rewrite (py_index_written Hn). cbn [bind].
    rewrite Lf, (@py_index_in_range (2 * nmax) k) by lia. cbn [bind].
    eexists. reflexivity.
Qed.

Lemma assign_first_column_ok (v m : list (list F)) (k : nat) :
  length m = (2 * nmax)%nat -> length v = k -> (k <= 2 * nmax)%nat ->
  exists m', assign_first_column k v m = Ok m'.
Proof.
  intros Hm Hv Hk. unfold assign_first_column. rewrite Hm, Hv.
  rewrite Nat.min_l by exact Hk. rewrite Nat.eqb_refl.
  eexists. reflexivity.
Qed.

Lemma stab_order_ok (m : nat) (poles : list complex) (st : stab_matrices) :
  (m < nmax)%nat -> (2 <= nmax)%nat ->
  nth_error sr m = Some poles -> (length poles <= 2 * nmax)%nat ->
  stab_shape nmax st ->
  exists st', stab_order sr nmax err_fn err_xi m st = Ok st'.
Proof.
  intros Hm H2 Hp Hle Hsh. rewrite stab_order_eq.
  destruct (order_values_ok m Hp) as (fn & xi & -> & Hlen & Hfn & _).
  cbn [bind].
  destruct (Nat.eqb_spec m 1) as [->|Hm1].
  - destruct Hsh as [[Lf _] [[Lx _] _]].
    destruct (@assign_first_column_ok fn (fn_temp st) (length fn) Lf eq_refl)
      as [ft ->]; [lia|].
    destruct (@assign_first_column_ok xi (xi_temp st) (length fn) Lx Hlen)
      as [xt ->]; [lia|].
    cbn [bind]. eexists. reflexivity.
  - rewrite (py_index_written Hm). cbn [bind].
    apply stab_cells_ok; try assumption. lia.
Qed.

(** [stabilisation] is [stabilisation_on] for the NumPy that stores the
    element. *)
Lemma stabilisation_on_stores :
  stabilisation_on StoresElement sr nmax err_fn err_xi
  = stabilisation sr nmax err_fn err_xi.
Proof. reflexivity. Qed.

(** With a NumPy that rejects the store, the first pole of the lowest
    order ends the call. *)
Lemma stabilisation_on_rejects (p : complex) (ps : list complex) :
  (2 <= nmax)%nat -> nth_error sr 0 = Some (p :: ps) ->
  stabilisation_on RejectsArray sr nmax err_fn err_xi = Raise ValueError.
Proof.
  intros H2 Hp.
  destruct (order_values_ok 0 Hp) as (fn & xi & Hov & _ & _ & Hne).
  unfold order_values in Hov. rewrite Hp in Hov.
  cbn [from_option bind] in Hov.
  unfold stabilisation_on.
  destruct nmax as [|m] eqn:Hm; [lia|]. cbn [seq for_each].
  unfold stab_order_on at 1. rewrite Hp. cbn [from_option bind].
  destruct (complex_freq_to_freq_and_damp (p :: ps)) as [fn0 xi0].
  cbn [fst snd] in Hov. rewrite Hov. cbn [bind Nat.eqb].
  rewrite <- Hm.
  assert (H0 : (0 < nmax)%nat) by lia.
  rewrite (py_index_written H0). cbn [bind].
  destruct fn as [|f fn]; [exfalso; apply Hne; [discriminate|reflexivity]|].
  cbn [length seq for_each]. unfold stab_cell_on at 1.
  destruct (py_index_compared_ok H0) as [c2 ->]; [lia|].
  rewrite (py_index_written H0). cbn [bind].
  assert (Hrows : length (fn_temp (stab_init nmax)) = (2 * nmax)%nat).
  { unfold stab_init, zeros. cbn [fn_temp]. apply repeat_length. }
  rewrite Hrows, (@py_index_in_range (2 * nmax) 0) by lia.
  reflexivity.
Qed.

(** X3.  Whether [stabilisation] returns for the data the chart gives it
    (at least [nmax] orders, none with more than [2*nmax] poles, [nmax]
    other than 1) depends on the NumPy that runs it.  With a NumPy that
    stores the one element of [fn[i]] into a cell (up to 2.3) it returns,
    raising nothing.  With a NumPy that rejects that store (2.4 and
    later) and [nmax] not 0, it raises [ValueError] as soon as the lowest
    order has a pole. *)
Theorem stabilisation_returns :
  nmax <> 1%nat -> (nmax <= length sr)%nat ->
  (forall n poles, (n < nmax)%nat -> nth_error sr n = Some poles ->
                   (length poles <= 2 * nmax)%nat) ->
  (exists st,
     stabilisation_on StoresElement sr nmax err_fn err_xi = Ok st /\
     stabilisation sr nmax err_fn err_xi = Ok st) /\
  ((0 < nmax)%nat ->
   forall p ps, nth_error sr 0 = Some (p :: ps) ->
     stabilisation_on RejectsArray sr nmax err_fn err_xi
     = Raise ValueError).
Proof.
  intros H1 Hsr Hpoles. split.
  - rewrite stabilisation_on_stores. unfold stabilisation.
    assert (Hrun : forall k, (k <= nmax)%nat ->
              exists st,
                for_each (seq 0 k) (stab_order sr nmax err_fn err_xi)
                         (stab_init nmax) = Ok st /\
                stab_invariant sr nmax err_fn err_xi k st).
    { induction k as [|k IH]; intros Hk.
      - exists (stab_init nmax). split; [reflexivity|].
        apply stab_invariant_init.
      - destruct IH as [t [Ht Hinv]]; [lia|].
        destruct (nth_error sr k) as [poles|] eqn:Hp;
          [|apply nth_error_None in Hp; lia].
        destruct (@stab_order_ok k poles t) as [t' Ht'];
          [lia|lia|exact Hp|eapply Hpoles; [|exact Hp]; lia|apply Hinv|].
        exists t'. rewrite seq_S, for_each_app, Ht.
        cbn [bind Nat.add for_each]. rewrite Ht'. split; [reflexivity|].
        eapply stab_invariant_step; [|exact Hinv|exact Ht']. lia. }
    destruct (Hrun nmax (le_n nmax)) as [st [Hst _]].
    exists st. split; exact Hst.
  - intros H0 p ps Hp. apply (@stabilisation_on_rejects p ps); [lia|exact Hp].
Qed.

(** X4.  Whenever [stabilisation] returns, [sr] had at least [nmax]
    orders, no order kept more than [2*nmax] values, and with [nmax = 1]
    the one order had no pole at all: its first pole would be compared
    with column [-2] of a matrix that has one column. *)
Theorem stabilisation_requires (st : stab_matrices) :
  stabilisation sr nmax err_fn err_xi = Ok st ->
  (nmax <= length sr)%nat /\
  (forall n fn xi, (n < nmax)%nat -> order_values sr n = Ok (fn, xi) ->
                   (length fn <= 2 * nmax)%nat) /\
  (nmax = 1%nat -> nth_error sr 0 = Some []).
Proof.
  intros Hrun.
  destruct (stabilisation_columns sr nmax err_fn err_xi Hrun) as [_ Hcols].
  split; [|split].
  - destruct (Nat.le_gt_cases nmax (length sr)) as [H|H]; [exact H|].
    destruct (Hcols (length sr) H) as (fn & xi & Hov & _).
    apply order_values_poles in Hov as [poles Hp].
    assert (nth_error sr (length sr) = None) by (apply nth_error_None; lia).
    congruence.
  - intros n fn xi Hn Hov.
    destruct (Hcols n Hn) as (fn' & xi' & Hov' & Hle & _).
    rewrite Hov in Hov'. inversion Hov'; subst. exact Hle.
  - intros E. subst nmax.
    unfold stabilisation in Hrun. cbn [seq for_each] in Hrun.
    rewrite stab_order_eq in Hrun.
    destruct (nth_error sr 0) as [poles|] eqn:Hp;
      [|unfold order_values in Hrun; rewrite Hp in Hrun; discriminate].
    destruct poles as [|p poles]; [reflexivity|]. exfalso.
    destruct (order_values_ok 0 Hp) as (fn & xi & Hov & _ & _ & Hne).
    rewrite Hov in Hrun. cbn [bind Nat.eqb] in Hrun.
    destruct fn as [|f fn]; [apply Hne; [discriminate|reflexivity]|].
    cbn [length seq for_each] in Hrun.
    unfold stab_cell at 1 in Hrun. cbn in Hrun. discriminate.
Qed.

Lemma count_within_bounds (err : F) (n : nat) (x : F) (col : list F) :
  (0 <= count_within err n x col <= 2 * Z.of_nat n)%Z.
Proof.
  unfold count_within. rewrite mark_map, firstn_map.
  assert (Hlen : (length (firstn (2 * n) col) <= 2 * n)%nat)
    by apply firstn_le_length.
  revert Hlen. generalize (firstn (2 * n) col) as l. intros l Hlen.
  split; [apply sum_indicator_nonneg|].
  transitivity (Z.of_nat (length l)); [|lia].
  clear Hlen. induction l as [|c l IH]; cbn [map length].
  - unfold sum_Z. simpl. lia.
  - rewrite sum_Z_cons. destruct (within err x c); lia.
Qed.

Lemma written_onto (j : nat) :
  (j < nmax)%nat -> exists n, (n < nmax)%nat /\ written nmax n = j.
Proof.
  intros Hj. unfold written.
  destruct (Nat.eq_dec j (nmax - 1)) as [E|E].
  - exists 0%nat. split; [lia|]. cbn [Nat.eqb]. lia.
  - exists (S j). split; [lia|]. cbn [Nat.eqb]. lia.
Qed.

Lemma cell_outside {X} (d : X) (rows cols i j : nat) (m : list (list X)) :
  shape rows cols m -> (cols <= j)%nat -> cell d i j m = d.
Proof.
  intros [Hlen Hrow] Hj. unfold cell.
  destruct (Nat.lt_ge_cases i rows) as [Hi|Hi].
  - apply nth_overflow. rewrite (Hrow i Hi). exact Hj.
  - rewrite (nth_overflow m) by lia. destruct j; reflexivity.
Qed.

(** X5.  The four matrices come back with [2*nmax] rows and [nmax]
    columns, and every stability count lies between 0 and [2*nmax]. *)
Theorem stabilisation_shape_and_counts (st : stab_matrices) :
  stabilisation sr nmax err_fn err_xi = Ok st ->
  shape (2 * nmax) nmax (fn_temp st) /\ shape (2 * nmax) nmax (xi_temp st) /\
  shape (2 * nmax) nmax (test_fn st) /\ shape (2 * nmax) nmax (test_xi st) /\
  forall i j,
    (0 <= cell 0%Z i j (test_fn st) <= 2 * Z.of_nat nmax)%Z /\
    (0 <= cell 0%Z i j (test_xi st) <= 2 * Z.of_nat nmax)%Z.
Proof.
  intros Hrun.
  destruct (stabilisation_columns sr nmax err_fn err_xi Hrun)
    as [[Sf [Sx [Stf Stx]]] Hcols].
  split; [exact Sf|]. split; [exact Sx|]. split; [exact Stf|].
  split; [exact Stx|].
  intros i j. destruct (Nat.lt_ge_cases j nmax) as [Hj|Hj].
  - destruct (written_onto Hj) as [n [Hn <-]].
    destruct (Hcols n Hn) as (fn & xi & _ & _ & _ & Hcell).
    destruct (Hcell i) as (_ & _ & -> & ->).
    destruct ((2 <=? n)%nat && (i <? length fn)%nat).
    + pose proof (count_within_bounds err_fn n (item (nth i fn []))
                    (column f_zero (n - 2) (fn_temp st))).
      pose proof (count_within_bounds err_xi n (item (nth i xi []))
                    (column f_zero (n - 2) (xi_temp st))).
      lia.
    + lia.
  - rewrite (cell_outside 0%Z i Stf Hj), (cell_outside 0%Z i Stx Hj). lia.
Qed.

(** X6.  The order that takes the first-step branch (loop index 1) is
    stored in column 0 but never tested: its column of [test_fn] and
    [test_xi] is zero whatever the poles are. *)
Theorem stabilisation_first_step_untested (st : stab_matrices) :
  (2 <= nmax)%nat ->
  stabilisation sr nmax err_fn err_xi = Ok st ->
  column 0%Z 0 (test_fn st) = repeat 0%Z (2 * nmax) /\
  column 0%Z 0 (test_xi st) = repeat 0%Z (2 * nmax) /\
  exists fn xi,
    order_values sr 1 = Ok (fn, xi) /\
    column f_zero 0 (fn_temp st)
      = map item fn ++ repeat f_zero (2 * nmax - length fn) /\
    column f_zero 0 (xi_temp st)
      = map item xi ++ repeat f_zero (2 * nmax - length xi).
Proof.
  intros H2 Hrun.
  destruct (stabilisation_columns sr nmax err_fn err_xi Hrun)
    as [[Sf [Sx [Stf Stx]]] Hcols].
  destruct (Hcols 1%nat H2) as (fn & xi & Hov & Hle & Hlen & Hcell).
  change (written nmax 1) with 0%nat in Hcell.
  assert (Hz : forall (m : list (list Z)),
            shape (2 * nmax) nmax m ->
            (forall i, cell 0%Z i 0 m = 0%Z) ->
            column 0%Z 0 m = repeat 0%Z (2 * nmax)).
  { intros m Hm Hc.
    rewrite (@column_of_cells Z 0%Z 0 (2 * nmax) nmax 0 (fun _ => 0%Z) 0%Z m
               Hm (Nat.le_0_l _)).
    - cbn [seq map app]. rewrite Nat.sub_0_r. reflexivity.
    - intros i. rewrite Hc. destruct (i <? 0)%nat; reflexivity. }
  split; [apply Hz; [exact Stf|]; intros i; apply (Hcell i)|].
  split; [apply Hz; [exact Stx|]; intros i; apply (Hcell i)|].
  exists fn, xi. split; [exact Hov|]. split.
  - rewrite <- map_item_seq.
    apply (column_of_cells f_zero 0 (fun i => item (nth i fn [])) f_zero
             Sf Hle).
    intros i. apply (Hcell i).
  - rewrite <- map_item_seq, Hlen.
    apply (column_of_cells f_zero 0 (fun i => item (nth i xi [])) f_zero
             Sx Hle).
    intros i. apply (Hcell i).
Qed.

End StabilisationRuns.

Lemma stabilisation_returns_witness :
  (exists st,
     stabilisation three_orders 3 f_1em3 0x1.999999999999ap-5%float = Ok st) /\
  stabilisation_on RejectsArray three_orders 3 f_1em3
                   0x1.999999999999ap-5%float
  = Raise ValueError.
Proof.
  destruct (@stabilisation_returns b64 three_orders 3 f_1em3
              0x1.999999999999ap-5%float) as [[st [_ Hst]] Hrej].
  - lia.
  - simpl. lia.
  - intros [|[|[|n]]] poles Hn Hp; try lia;
      cbn [three_orders nth_error] in Hp; injection Hp as <-;
      cbn [length]; lia.
  - split; [exists st; exact Hst|].
    eapply Hrej; [lia|reflexivity].
Defined.

Lemma stabilisation_requires_witness : (3 <= length three_orders)%nat.
Proof.
  exact (proj1 (@stabilisation_requires b64 three_orders 3 _ _ _
                  three_orders_ok)).
Defined.

Lemma stabilisation_shape_and_counts_witness :
  shape 6 3 (test_fn three_orders_run) /\
  (0 <= cell 0%Z 0 1 (test_fn three_orders_run) <= 6)%Z.
Proof.
  destruct (@stabilisation_shape_and_counts b64 three_orders 3 _ _ _
              three_orders_ok) as (_ & _ & Hs & _ & Hc).
  split; [exact Hs|]. exact (proj1 (Hc 0%nat 1%nat)).
Defined.

Lemma stabilisation_first_step_untested_witness :
  column 0%Z 0 (test_fn three_orders_run) = repeat 0%Z 6.
Proof.
  exact (proj1 (@stabilisation_first_step_untested b64 three_orders 3 _ _ _
                  ltac:(lia) three_orders_ok)).
Defined.

(** ** Conjugates, ranges and [poles_correction] over the reals *)

Section OverTheReals.

Open Scope R_scope.

Lemma R_sign_opp (b : R) : R_sign (- b) = - R_sign b.
Proof.
  unfold R_sign, R_ltb.
  destruct (Rlt_dec 0 (- b)); destruct (Rlt_dec (- b) 0);
    destruct (Rlt_dec 0 b); destruct (Rlt_dec b 0); lra.
Qed.

Lemma R_hypot_opp (a b : R) : R_hypot a (- b) = R_hypot a b.
Proof. unfold R_hypot. f_equal. ring. Qed.

Lemma R_sign_scale (k b : R) : 0 < k -> R_sign (k * b) = R_sign b.
Proof.
  intros Hk. unfold R_sign, R_ltb.
  destruct (Rlt_dec 0 (k * b)); destruct (Rlt_dec (k * b) 0);
    destruct (Rlt_dec 0 b); destruct (Rlt_dec b 0); try lra; nra.
Qed.

Lemma R_hypot_scale (k a b : R) :
  0 <= k -> R_hypot (k * a) (k * b) = k * R_hypot a b.
Proof.
  intros Hk. unfold R_hypot.
  replace (k * a * (k * a) + k * b * (k * b))
    with (k * k * (a * a + b * b)) by ring.
  rewrite sqrt_mult_alt by nra. rewrite sqrt_square by exact Hk.
  reflexivity.
Qed.

Lemma R_sign_abs (b : R) : R_sign b * Rabs b = b.
Proof.
  unfold R_sign, R_ltb.
  destruct (Rlt_dec 0 b).
  - rewrite Rabs_right by lra. ring.
  - destruct (Rlt_dec b 0).
    + rewrite Rabs_left by lra. ring.
    + replace b with 0 by lra. rewrite Rabs_R0. ring.
Qed.

Lemma R_hypot_above (a b : R) : b <> 0 -> Rabs a < R_hypot a b.
Proof.
  intros Hb. unfold R_hypot.
  rewrite <- (sqrt_square (Rabs a)) at 1 by apply Rabs_pos.
  apply sqrt_lt_1_alt. split.
  - pose proof (Rabs_pos a). nra.
  - assert (Rabs a * Rabs a = a * a).
    { unfold Rabs. destruct (Rcase_abs a); ring. }
    assert (0 < b * b) by nra. lra.
Qed.

(** X7.  Over the reals the conjugate of a pole comes out with the
    frequency negated and the damping negated as well. *)
Theorem complex_freq_to_freq_and_damp_conjugate (sr : list (@complex ideal)) :
  Forall (fun p => im p <> 0) sr ->
  complex_freq_to_freq_and_damp
    (map (fun p => Cx (Sc:=ideal) (re p) (- im p)) sr)
  = (map Ropp (fst (complex_freq_to_freq_and_damp sr)),
     map Ropp (snd (complex_freq_to_freq_and_damp sr))).
Proof.
  induction 1 as [|p sr Hb _ IH]; [reflexivity|].
  cbn [map]. rewrite !complex_freq_to_freq_and_damp_cons, IH.
  cbv zeta. cbn [fst snd map re im].
  cbn [fmul fsign fhypot fdiv fopp f_two f_pi ideal].
  rewrite R_sign_opp, R_hypot_opp.
  pose proof (fr_unscaled_nonzero (re p) Hb) as Hnz.
  pose proof PI_RGT_0 as Hpi.
  set (u := R_sign (im p) * R_hypot (re p) (im p)) in *.
  replace (- R_sign (im p) * R_hypot (re p) (im p)) with (- u)
    by (unfold u; ring).
  f_equal; f_equal; field; lra.
Qed.

(** X8.  Over the reals a pole with non-zero imaginary part gets a
    frequency of the sign of that part and a damping strictly between -1
    and 1; a pole in the upper left quarter gets a positive frequency and
    a damping strictly between 0 and 1. *)
Theorem complex_freq_to_freq_and_damp_range (sr : list (@complex ideal)) :
  Forall (fun p => im p <> 0) sr ->
  Forall2 (fun p fr => 0 < fr * im p) sr
          (fst (complex_freq_to_freq_and_damp sr)) /\
  Forall2 (fun p xi => -1 < xi < 1 /\ (re p < 0 -> 0 < im p -> 0 < xi)) sr
          (snd (complex_freq_to_freq_and_damp sr)).
Proof.
  induction 1 as [|p sr Hb _ [IH1 IH2]]; [split; constructor|].
  rewrite complex_freq_to_freq_and_damp_cons. cbv zeta. cbn [fst snd].
  cbn [fmul fsign fhypot fdiv fopp f_two f_pi ideal].
  pose proof PI_RGT_0 as Hpi.
  pose proof (R_hypot_above (re p) Hb) as Hh.
  pose proof (Rabs_pos (re p)) as Hab.
  assert (Hinv : 0 < / R_hypot (re p) (im p))
    by (apply Rinv_0_lt_compat; lra).
  assert (Hq : -1 < re p / R_hypot (re p) (im p) < 1).
  { assert (Hre : - Rabs (re p) <= re p <= Rabs (re p))
      by (unfold Rabs; destruct (Rcase_abs (re p)); lra).
    split.
    - apply Rmult_lt_reg_r with (R_hypot (re p) (im p)); [lra|].
      unfold Rdiv. rewrite Rmult_assoc, Rinv_l by lra. lra.
    - apply Rmult_lt_reg_r with (R_hypot (re p) (im p)); [lra|].
      unfold Rdiv. rewrite Rmult_assoc, Rinv_l by lra. lra. }
  split; constructor; try assumption.
  - unfold R_sign, R_ltb.
    destruct (Rlt_dec 0 (im p)) as [Hpos|Hnpos].
    + rewrite Rmult_1_l.
      assert (0 < R_hypot (re p) (im p) / (2 * PI))
        by (apply Rdiv_lt_0_compat; lra).
      nra.
    + destruct (Rlt_dec (im p) 0) as [Hneg|]; [|lra].
      assert (0 < R_hypot (re p) (im p) / (2 * PI))
        by (apply Rdiv_lt_0_compat; lra).
      replace (-1 * R_hypot (re p) (im p) / (2 * PI))
        with (- (R_hypot (re p) (im p) / (2 * PI))) by (field; lra).
      nra.
  - unfold R_sign, R_ltb.
    destruct (Rlt_dec 0 (im p)) as [Hpos|Hnpos].
    + rewrite Rmult_1_l.
      replace (- re p / R_hypot (re p) (im p))
        with (- (re p / R_hypot (re p) (im p))) by (field; lra).
      split; [lra|]. intros Hre _.
      assert (re p / R_hypot (re p) (im p) < 0); [|lra].
      unfold Rdiv. nra.
    + destruct (Rlt_dec (im p) 0) as [Hneg|]; [|lra].
      replace (- re p / (-1 * R_hypot (re p) (im p)))
        with (re p / R_hypot (re p) (im p)) by (field; lra).
      split; [lra|]. intros _ Hpos. lra.
Qed.

Lemma poles_correction_scaled (a b df : R) :
  b <> 0 -> 0 < R_hypot a b + 2 * PI * df ->
  poles_correction (Sc:=ideal) R_sqrt.sqrt 4 [Cx (Sc:=ideal) a b] df
  = [Cx (Sc:=ideal)
        ((R_hypot a b + 2 * PI * df) / R_hypot a b * a)
        ((R_hypot a b + 2 * PI * df) / R_hypot a b * b)].
Proof.
  intros Hb Hk. pose proof (R_hypot_pos a Hb) as Hr.
  unfold poles_correction. cbn [map re im]. cbv zeta.
  cbn [fadd fsub fmul fdiv fopp fsign f_zero f_one f_two f_pi ideal].
  fold (R_hypot a b).
  assert (Hrr : a * a + b * b = R_hypot a b * R_hypot a b).
  { unfold R_hypot. rewrite sqrt_sqrt; [reflexivity|nra]. }
  set (r := R_hypot a b) in *.
  assert (Hsq : b * b * (a * a + b * b + 4 * df * PI * (r + df * PI))
                / (a * a + b * b)
                = (Rabs b * ((r + 2 * PI * df) / r))
                  * (Rabs b * ((r + 2 * PI * df) / r))).
  { assert (Rabs b * Rabs b = b * b)
      by (unfold Rabs; destruct (Rcase_abs b); ring).
    rewrite Hrr.
    transitivity (Rabs b * Rabs b * ((r + 2 * PI * df) / r)
                  * ((r + 2 * PI * df) / r)); [|ring].
    rewrite H. field. lra. }
  rewrite Hsq, sqrt_square.
  - f_equal. f_equal.
    + field. lra.
    + rewrite <- Rmult_assoc, R_sign_abs. field. lra.
  - apply Rmult_le_pos; [apply Rabs_pos|].
    apply Rlt_le, Rdiv_lt_0_compat; lra.
Qed.

Lemma poles_correction_cons (p : @complex ideal) (sr : list complex)
  (df : R) :
  poles_correction (Sc:=ideal) R_sqrt.sqrt 4 (p :: sr) df
  = poles_correction (Sc:=ideal) R_sqrt.sqrt 4 [p] df
    ++ poles_correction (Sc:=ideal) R_sqrt.sqrt 4 sr df.
Proof. reflexivity. Qed.

(** X9.  Over the reals [poles_correction] moves every pole along its
    ray from the origin: the frequency read off the corrected pole is the
    old one shifted by [df] (in the direction of its sign) and the
    damping is the old one. *)
Theorem poles_correction_shifts (sr : list (@complex ideal)) (df : R) :
  Forall (fun p => im p <> 0 /\
                   0 < R_hypot (re p) (im p) + 2 * PI * df) sr ->
  complex_freq_to_freq_and_damp (poles_correction (Sc:=ideal) R_sqrt.sqrt 4 sr df)
  = (map (fun pf => snd pf + R_sign (im (fst pf)) * df)
         (combine sr (fst (complex_freq_to_freq_and_damp sr))),
     snd (complex_freq_to_freq_and_damp sr)).
Proof.
  induction 1 as [|[a b] sr [Hb Hk] _ IH]; [reflexivity|].
  cbn [re im] in Hb, Hk.
  rewrite poles_correction_cons, (poles_correction_scaled a Hb Hk).
  cbn [app]. rewrite !complex_freq_to_freq_and_damp_cons, IH.
  cbv zeta. cbn [fst snd map combine re im].
  cbn [fmul fsign fhypot fdiv fopp f_two f_pi ideal].
  pose proof (R_hypot_pos a Hb) as Hr. pose proof PI_RGT_0 as Hpi.
  assert (Hpos : 0 < (R_hypot a b + 2 * PI * df) / R_hypot a b)
    by (apply Rdiv_lt_0_compat; lra).
  rewrite (R_sign_scale b Hpos), (R_hypot_scale a b (Rlt_le _ _ Hpos)).
  pose proof (fr_unscaled_nonzero a Hb) as Hnz.
  assert (Hs : R_sign b <> 0).
  { intros E. apply Hnz. rewrite E. ring. }
  set (r := R_hypot a b) in *. set (s := R_sign b) in *.
  assert (Hss : s * s = 1).
  { unfold s. destruct (R_sign_cases Hb) as [-> | ->]; ring. }
  f_equal; f_equal.
  - transitivity (s * r / (2 * PI) + s * df); [field; lra|reflexivity].
  - field. split; [|split]; lra.
Qed.

Lemma complex_freq_to_freq_and_damp_conjugate_witness :
  complex_freq_to_freq_and_damp
    (map (fun p => Cx (Sc:=ideal) (re p) (- im p)) [Cx (Sc:=ideal) (-3) 4])
  = (map Ropp (fst (complex_freq_to_freq_and_damp [Cx (Sc:=ideal) (-3) 4])),
     map Ropp (snd (complex_freq_to_freq_and_damp [Cx (Sc:=ideal) (-3) 4]))).
Proof.
  apply (@complex_freq_to_freq_and_damp_conjugate [Cx (Sc:=ideal) (-3) 4]).
  constructor; [cbn [im]; lra|constructor].
Defined.

Lemma complex_freq_to_freq_and_damp_range_witness :
  Forall2 (fun p xi => -1 < xi < 1 /\ (re p < 0 -> 0 < im p -> 0 < xi))
          [Cx (Sc:=ideal) (-3) 4]
          (snd (complex_freq_to_freq_and_damp [Cx (Sc:=ideal) (-3) 4])).
Proof.
  apply (@complex_freq_to_freq_and_damp_range [Cx (Sc:=ideal) (-3) 4]).
  constructor; [cbn [im]; lra|constructor].
Defined.

Lemma poles_correction_shifts_witness :
  complex_freq_to_freq_and_damp
    (poles_correction (Sc:=ideal) R_sqrt.sqrt 4 [Cx (Sc:=ideal) (-3) 4] 1)
  = (map (fun pf => snd pf + R_sign (im (fst pf)) * 1)
         (combine [Cx (Sc:=ideal) (-3) 4]
            (fst (complex_freq_to_freq_and_damp [Cx (Sc:=ideal) (-3) 4]))),
     snd (complex_freq_to_freq_and_damp [Cx (Sc:=ideal) (-3) 4])).
Proof.
  apply (@poles_correction_shifts [Cx (Sc:=ideal) (-3) 4] 1).
  constructor; [|constructor]. cbn [re im].
  assert (Hb : 4 <> 0) by lra.
  split; [exact Hb|].
  pose proof (R_hypot_pos (-3) Hb). pose proof PI_RGT_0. lra.
Defined.

(** X10.  [redundant_values] does not remove the negative-frequency twin
    of a conjugate pair: over the reals, for a pole [p] off the real axis
    and no nearer than [pi/1000] to the origin, the conversion of
    [[p, conj p]] followed by [redundant_values] at the precision 1e-3 of
    [stabilisation] keeps both frequencies, [fr] and [-fr], and both
    dampings. *)
Theorem conjugate_pair_both_kept (p : @complex ideal) :
  im p <> 0 -> PI / 1000 <= R_hypot (re p) (im p) ->
  let fr := R_sign (im p) * R_hypot (re p) (im p) / (2 * PI) in
  let xi := - re p / (R_sign (im p) * R_hypot (re p) (im p)) in
  let pair := [p; Cx (Sc:=ideal) (re p) (- im p)] in
  redundant_values (fst (complex_freq_to_freq_and_damp pair))
                   (snd (complex_freq_to_freq_and_damp pair)) f_1em3
  = Ok ([[fr]; [- fr]], [[xi]; [- xi]]).
Proof.
  intros Hb Hfar fr xi pair. unfold pair.
  assert (Hcf : complex_freq_to_freq_and_damp
                  [p; Cx (Sc:=ideal) (re p) (- im p)]
                = ([fr; - fr], [xi; - xi])).
  { rewrite !complex_freq_to_freq_and_damp_cons. cbv zeta.
    cbn [fst snd re im complex_freq_to_freq_and_damp map combine].
    cbn [fmul fsign fhypot fdiv fopp f_two f_pi ideal].
    rewrite R_sign_opp, R_hypot_opp.
    pose proof (fr_unscaled_nonzero (re p) Hb) as Hnz.
    pose proof PI_RGT_0 as Hpi.
    unfold fr, xi.
    set (u := R_sign (im p) * R_hypot (re p) (im p)) in *.
    replace (- R_sign (im p) * R_hypot (re p) (im p)) with (- u)
      by (unfold u; ring).
    f_equal; f_equal; f_equal; field; lra. }
  rewrite Hcf. cbn [fst snd].
  rewrite (@redundant_values_kept ideal [fr; - fr] [xi; - xi] f_1em3 eq_refl).
  assert (Hkept : kept (Sc:=ideal) [fr; - fr] f_1em3 = [0%nat; 1%nat]).
  { unfold kept, shadowed. cbn [length seq filter existsb Nat.ltb Nat.leb
                                andb orb negb nth].
    assert (Hfar2 : closer_than (Sc:=ideal) f_1em3 (- fr) fr = false).
    { unfold closer_than. cbn [fltb fabs fsub f_1em3 ideal]. unfold R_ltb.
      destruct (Rlt_dec (Rabs (- fr - fr)) (1 / 1000)) as [Hlt|];
        [|reflexivity].
      exfalso. pose proof PI_RGT_0 as Hpi.
      pose proof (R_hypot_pos (re p) Hb) as Hr.
      assert (Habs : Rabs (- fr - fr)
                     = R_hypot (re p) (im p) / PI).
      { replace (- fr - fr) with (- (2 * fr)) by ring.
        rewrite Rabs_Ropp. unfold fr.
        destruct (R_sign_cases Hb) as [-> | ->].
        - rewrite Rabs_right; [field; lra|].
          apply Rle_ge. apply Rmult_le_pos; [lra|].
          apply Rlt_le, Rdiv_lt_0_compat; lra.
        - rewrite Rabs_left; [field; lra|].
          assert (0 < R_hypot (re p) (im p) / (2 * PI))
            by (apply Rdiv_lt_0_compat; lra).
          replace (-1 * R_hypot (re p) (im p) / (2 * PI))
            with (- (R_hypot (re p) (im p) / (2 * PI))) by (field; lra).
          lra. }
      rewrite Habs in Hlt.
      assert (1 / 1000 <= R_hypot (re p) (im p) / PI); [|lra].
      apply Rmult_le_reg_r with PI; [lra|].
      unfold Rdiv at 2. rewrite Rmult_assoc, Rinv_l by lra. lra. }
    rewrite Hfar2. reflexivity. }
  rewrite Hkept. reflexivity.
Qed.

Lemma conjugate_pair_both_kept_witness :
  exists fr xi,
    redundant_values
      (fst (complex_freq_to_freq_and_damp
              [Cx (Sc:=ideal) (-3) 4; Cx (Sc:=ideal) (-3) (- 4)]))
      (snd (complex_freq_to_freq_and_damp
              [Cx (Sc:=ideal) (-3) 4; Cx (Sc:=ideal) (-3) (- 4)])) f_1em3
    = Ok ([[fr]; [- fr]], [[xi]; [- xi]]).
Proof.
  eexists. eexists.
  apply (@conjugate_pair_both_kept (Cx (Sc:=ideal) (-3) 4)); cbn [re im].
  - lra.
  - rewrite R_hypot_3_4. pose proof PI_4. lra.
Defined.

End OverTheReals.

(** ** More on the constructor *)

Section Construction.

Context {Sc : Scalar} {Np : Numpy}.

(** X11.  In pyFRF mode the arrays and [dt] given to the constructor are
    not looked at: [frf] is the integer 0, and [freq], [omega] and
    [sampling_time] stay unset, so that [get_poles] on the new object is
    an [AttributeError]. *)
Theorem init_pyfrf_mode (a : init_args) (lo up : F) (order : Z) :
  arg_pyfrf a = true ->
  py_float (arg_lower a) = Some lo -> fltb lo f_zero = false ->
  py_float (arg_upper a) = Some up -> fltb up lo = false ->
  py_int (arg_pol_order_high a) = Some order -> (0 < order)%Z ->
  exists st,
    init a blank = (st, Ok tt) /\
    st = set_pol_order_high order
           (set_frf (FrfInt 0) (set_upper up (set_lower lo blank))) /\
    freq st = None /\ omega st = None /\ sampling_time st = None /\
    snd (get_poles st) = Raise AttributeError.
Proof.
  intros Hpy Hlo Hnn Hup Hge Ho Hpos.
  eexists. split; [|split; [reflexivity|]].
  - unfold init. rewrite Hlo, Hup, Hpy, Ho.
    cbv [mbind assign throw ret]. rewrite Hnn, Hge.
    destruct (Z.leb_spec order 0); [lia|]. reflexivity.
  - repeat split; reflexivity.
Qed.

(** X12.  When [upper] is nearest to the first entry of [freq], the cut
    keeps nothing.  Without [dt] the constructor then ends in the
    [IndexError] of [self.freq[-1]]; with [dt] it returns an object with
    empty [freq] and [omega], on which [get_poles] is a [ValueError]. *)
Theorem init_empty_band (a : init_args) (lo up : F) (order : Z)
  (frf0 frf1 : array_like complex) (fq0 : list F) :
  arg_pyfrf a = false ->
  py_float (arg_lower a) = Some lo -> fltb lo f_zero = false ->
  py_float (arg_upper a) = Some up -> fltb up lo = false ->
  arg_frf a = Some frf0 -> asarray frf0 = Some frf1 ->
  arg_freq a = Some (Seq1 fq0) ->
  nearest_index fq0 up = Ok 0%nat ->
  py_int (arg_pol_order_high a) = Some order -> (0 < order)%Z ->
  (arg_dt a = None -> snd (init a blank) = Raise IndexError) /\
  (forall dt, arg_dt a = Some dt ->
     exists st,
       init a blank = (st, Ok tt) /\
       freq st = Some (Seq1 []) /\ omega st = Some [] /\
       sampling_time st = Some dt /\
       snd (get_poles st) = Raise ValueError).
Proof.
  intros Hpy Hlo Hnn Hup Hge Hfrf Ha Hfreq Hc Ho Hpos.
  assert (Hrun : forall d, arg_dt a = d ->
            init a blank
            = (let st0 :=
                 set_omega []
                   (set_pol_order_high order
                      (set_freq (Seq1 [])
                         (set_frf (match frf1 with
                                   | Seq1 v => FrfArray 0 [slice_to 0 v]
                                   | Seq2 k rows =>
                                       FrfArray 0 (map (slice_to 0) rows)
                                   end)
                            (set_freq (Seq1 fq0)
                               (set_frf (match frf1 with
                                         | Seq1 v => FrfArray (length v) [v]
                                         | Seq2 k rows => FrfArray k rows
                                         end)
                                  (set_upper up (set_lower lo blank))))))) in
               match d with
               | None => (st0, Raise IndexError)
               | Some dt => (set_sampling_time dt st0, Ok tt)
               end)).
  { intros d Hd. unfold init, store_arrays.
    rewrite Hlo, Hup, Hpy, Hfrf, Hfreq, Ho, Hd.
    cbv [mbind assign throw ret lift attr]. rewrite Hnn, Hge, Ha.
    cbn [from_option asarray]. rewrite Hc.
    destruct (Z.leb_spec order 0); [lia|].
    destruct frf1 as [v|k rows];
      cbn [frf freq set_frf set_freq set_pol_order_high from_option
           slice_to firstn map Nat.min];
      destruct d; reflexivity. }
  split.
  - intros Hd. rewrite (Hrun None Hd). reflexivity.
  - intros dt Hd. rewrite (Hrun (Some dt) Hd). cbv zeta.
    eexists. split; [reflexivity|].
    repeat split; reflexivity.
Qed.

End Construction.

Lemma init_pyfrf_mode_witness :
  exists st,
    init (Sc:=b64)
         {| arg_frf := None; arg_freq := None; arg_dt := None;
            arg_lower := PyInt 0; arg_upper := PyInt 3;
            arg_pol_order_high := PyInt 2; arg_pyfrf := true |} blank
    = (st, Ok tt) /\
    frf st = Some (FrfInt 0) /\
    snd (get_poles (Np:=b64_numpy) st) = Raise AttributeError.
Proof.
  destruct (@init_pyfrf_mode b64 b64_numpy
              {| arg_frf := None; arg_freq := None; arg_dt := None;
                 arg_lower := PyInt 0; arg_upper := PyInt 3;
                 arg_pol_order_high := PyInt 2; arg_pyfrf := true |}
              0 3 2%Z eq_refl eq_refl eq_refl eq_refl eq_refl eq_refl
              ltac:(lia))
    as (st & Hrun & Hst & _ & _ & _ & Hget).
  exists st. split; [exact Hrun|]. split; [|exact Hget].
  rewrite Hst. reflexivity.
Defined.

(** Three bins, with [upper] at the first of them. *)
Definition upper_at_first_bin (dt : option float) : @init_args b64 :=
  {| arg_frf := Some (Seq1 [Cx (Sc:=b64) 1 0; Cx (Sc:=b64) 2 0;
                            Cx (Sc:=b64) 3 0]);
     arg_freq := Some (Seq1 [1; 2; 3]);
     arg_dt := dt;
     arg_lower := PyInt 0;
     arg_upper := PyInt 1;
     arg_pol_order_high := PyInt 1;
     arg_pyfrf := false |}.

Lemma init_empty_band_witness :
  snd (init (upper_at_first_bin None) blank) = Raise IndexError /\
  exists st,
    init (upper_at_first_bin (Some 0.5)) blank = (st, Ok tt) /\
    snd (get_poles (Np:=b64_numpy) st) = Raise ValueError.
Proof.
  split.
  - apply (proj1 (@init_empty_band b64 b64_numpy (upper_at_first_bin None)
                    0 1 1%Z _ _ [1; 2; 3]
                    eq_refl eq_refl eq_refl eq_refl eq_refl eq_refl eq_refl
                    eq_refl eq_refl eq_refl ltac:(lia))).
    reflexivity.
  - destruct (proj2 (@init_empty_band b64 b64_numpy
                       (upper_at_first_bin (Some 0.5))
                       0 1 1%Z _ _ [1; 2; 3]
                       eq_refl eq_refl eq_refl eq_refl eq_refl eq_refl
                       eq_refl eq_refl eq_refl eq_refl ltac:(lia))
                    0.5 eq_refl)
      as (st & Hrun & _ & _ & _ & Hget).
    exists st. split; assumption.
Defined.

Section ExclusiveCut.

Open Scope R_scope.

Lemma nth_distance (fq : list R) (up : R) (k : nat) :
  (k < length fq)%nat ->
  nth k (map (fun f : R => @fabs ideal (@fsub ideal f up)) fq) 0
  = Rabs (nth k fq 0 - up).
Proof.
  intros Hk. cbn [fabs fsub ideal].
  rewrite (nth_indep _ 0 (Rabs (0 - up))) by (rewrite length_map; exact Hk).
  rewrite (map_nth (fun f : R => Rabs (f - up))). reflexivity.
Qed.

(** The index nearest to a value that occurs in the vector is the index
    of an occurrence. *)
Lemma nearest_index_exact (fq : list R) (up : R) (c : nat) :
  In up fq -> nearest_index (Sc:=ideal) fq up = Ok c ->
  (c < length fq)%nat /\ nth c fq 0 = up.
Proof.
  intros Hin Hc. unfold nearest_index in Hc.
  apply argmin_least in Hc as [Hlt Hmin].
  rewrite length_map in Hlt, Hmin. split; [exact Hlt|].
  apply (In_nth _ _ 0) in Hin as [k [Hk Hup]].
  specialize (Hmin k Hk).
  change (@F ideal) with R in *.
  rewrite !nth_distance in Hmin by assumption.
  rewrite Hup in Hmin.
  replace (up - up) with 0 in Hmin by ring. rewrite Rabs_R0 in Hmin.
  pose proof (Rabs_pos (nth c fq 0 - up)) as Hp.
  assert (Hz : Rabs (nth c fq 0 - up) = 0) by lra.
  destruct (Req_dec (nth c fq 0 - up) 0) as [E|E]; [lra|].
  apply Rabs_no_R0 in E. contradiction.
Qed.

(** X13.  The band ends before [upper]: over the reals, when [upper] is
    one of the frequencies of an ascending [freq], a constructor that
    returns has kept exactly the frequencies below [upper]; the bin at
    [upper] itself is dropped, from [freq] and from every row of
    [frf]. *)
Theorem init_upper_is_exclusive (a : @init_args ideal) (st : @lscf ideal)
  (fq0 : list R) (up : R) :
  arg_pyfrf a = false ->
  arg_freq a = Some (Seq1 fq0) -> ascending fq0 ->
  py_float (arg_upper a) = Some up -> In up fq0 ->
  init a blank = (st, Ok tt) ->
  exists c fq cols rows,
    nth c fq0 0 = up /\ (c < length fq0)%nat /\
    fq = firstn c fq0 /\
    freq st = Some (Seq1 fq) /\
    Forall (fun f => f < up) fq /\
    frf st = Some (FrfArray cols rows) /\
    Forall (fun row => (length row <= c)%nat) rows.
Proof.
  intros Hpy Hfreq Hasc Hup Hin Hinit.
  destruct (init_ok_inv a Hpy Hinit)
    as (lo' & up' & frf0 & frf1 & fq0' & c & order & _ & _ & Eup & _ &
        _ & _ & Efq & Ec & _ & _ & _ & _ & _ & Sfreq & Sfrf & _).
  rewrite Hup in Eup. injection Eup as <-.
  rewrite Hfreq in Efq. injection Efq as <-.
  destruct (@nearest_index_exact fq0 up c Hin Ec) as [Hc Hat].
  change (@F ideal) with R in *.
  assert (Hbelow : Forall (fun f => f < up) (firstn c fq0)).
  { apply Forall_forall. intros f Hf.
    apply (In_nth _ _ 0) in Hf as [i [Hi Hf]].
    rewrite length_firstn in Hi. rewrite nth_firstn in Hf.
    destruct (Nat.ltb_spec i c); [|lia].
    rewrite <- Hf, <- Hat. apply Hasc. lia. }
  destruct frf1 as [v|k rows].
  - exists c, (firstn c fq0), (Nat.min c (length v)), [slice_to c v].
    repeat (split; [first [assumption|reflexivity]|]).
    constructor; [|constructor].
    unfold slice_to. rewrite length_firstn. lia.
  - exists c, (firstn c fq0), (Nat.min c k), (map (slice_to c) rows).
    repeat (split; [first [assumption|reflexivity]|]).
    apply Forall_map, Forall_forall. intros row _.
    unfold slice_to. rewrite length_firstn. lia.
Qed.

Lemma init_upper_is_exclusive_witness :
  exists c fq,
    nth c [1; 2] 0 = 2 /\
    freq (fst (init two_bins blank)) = Some (Seq1 fq) /\
    Forall (fun f => f < 2) fq.
Proof.
  destruct (@init_upper_is_exclusive two_bins (fst (init two_bins blank))
              [1; 2] 2 eq_refl eq_refl)
    as (c & fq & cols & rows & Hat & _ & _ & Hfq & Hlt & _).
  - intros i j Hij. cbn [length] in Hij.
    destruct i as [|[|i]]; destruct j as [|[|j]]; try lia.
    cbn [nth]. lra.
  - reflexivity.
  - right. left. reflexivity.
  - rewrite (surjective_pairing (init two_bins blank)).
    rewrite two_bins_ok. reflexivity.
  - exists c, fq. repeat split; assumption.
Defined.

End ExclusiveCut.

(** ** More on [get_poles] *)

Section PoleLists.

Context {Sc : Scalar} {Np : Numpy}.

(** One pass of the loop touches the four pole lists only. *)
Lemma poles_of_order_frame (m : normal_matrices) (j : nat) (t : lscf) :
  reset_pole_lists (fst (poles_of_order m j t)) = reset_pole_lists t.
Proof.
  unfold poles_of_order. cbv [mbind lift attr assign ret].
  destruct (order_polynomial m j) as [coeffs|]; [|reflexivity].
  destruct (roots coeffs) as [sr|]; [|reflexivity].
  destruct (sampling_time t) as [dt|]; cbn [from_option]; [|reflexivity].
  destruct (companion coeffs) as [ct|]; [|reflexivity].
  destruct (linalg_eig ct) as [vw|]; [|reflexivity].
  destruct (last_item (snd vw)) as [last_row|]; [|reflexivity].
  destruct (partfactors t) as [pf|]; cbn [from_option]; [|reflexivity].
  destruct (complex_freq_to_freq_and_damp (poles_of_roots dt sr))
    as [f_pole ceta].
  cbn [all_poles pole_freq pole_xi set_partfactors].
  destruct (all_poles t) as [ps|]; cbn [from_option]; [|reflexivity].
  destruct (pole_freq t) as [fs|]; cbn [from_option]; [|reflexivity].
  destruct (pole_xi t) as [xs|]; cbn [from_option]; reflexivity.
Qed.

Lemma mfor_frame (m : normal_matrices) (js : list nat) (t : lscf) :
  reset_pole_lists (fst (mfor js (poles_of_order m) t)) = reset_pole_lists t.
Proof.
  revert t. induction js as [|j js IH]; intros t; [reflexivity|].
  cbn [mfor]. unfold mbind.
  pose proof (poles_of_order_frame m j t) as Hj.
  destruct (poles_of_order m j t) as [t1 [[]|e]]; cbn [fst] in Hj.
  - rewrite IH. exact Hj.
  - exact Hj.
Qed.

(** [get_poles] touches the four pole lists only. *)
Lemma get_poles_frame (st : lscf) :
  reset_pole_lists (fst (get_poles st)) = reset_pole_lists st.
Proof.
  unfold get_poles. cbv [mbind lift attr assign throw].
  cbn [freq lower pol_order_high frf reset_pole_lists].
  destruct (freq st) as [[fq|k rows]|];
    cbn [from_option freq lower pol_order_high frf reset_pole_lists];
    try reflexivity.
  - destruct (lower st) as [lo|];
      cbn [from_option freq lower pol_order_high frf reset_pole_lists];
      [|reflexivity].
    destruct (nearest_index fq lo) as [lower_ind|];
      cbn [from_option freq lower pol_order_high frf reset_pole_lists];
      [|reflexivity].
    destruct (pol_order_high st) as [order|];
      cbn [from_option freq lower pol_order_high frf reset_pole_lists];
      [|reflexivity].
    destruct (frf st) as [[z|ncols rows]|];
      cbn [from_option freq lower pol_order_high frf reset_pole_lists];
      try reflexivity.
    destruct (build_normal_matrices ncols rows lower_ind (order * 2))
      as [m|]; [|reflexivity].
    pose proof (mfor_frame m (even_orders (order * 2)) (reset_pole_lists st))
      as H.
    destruct (mfor (even_orders (order * 2)) (poles_of_order m)
                   (reset_pole_lists st)) as [t [[]|e]];
      cbn [fst] in H |- *; exact H.
  - destruct (lower st); reflexivity.
Qed.

Lemma get_poles_reads (s t : lscf) :
  reset_pole_lists s = reset_pole_lists t -> get_poles s = get_poles t.
Proof.
  intros H. unfold get_poles. unfold mbind at 1. unfold assign.
  unfold mbind at 1. unfold assign. rewrite H. reflexivity.
Qed.

(** X14.  [get_poles] starts from empty lists each time: run again on
    the object it has left, it gives the same outcome and leaves the same
    object; poles are recomputed, not accumulated. *)
Theorem get_poles_repeatable (st : lscf) :
  get_poles (fst (get_poles st)) = get_poles st /\
  reset_pole_lists (fst (get_poles st)) = reset_pole_lists st.
Proof.
  split; [apply get_poles_reads|]; apply get_poles_frame.
Qed.

(** The frequencies and dampings stored for a list of orders. *)
Definition aligned (t : lscf) (k : nat) : Prop :=
  exists ps pf,
    all_poles t = Some ps /\ partfactors t = Some pf /\
    pole_freq t
    = Some (map (fun p => fst (complex_freq_to_freq_and_damp p)) ps) /\
    pole_xi t
    = Some (map (fun p => snd (complex_freq_to_freq_and_damp p)) ps) /\
    length ps = k /\ length pf = k.

Lemma poles_of_order_aligned (m : normal_matrices) (j k : nat)
  (t t' : lscf) :
  aligned t k -> poles_of_order m j t = (t', Ok tt) -> aligned t' (S k).
Proof.
  intros (ps & pf & Hps & Hpf & Hfs & Hxs & Lps & Lpf).
  unfold poles_of_order. cbv [mbind lift attr assign ret].
  destruct (order_polynomial m j) as [coeffs|]; [|discriminate].
  destruct (roots coeffs) as [sr|]; [|discriminate].
  destruct (sampling_time t) as [dt|]; cbn [from_option]; [|discriminate].
  destruct (companion coeffs) as [ct|]; [|discriminate].
  destruct (linalg_eig ct) as [vw|]; [|discriminate].
  destruct (last_item (snd vw)) as [last_row|]; [|discriminate].
  rewrite Hpf. cbn [from_option].
  destruct (complex_freq_to_freq_and_damp (poles_of_roots dt sr))
    as [f_pole ceta] eqn:Hcf.
  cbn [all_poles pole_freq pole_xi set_partfactors].
  rewrite Hps, Hfs, Hxs. cbn [from_option].
  intros H. injection H as <-.
  exists (ps ++ [poles_of_roots dt sr]), (pf ++ [last_row]).
  cbn [all_poles pole_freq pole_xi partfactors set_pole_lists
       set_partfactors].
  rewrite !map_app, !length_app. cbn [map length]. rewrite Hcf. cbn [fst snd].
  repeat split; try reflexivity; lia.
Qed.

Lemma mfor_aligned (m : normal_matrices) (js : list nat) :
  forall (k : nat) (t t' : lscf),
    aligned t k -> mfor js (poles_of_order m) t = (t', Ok tt) ->
    aligned t' (k + length js).
Proof.
  induction js as [|j js IH]; intros k t t' Hal Hrun.
  - cbn [mfor] in Hrun. cbv [ret] in Hrun. injection Hrun as <-.
    cbn [length]. rewrite Nat.add_0_r. exact Hal.
  - cbn [mfor] in Hrun. cbv [mbind] in Hrun.
    destruct (poles_of_order m j t) as [t1 [[]|e]] eqn:Hstep;
      [|discriminate].
    cbn [length]. rewrite Nat.add_succ_r.
    apply (IH (S k) t1 t'); [|exact Hrun].
    eapply poles_of_order_aligned; eassumption.
Qed.

(** X15.  When [get_poles] returns, the four lists have one entry per
    order, [pol_order_high] of them, and [pole_freq] and [pole_xi] hold,
    order by order, the conversion of the poles in [all_poles]. *)
Theorem get_poles_lists (st st' : lscf) (order : Z) :
  get_poles st = (st', Ok tt) -> pol_order_high st = Some order ->
  exists ps pf,
    all_poles st' = Some ps /\ partfactors st' = Some pf /\
    pole_freq st'
    = Some (map (fun p => fst (complex_freq_to_freq_and_damp p)) ps) /\
    pole_xi st'
    = Some (map (fun p => snd (complex_freq_to_freq_and_damp p)) ps) /\
    length ps = Z.to_nat order /\ length pf = Z.to_nat order.
Proof.
  intros Hrun Ho. unfold get_poles in Hrun.
  cbv [mbind lift attr assign throw] in Hrun.
  cbn [freq lower pol_order_high frf reset_pole_lists] in Hrun.
  destruct (freq st) as [[fq|k rows]|];
    cbn [from_option freq lower pol_order_high frf reset_pole_lists] in Hrun;
    try discriminate.
  - destruct (lower st) as [lo|];
      cbn [from_option freq lower pol_order_high frf reset_pole_lists]
        in Hrun;
      [|discriminate].
    destruct (nearest_index fq lo) as [lower_ind|];
      cbn [from_option freq lower pol_order_high frf reset_pole_lists]
        in Hrun;
      [|discriminate].
    rewrite Ho in Hrun.
    cbn [from_option freq lower pol_order_high frf reset_pole_lists] in Hrun.
    destruct (frf st) as [[z|ncols rows]|];
      cbn [from_option freq lower pol_order_high frf reset_pole_lists]
        in Hrun;
      try discriminate.
    destruct (build_normal_matrices ncols rows lower_ind (order * 2))
      as [m|]; [|discriminate].
    destruct (mfor (even_orders (order * 2)) (poles_of_order m)
                   (reset_pole_lists st)) as [t r] eqn:Hloop.
    destruct r as [[]|e]; [|discriminate]. injection Hrun as <-.
    assert (Hlen : length (even_orders (order * 2)) = Z.to_nat order).
    { unfold even_orders. rewrite length_map, length_seq.
      rewrite Z.div_mul by lia. reflexivity. }
    rewrite <- Hlen.
    apply (@mfor_aligned m (even_orders (order * 2)) 0%nat
             (reset_pole_lists st) t); [|exact Hloop].
    exists [], []. repeat split; reflexivity.
  - destruct (lower st); discriminate.
Qed.

Lemma map_result_raises {X Y} (f : X -> result Y) (e : exn) (xs : list X) :
  (forall x, In x xs -> (exists y, f x = Ok y) \/ f x = Raise e) ->
  (exists x, In x xs /\ f x = Raise e) ->
  map_result f xs = Raise e.
Proof.
  induction xs as [|x xs IH]; intros Hall [x0 [Hin Hx0]]; [destruct Hin|].
  cbn [map_result].
  destruct (Hall x (or_introl eq_refl)) as [[y Hy]|Hr].
  - rewrite Hy. cbn [bind].
    rewrite IH; [reflexivity| |].
    + intros z Hz. apply Hall. right. exact Hz.
    + destruct Hin as [->|Hin]; [congruence|].
      exists x0. split; assumption.
  - rewrite Hr. reflexivity.
Qed.

Lemma py_index_cases (len : nat) (k : Z) :
  (exists j, py_index len k = Ok j) \/ py_index len k = Raise IndexError.
Proof.
  unfold py_index.
  destruct ((0 <=? k)%Z && (k <? Z.of_nat len)%Z); [left; eexists; reflexivity|].
  destruct ((- Z.of_nat len <=? k)%Z && (k <? 0)%Z);
    [left; eexists; reflexivity|right; reflexivity].
Qed.

Lemma py_index_past (len : nat) (k : Z) :
  (Z.of_nat len <= k)%Z -> py_index len k = Raise IndexError.
Proof.
  intros Hk. unfold py_index.
  destruct (Z.ltb_spec k (Z.of_nat len)); [lia|]. rewrite andb_false_r.
  destruct (Z.ltb_spec k 0); [lia|]. rewrite andb_false_r. reflexivity.
Qed.

Section FewBins.

(** [np.fft.irfft(x, n)] returns [n] points. *)
Hypothesis irfft_length :
  forall (row : list complex) (n : nat), length (irfft row n) = n.

(** An index at or past [nf] among the indices asked for is an
    [IndexError], whatever the rows hold. *)
Lemma irfft_at_past (x : list (list complex)) (nf : Z) (indices : list Z)
  (k : Z) :
  x <> [] -> (1 <= nf)%Z -> In k indices -> (nf <= k)%Z ->
  irfft_at x nf indices = Raise IndexError.
Proof.
  intros Hx Hnf Hin Hk. unfold irfft_at.
  destruct (Z.ltb_spec nf 1); [lia|].
  destruct x as [|row x]; [contradiction|].
  cbn [map_result].
  rewrite (@map_result_raises _ _ _ IndexError indices); [reflexivity| |].
  - intros i _. destruct (py_index_cases (length (irfft row (Z.to_nat nf))) i)
      as [[j ->]| ->]; [left; eexists; reflexivity|right; reflexivity].
  - exists k. split; [exact Hin|].
    rewrite py_index_past; [reflexivity|].
    rewrite irfft_length. lia.
Qed.

Lemma in_arange (lo hi k : Z) :
  (lo <= k < hi)%Z -> In k (arange lo hi).
Proof.
  intros Hk. unfold arange. apply in_map_iff.
  exists (Z.to_nat (k - lo)). split; [lia|].
  apply in_seq. lia.
Qed.

(** X16.  [get_poles] needs more than [pol_order_high + 1] frequency
    bins: on an object with at least one output and at least two bins but
    no more than that, the index [2*pol_order_high] asked of the inverse
    transform is out of range and the call is an [IndexError]. *)
Theorem get_poles_too_few_bins (st : lscf) (fq : list F) (lo : F)
  (order : Z) (ncols : nat) (rows : list (list complex)) :
  freq st = Some (Seq1 fq) -> fq <> [] -> lower st = Some lo ->
  pol_order_high st = Some order ->
  frf st = Some (FrfArray ncols rows) -> rows <> [] ->
  (2 <= ncols)%nat -> (Z.of_nat ncols - 1 <= order)%Z ->
  snd (get_poles st) = Raise IndexError.
Proof.
  intros Hfq Hne Hlo Ho Hfrf Hrows Hcols Hfew.
  assert (Hn : exists lower_ind, nearest_index fq lo = Ok lower_ind).
  { unfold nearest_index, argmin.
    destruct fq as [|f fq]; [contradiction|]. cbn [map].
    destruct (find_index is_nan _); eexists; reflexivity. }
  destruct Hn as [lower_ind Hn].
  unfold get_poles. cbv [mbind lift attr assign throw].
  cbn [freq lower pol_order_high frf reset_pole_lists].
  rewrite Hfq. cbn [from_option freq lower pol_order_high frf
                    reset_pole_lists].
  rewrite Hlo. cbn [from_option freq lower pol_order_high frf
                    reset_pole_lists].
  rewrite Hn. cbn [from_option freq lower pol_order_high frf
                   reset_pole_lists].
  rewrite Ho. cbn [from_option freq lower pol_order_high frf
                   reset_pole_lists].
  rewrite Hfrf. cbn [from_option freq lower pol_order_high frf
                     reset_pole_lists].
  assert (Hin : In (order * 2)%Z (arange (- (order * 2)) (order * 2 + 1)))
    by (apply in_arange; lia).
  assert (Hbuild : build_normal_matrices ncols rows lower_ind (order * 2)
                   = Raise IndexError).
  { unfold build_normal_matrices, irfft_adjusted_lower_limit.
    rewrite (@irfft_at_past rows (2 * (Z.of_nat ncols - 1)) _
               (order * 2)%Z);
      [reflexivity|exact Hrows|lia|exact Hin|lia]. }
  rewrite Hbuild. reflexivity.
Qed.

End FewBins.

End PoleLists.

Lemma get_poles_lists_witness :
  exists ps,
    all_poles (fst (get_poles (fst (init five_bins blank)))) = Some ps /\
    length ps = 1%nat.
Proof.
  destruct (@get_poles_lists b64 b64_numpy (fst (init five_bins blank))
              (fst (get_poles (fst (init five_bins blank)))) 1%Z)
    as (ps & pf & Hps & _ & _ & _ & Hlen & _).
  - rewrite (surjective_pairing (get_poles (fst (init five_bins blank))))
      at 1.
    rewrite five_bins_poles_ok. reflexivity.
  - reflexivity.
  - exists ps. split; assumption.
Defined.

Lemma get_poles_too_few_bins_witness :
  snd (get_poles (Np:=b64_numpy) (fst (init two_outputs blank)))
  = Raise IndexError.
Proof.
  apply (@get_poles_too_few_bins b64 b64_numpy
           (fun _ n => repeat_length 0%float n)
           (fst (init two_outputs blank)) [1; 2] 0 1%Z 2
           [[Cx (Sc:=b64) 1 0; Cx (Sc:=b64) 2 0];
            [Cx (Sc:=b64) 4 0; Cx (Sc:=b64) 5 0]]);
    try reflexivity; try discriminate; lia.
Defined.

(** ** More on [lsfd] and [FRF_reconstruct] *)

Section Reconstruction.

Context {Sc : Scalar} {Np : Numpy}.

Lemma mfold_ext {X B} (body body' : X -> B -> method B) (xs : list X) :
  (forall x b s, body x b s = body' x b s) ->
  forall acc s, mfold xs body acc s = mfold xs body' acc s.
Proof.
  intros Hext. induction xs as [|x xs IH]; intros acc s; [reflexivity|].
  cbn [mfold]. unfold mbind. rewrite Hext.
  destruct (body' x acc s) as [s1 [b1|e]]; [apply IH|reflexivity].
Qed.

Lemma mfold_pure {X B} (body : X -> B -> method B) (xs : list X) :
  (forall x b s, fst (body x b s) = s) ->
  forall acc s, fst (mfold xs body acc s) = s.
Proof.
  intros Hp. induction xs as [|x xs IH]; intros acc s; [reflexivity|].
  cbn [mfold]. unfold mbind. specialize (Hp x acc s).
  destruct (body x acc s) as [s1 [b1|e]]; cbn [fst] in Hp; subst s1.
  - apply IH.
  - reflexivity.
Qed.

(** [FRF_reconstruct] assigns nothing. *)
Lemma FRF_reconstruct_pure (k : Z) (s : lscf) :
  fst (FRF_reconstruct k s) = s.
Proof.
  unfold FRF_reconstruct. cbv [mbind attr lift ret].
  destruct (omega s) as [om|]; cbn [from_option]; [|reflexivity].
  destruct (modal_A s) as [a|]; cbn [from_option]; [|reflexivity].
  match goal with
  | |- context [mfold ?xs ?body ?acc s] =>
      pose proof (@mfold_pure _ _ body xs) as Hp;
      specialize (fun H => Hp H acc s);
      destruct (mfold xs body acc s) as [s1 [acc'|e]]
  end.
  - cbn [fst] in Hp. rewrite Hp.
    + destruct (LR s) as [lr|]; cbn [from_option]; [|reflexivity].
      destruct (py_index (length lr) k); [|reflexivity].
      destruct (UR s) as [ur|]; cbn [from_option]; [|reflexivity].
      destruct (py_index (length ur) k); reflexivity.
    + intros n b t.
      destruct (py_index (length (mrows a)) k); [|reflexivity].
      destruct (poles t) as [ps|]; cbn [from_option]; [|reflexivity].
      destruct (nth_error ps n); reflexivity.
  - cbn [fst] in Hp |- *. apply Hp.
    intros n b t.
    destruct (py_index (length (mrows a)) k); [|reflexivity].
    destruct (poles t) as [ps|]; cbn [from_option]; [|reflexivity].
    destruct (nth_error ps n); reflexivity.
Qed.

(** The index matters through [py_index] alone. *)
Lemma FRF_reconstruct_by_index (k k' : Z) (s : lscf) (a : matrix complex)
  (lrv urv : list complex) :
  modal_A s = Some a -> LR s = Some lrv -> UR s = Some urv ->
  py_index (length (mrows a)) k = py_index (length (mrows a)) k' ->
  py_index (length lrv) k = py_index (length lrv) k' ->
  py_index (length urv) k = py_index (length urv) k' ->
  FRF_reconstruct k s = FRF_reconstruct k' s.
Proof.
  intros Ha Hlr Hur Ka Kl Ku.
  unfold FRF_reconstruct. cbv [mbind attr lift ret].
  destruct (omega s) as [om|]; cbn [from_option]; [|reflexivity].
  rewrite Ha. cbn [from_option].
  match goal with
  | |- context [mfold ?xs ?body ?acc s] =>
      match goal with
      | |- _ = match mfold xs ?body' acc s with _ => _ end =>
          rewrite (@mfold_ext _ _ body body' xs);
          [pose proof (@mfold_pure _ _ body' xs) as Hp;
           specialize (fun H => Hp H acc s);
           destruct (mfold xs body' acc s) as [s1 [acc'|e]]|]
      end
  end.
  - cbn [fst] in Hp. rewrite Hp.
    + rewrite Hlr, Hur. cbn [from_option]. rewrite Kl, Ku. reflexivity.
    + intros n b t. destruct (py_index (length (mrows a)) k'); [|reflexivity].
      destruct (poles t) as [ps|]; cbn [from_option]; [|reflexivity].
      destruct (nth_error ps n); reflexivity.
  - reflexivity.
  - intros n b t. rewrite Ka. reflexivity.
Qed.

Lemma py_index_negative (len : nat) (k : Z) :
  (- Z.of_nat len <= k < 0)%Z ->
  py_index len k = Ok (Z.to_nat (k + Z.of_nat len)) /\
  (Z.to_nat (k + Z.of_nat len) < len)%nat.
Proof.
  intros Hk. unfold py_index.
  destruct (Z.leb_spec 0 k); [lia|]. cbn [andb].
  destruct (Z.leb_spec (- Z.of_nat len) k); [|lia].
  destruct (Z.ltb_spec k 0); [|lia]. cbn [andb].
  split; [reflexivity|lia].
Qed.

Lemma py_index_outside (len : nat) (k : Z) :
  (k < - Z.of_nat len \/ Z.of_nat len <= k)%Z ->
  py_index len k = Raise IndexError.
Proof.
  intros Hk. unfold py_index.
  destruct (Z.leb_spec 0 k); destruct (Z.ltb_spec k (Z.of_nat len));
    cbn [andb]; try lia;
    destruct (Z.leb_spec (- Z.of_nat len) k); destruct (Z.ltb_spec k 0);
    cbn [andb]; try lia; reflexivity.
Qed.

(** X17.  After a fit, [FRF_reconstruct] takes the indices Python takes
    for a sequence of one entry per output: for [-n <= k < n] it returns
    one value per entry of [omega], a negative [k] standing for output
    [k + n]; any other integer is an [IndexError].  The object is left as
    it is. *)
Theorem FRF_reconstruct_index (whose_poles : option lscf)
  (f_lower f_upper : option F) (complex_mode upper_r lower_r : bool)
  (self s : lscf) (a : matrix complex) (om : list F) (cols : nat)
  (rows : list (list complex)) (k : Z) :
  modal_fit whose_poles f_lower f_upper complex_mode upper_r lower_r self
  = (s, Ok a) ->
  omega self = Some om -> frf self = Some (FrfArray cols rows) ->
  let n := Z.of_nat (length rows) in
  ((- n <= k < n)%Z ->
     exists row,
       FRF_reconstruct k s = (s, Ok row) /\ length row = length om /\
       ((k < 0)%Z -> FRF_reconstruct (k + n) s = (s, Ok row))) /\
  ((k < - n \/ n <= k)%Z -> FRF_reconstruct k s = (s, Raise IndexError)).
Proof.
  intros Hfit Hom Hfrf n.
  destruct (modal_fit_inv _ _ _ _ _ _ _ Hfit)
    as (refs & ps & k0 & rows0 & A_LSFD & lrv & urv &
        Hrefs & Hps & Hfrf0 & HA & Ha & Hself & Hlr & Hur).
  rewrite Hfrf in Hfrf0. injection Hfrf0 as <- <-.
  assert (Homs : omega s = Some om) by (subst s; exact Hom).
  assert (Has : modal_A s = Some a) by (subst s; reflexivity).
  assert (Hpss : poles s = Some ps) by (subst s; reflexivity).
  assert (Hlrs : LR s = Some lrv) by (subst s; reflexivity).
  assert (Hurs : UR s = Some urv) by (subst s; reflexivity).
  assert (Hcols : length ps = ncols a) by (subst a; reflexivity).
  assert (Hrows : length (mrows a) = length rows).
  { subst a. cbn [mrows modal_constants]. rewrite length_map. exact HA. }
  assert (Hin : forall i, (i < length rows)%nat ->
            exists row, FRF_reconstruct (Z.of_nat i) s = (s, Ok row) /\
                        length row = length om).
  { intros i Hi.
    apply (@FRF_reconstruct_ok Sc Np s om a ps lrv urv i); try assumption;
      lia. }
  split.
  - intros Hk. destruct (Z.ltb_spec k 0) as [Hneg|Hpos].
    + assert (Hsame : forall len, (len = length rows)%nat ->
                py_index len k = py_index len (k + n)).
      { intros len ->. fold n in Hk.
        destruct (@py_index_negative (length rows) k) as [-> Hlt];
          [unfold n in Hk; lia|].
        replace (k + n)%Z with (Z.of_nat (Z.to_nat (k + n)))
          by (unfold n in *; lia).
        rewrite py_index_in_range; [reflexivity|].
        unfold n. exact Hlt. }
      destruct (Hin (Z.to_nat (k + n))) as [row [Hrow Hlen]];
        [unfold n in *; lia|].
      replace (Z.of_nat (Z.to_nat (k + n))) with (k + n)%Z in Hrow
        by (unfold n in *; lia).
      assert (Heq : FRF_reconstruct k s = FRF_reconstruct (k + n) s).
      { apply (@FRF_reconstruct_by_index k (k + n)%Z s a lrv urv Has Hlrs
                 Hurs); apply Hsame; assumption. }
      exists row. rewrite Heq. split; [exact Hrow|].
      split; [exact Hlen|]. intros _. exact Hrow.
    + destruct (Hin (Z.to_nat k)) as [row [Hrow Hlen]];
        [unfold n in *; lia|].
      replace (Z.of_nat (Z.to_nat k)) with k in Hrow by lia.
      exists row. split; [exact Hrow|]. split; [exact Hlen|]. lia.
  - intros Hk. unfold FRF_reconstruct. cbv [mbind attr lift ret].
    rewrite Homs, Has. cbn [from_option].
    assert (Hout : forall len, (len = length rows)%nat ->
              py_index len k = Raise IndexError).
    { intros len ->. apply py_index_outside. exact Hk. }
    destruct (ncols a) as [|m].
    + cbn [seq mfold]. cbv [ret]. rewrite Hlrs. cbn [from_option].
      rewrite (Hout _ Hlr). reflexivity.
    + cbn [seq mfold]. cbv [mbind lift]. rewrite (Hout _ Hrows).
      reflexivity.
Qed.

Lemma mmap_pure_inv {X Y} (f : X -> method Y) (xs : list X) (s s' : lscf)
  (ys : list Y) (dx : X) (dy : Y) :
  (forall x t, fst (f x t) = t) ->
  mmap f xs s = (s', Ok ys) ->
  s' = s /\ length ys = length xs /\
  forall i, (i < length xs)%nat -> f (nth i xs dx) s = (s, Ok (nth i ys dy)).
Proof.
  intros Hp. revert ys. induction xs as [|x xs IH]; intros ys Hrun.
  - cbn [mmap] in Hrun. cbv [ret] in Hrun. injection Hrun as <- <-.
    split; [reflexivity|]. split; [reflexivity|]. intros i Hi. inversion Hi.
  - cbn [mmap] in Hrun. cbv [mbind ret] in Hrun.
    pose proof (Hp x s) as Hx.
    destruct (f x s) as [s1 [y|e]] eqn:Ey; [|discriminate].
    cbn [fst] in Hx. subst s1.
    destruct (mmap f xs s) as [s2 [zs|e]] eqn:Ez; [|discriminate].
    injection Hrun as <- <-.
    destruct (IH zs eq_refl) as [-> [Hlen Hnth]].
    split; [reflexivity|]. split; [simpl; f_equal; exact Hlen|].
    intros [|i] Hi; [exact Ey|]. cbn [nth]. apply Hnth. simpl in Hi. lia.
Qed.

(** X18.  With [FRF_ind='all'] row [i] of the matrix returned is what the
    same call returns for [FRF_ind=i], and there is one row per output. *)
Theorem lsfd_all_rows (whose_poles : option lscf)
  (f_lower f_upper : option F) (complex_mode upper_r lower_r : bool)
  (self self' : lscf) (H a : matrix complex) :
  lsfd whose_poles (SelStr "all"%string) f_lower f_upper complex_mode
       upper_r lower_r self
  = (self', Ok (WithAllRows H a)) ->
  (exists cols rows,
     frf self = Some (FrfArray cols rows) /\
     length (mrows H) = length rows) /\
  forall i, (i < length (mrows H))%nat ->
    lsfd whose_poles (SelInt (Z.of_nat i)) f_lower f_upper complex_mode
         upper_r lower_r self
    = (self', Ok (WithOneRow (nth i (mrows H) []) a)).
Proof.
  intros Hall. unfold lsfd in Hall |- *. cbv [mbind] in Hall |- *.
  destruct (modal_fit whose_poles f_lower f_upper complex_mode upper_r
                      lower_r self) as [s1 [a1|e]] eqn:Hfit;
    [|discriminate].
  change (String.eqb "all"%string "all"%string) with true in Hall.
  cbv iota in Hall.
  destruct (modal_fit_inv _ _ _ _ _ _ _ Hfit)
    as (refs & ps & k0 & rows0 & A_LSFD & lrv & urv &
        _ & _ & Hfrf & _ & _ & Hs1 & _ & _).
  unfold outputs in Hall. cbv [mbind attr ret throw] in Hall.
  assert (Hfrf1 : frf s1 = Some (FrfArray k0 rows0))
    by (subst s1; exact Hfrf).
  rewrite Hfrf1 in Hall. cbn [from_option] in Hall.
  destruct (omega s1) as [om|]; cbn [from_option] in Hall; [|discriminate].
  destruct (mmap (fun i => FRF_reconstruct (Z.of_nat i))
                 (seq 0 (length rows0)) s1) as [s2 [frf_|e]] eqn:Hm;
    [|discriminate].
  injection Hall as <- <- <-.
  destruct (@mmap_pure_inv _ _ (fun i => FRF_reconstruct (Z.of_nat i))
              (seq 0 (length rows0)) s1 s2 frf_ 0%nat []
              (fun x t => FRF_reconstruct_pure (Z.of_nat x) t) Hm)
    as [-> [Hlen Hnth]].
  rewrite length_seq in Hlen, Hnth. cbn [mrows].
  split; [exists k0, rows0; split; [exact Hfrf|exact Hlen]|].
  intros i Hi. rewrite Hlen in Hi. specialize (Hnth i Hi).
  rewrite seq_nth in Hnth by exact Hi. cbn [Nat.add] in Hnth.
  rewrite Hnth. reflexivity.
Qed.

(** The part of [lsfd] after the fit assigns nothing. *)
Lemma lsfd_after_fit_pure (FRF_ind : selector) (a : matrix complex)
  (s : lscf) :
  fst (match FRF_ind with
       | SelNone => ret (ModalConstants a)
       | SelStr str =>
           if String.eqb str "all"%string
           then
             mbind outputs (fun n =>
             mbind (attr omega) (fun om =>
             mbind (mmap (fun i => FRF_reconstruct (Z.of_nat i)) (seq 0 n))
                   (fun frf_ =>
             ret (WithAllRows {| ncols := length om; mrows := frf_ |} a))))
           else throw (Exception selector_must_be_none_all_int)
       | SelBool b =>
           mbind (FRF_reconstruct_mask b)
                 (fun frf_ => ret (WithOneRow frf_ a))
       | SelInt k =>
           mbind (FRF_reconstruct k) (fun frf_ => ret (WithOneRow frf_ a))
       | SelFloat _ => throw (Exception selector_must_be_none_all_int)
       end s) = s.
Proof.
  destruct FRF_ind as [|str|b|k|x]; try reflexivity.
  - destruct (String.eqb str "all"%string); [|reflexivity].
    unfold outputs. cbv [mbind attr ret throw].
    destruct (frf s) as [[z|k rows]|]; cbn [from_option]; try reflexivity.
    destruct (omega s) as [om|]; cbn [from_option]; [|reflexivity].
    assert (Hm : fst (mmap (fun i => FRF_reconstruct (Z.of_nat i))
                           (seq 0 (length rows)) s) = s).
    { generalize (seq 0 (length rows)) as xs.
      induction xs as [|x xs IH]; [reflexivity|].
      cbn [mmap]. cbv [mbind ret].
      pose proof (FRF_reconstruct_pure (Z.of_nat x) s) as Hx.
      destruct (FRF_reconstruct (Z.of_nat x) s) as [s1 [y|e]];
        cbn [fst] in Hx; subst s1; [|reflexivity].
      destruct (mmap _ xs s) as [s2 [ys|e]]; exact IH. }
    destruct (mmap _ (seq 0 (length rows)) s) as [s2 [ys|e]]; exact Hm.
  - cbv [mbind ret].
    assert (Hb : fst (FRF_reconstruct_mask b s) = s).
    { unfold FRF_reconstruct_mask. cbv [mbind attr lift ret].
      destruct (omega s) as [om|]; cbn [from_option]; [|reflexivity].
      destruct (modal_A s) as [a0|]; cbn [from_option]; [|reflexivity].
      match goal with
      | |- context [mfold ?xs ?body ?acc s] =>
          assert (Hp : fst (mfold xs body acc s) = s);
          [|destruct (mfold xs body acc s) as [s1 [acc'|e]];
            cbn [fst] in Hp; subst s1; [|reflexivity]]
      end.
      - apply mfold_pure. intros n sh t.
        destruct (py_index (length (mrows a0)) (Z.of_nat n));
          [|reflexivity].
        destruct (poles t) as [ps|]; cbn [from_option]; [|reflexivity].
        destruct (nth_error ps n); cbn [from_option]; [|reflexivity].
        destruct (broadcast _ [length om]); [|reflexivity].
        destruct (broadcast _ _); reflexivity.
      - destruct (LR s) as [lr|]; cbn [from_option]; [|reflexivity].
        destruct (UR s) as [ur|]; cbn [from_option]; [|reflexivity].
        destruct (broadcast _ [length om]); [|reflexivity].
        destruct (broadcast _ _); [|reflexivity].
        destruct (inplace_add _ _); reflexivity. }
    destruct (FRF_reconstruct_mask b s) as [s1 [y|e]]; exact Hb.
  - cbv [mbind ret].
    pose proof (FRF_reconstruct_pure k s) as Hk.
    destruct (FRF_reconstruct k s) as [s1 [y|e]]; exact Hk.
Qed.

(** A fit that raises has assigned nothing. *)
Lemma modal_fit_raises (whose_poles : option lscf)
  (f_lower f_upper : option F) (complex_mode upper_r lower_r : bool)
  (self self' : lscf) (e : exn) :
  modal_fit whose_poles f_lower f_upper complex_mode upper_r lower_r self
  = (self', Raise e) -> self' = self.
Proof.
  unfold modal_fit. cbv [mbind lift attr assign ret throw].
  destruct (pole_ind _) as [refs|]; cbn [from_option];
    [|intros H; injection H as <- _; reflexivity].
  match goal with
  | |- context [map_result ?f refs] =>
      destruct (map_result f refs) as [ps|];
        [|intros H; injection H as <- _; reflexivity]
  end.
  intros H.
  destruct f_lower as [lo|]; [|destruct (lower self) as [lo|];
    cbn [from_option] in H; [|injection H as <- _; reflexivity]];
  (destruct f_upper as [up|]; [|destruct (upper self) as [up|];
     cbn [from_option] in H; [|injection H as <- _; reflexivity]]);
  (destruct (freq self) as [[fq|k2 rows2]|]; cbn [from_option] in H;
     try (injection H as <- _; reflexivity));
  (destruct (nearest_index fq lo) as [lower_ind|];
     [|injection H as <- _; reflexivity]);
  (destruct (nearest_index fq up) as [upper_ind|];
     [|injection H as <- _; reflexivity]);
  (destruct (frf self) as [[z|k rows]|]; cbn [from_option] in H;
     try (injection H as <- _; reflexivity));
  (match type of H with
   | context [linalg_pinv ?n ?m] =>
       destruct (linalg_pinv n m) as [p|];
         [|injection H as <- _; reflexivity]
   end);
  (match type of H with
   | context [map_result ?f ?l] =>
       destruct (map_result f l) as [A_LSFD|];
         [|injection H as <- _; reflexivity]
   end);
  cbn [modal_A set_modal from_option] in H; discriminate H.
Qed.

(** What the fit reads is not what it assigns. *)
Lemma modal_fit_reads (whose_poles : option lscf)
  (f_lower f_upper : option F) (complex_mode upper_r lower_r : bool)
  (self : lscf) (b : matrix complex) (l u p : list complex) :
  modal_fit whose_poles f_lower f_upper complex_mode upper_r lower_r
            (set_modal b l u p self)
  = (let r := modal_fit whose_poles f_lower f_upper complex_mode upper_r
                        lower_r self in
     match snd r with
     | Ok _ => r
     | Raise e => (set_modal b l u p self, Raise e)
     end).
Proof.
  unfold modal_fit. cbv [mbind lift attr assign ret throw]. cbv zeta.
  destruct whose_poles as [other|];
    cbn [pole_ind all_poles lower upper freq frf set_modal];
    (match goal with
     | |- context [from_option AttributeError (pole_ind ?o)] =>
         destruct (pole_ind o) as [refs|]; cbn [from_option snd];
           [|reflexivity]
     end);
    (match goal with
     | |- context [map_result ?f ?rs] =>
         destruct (map_result f rs) as [ps|]; cbn [snd]; [|reflexivity]
     end);
    (destruct f_lower as [lo|];
       cbn [lower upper freq frf set_modal from_option snd];
       [|destruct (lower self) as [lo|];
         cbn [lower upper freq frf set_modal from_option snd];
         [|reflexivity]]);
    (destruct f_upper as [up|];
       cbn [lower upper freq frf set_modal from_option snd];
       [|destruct (upper self) as [up|];
         cbn [lower upper freq frf set_modal from_option snd];
         [|reflexivity]]);
    (destruct (freq self) as [[fq|k2 rows2]|];
       cbn [lower upper freq frf set_modal from_option snd];
       try reflexivity);
    (destruct (nearest_index fq lo) as [lower_ind|];
       cbn [lower upper freq frf set_modal from_option snd];
       [|reflexivity]);
    (destruct (nearest_index fq up) as [upper_ind|];
       cbn [lower upper freq frf set_modal from_option snd];
       [|reflexivity]);
    (destruct (frf self) as [[z|k rows]|];
       cbn [lower upper freq frf set_modal from_option snd];
       try reflexivity);
    (match goal with
     | |- context [linalg_pinv ?n ?m] =>
         destruct (linalg_pinv n m) as [pm|]; cbn [snd]; [|reflexivity]
     end);
    (match goal with
     | |- context [map_result ?f ?rs] =>
         destruct (map_result f rs) as [A_LSFD|]; cbn [snd]; [|reflexivity]
     end);
    cbn [modal_A set_modal from_option snd]; reflexivity.
Qed.

(** X19.  [lsfd] can be run again: called a second time with the same
    arguments on the object it has left, it gives the same outcome and
    leaves the same object.  When the fit itself raises, the object is
    left as it was before the call, whatever [FRF_ind] is. *)
Theorem lsfd_repeatable (whose_poles : option lscf) (FRF_ind : selector)
  (f_lower f_upper : option F) (complex_mode upper_r lower_r : bool)
  (self : lscf) :
  let run := lsfd whose_poles FRF_ind f_lower f_upper complex_mode upper_r
                  lower_r in
  run (fst (run self)) = run self /\
  (forall e,
     snd (modal_fit whose_poles f_lower f_upper complex_mode upper_r
                    lower_r self) = Raise e ->
     run self = (self, Raise e)).
Proof.
  cbv zeta. unfold lsfd.
  match goal with
  | |- context [mbind (modal_fit _ _ _ _ _ _) ?K] => set (cont := K)
  end.
  assert (Hpure : forall a s, fst (cont a s) = s)
    by (intros a s; exact (lsfd_after_fit_pure FRF_ind a s)).
  unfold mbind.
  destruct (modal_fit whose_poles f_lower f_upper complex_mode upper_r
                      lower_r self) as [s1 [a|e]] eqn:Hfit.
  - split; [|intros e He; discriminate He].
    rewrite Hpure.
    destruct (modal_fit_inv _ _ _ _ _ _ _ Hfit)
      as (refs & ps & k0 & rows0 & A_LSFD & lrv & urv &
          _ & _ & _ & _ & _ & Hs1 & _ & _).
    rewrite Hs1 at 1. rewrite modal_fit_reads, Hfit. cbn [snd]. cbv zeta.
    reflexivity.
  - apply modal_fit_raises in Hfit as Hsame. subst s1. cbn [fst].
    rewrite Hfit.
    split; [reflexivity|]. intros e0 He0. cbn [snd] in He0.
    injection He0 as <-. reflexivity.
Qed.

End Reconstruction.

Lemma FRF_reconstruct_index_witness :
  exists s row,
    modal_fit None None None false false false two_outputs_object
    = (s, Ok (match snd (modal_fit None None None false false false
                                   two_outputs_object) with
              | Ok a => a
              | Raise _ => {| ncols := 0; mrows := [] |}
              end)) /\
    FRF_reconstruct (-1) s = (s, Ok row) /\
    FRF_reconstruct 1 s = (s, Ok row) /\
    FRF_reconstruct 2 s = (s, Raise IndexError).
Proof.
  destruct (modal_fit None None None false false false two_outputs_object)
    as [s r] eqn:E.
  assert (Hr : exists a, r = Ok a).
  { replace r with (snd (modal_fit None None None false false false
                                   two_outputs_object))
      by (rewrite E; reflexivity).
    apply two_outputs_fit. }
  destruct Hr as [a ->]. cbn [snd].
  pose proof (fun k => @FRF_reconstruct_index b64 b64_numpy None None None
                         false false false two_outputs_object s a
                         _ 2
                         [[Cx (Sc:=b64) 1 0; Cx (Sc:=b64) 2 0];
                          [Cx (Sc:=b64) 4 0; Cx (Sc:=b64) 5 0]]
                         k E eq_refl eq_refl) as H.
  cbv zeta in H. cbn [length] in H.
  destruct (H (-1)%Z) as [Hin _].
  destruct Hin as (row & Hrow & _ & Hneg); [lia|].
  exists s, row. split; [reflexivity|]. split; [exact Hrow|].
  split; [apply Hneg; lia|].
  apply (proj2 (H 2%Z)). lia.
Defined.

Lemma lsfd_all_rows_witness :
  exists s H a,
    lsfd None (SelStr "all"%string) None None false false false
         two_outputs_object
    = (s, Ok (WithAllRows H a)) /\
    lsfd None (SelInt 1) None None false false false two_outputs_object
    = (s, Ok (WithOneRow (nth 1 (mrows H) []) a)).
Proof.
  destruct (lsfd None (SelStr "all"%string) None None false false false
                 two_outputs_object) as [s r] eqn:E.
  assert (Hr : exists H a, r = Ok (WithAllRows H a)).
  { replace r with (snd (lsfd None (SelStr "all"%string) None None false
                              false false two_outputs_object))
      by (rewrite E; reflexivity).
    eexists. eexists. reflexivity. }
  destruct Hr as (H & a & ->).
  destruct (@lsfd_all_rows b64 b64_numpy _ _ _ _ _ _ _ _ _ _ E)
    as [(cols & rows & Hfrf & Hlen) Hrows].
  injection Hfrf as <- <-. cbn [length] in Hlen.
  exists s, H, a. split; [reflexivity|].
  apply (Hrows 1%nat). rewrite Hlen. lia.
Defined.

(** ** [add_frf] *)

Section AddFrf.

Context {Sc : Scalar}.

Variable f_0_1 : F.
Variable fgeb : F -> F -> bool.

Lemma masked_axis (p : F -> bool) (l : list F) :
  masked (map p l) l = Ok (filter p l).
Proof.
  unfold masked. rewrite length_map, Nat.eqb_refl. f_equal.
  induction l as [|x l IH]; [reflexivity|].
  cbn [map combine filter fst]. destruct (p x); cbn [map snd]; rewrite IH;
    reflexivity.
Qed.

Lemma masked_other {X} (p : F -> bool) (l : list F) (a : list X) :
  length a = length l ->
  exists row, masked (map p l) a = Ok row /\
              length row = length (filter p l).
Proof.
  intros Hlen. unfold masked. rewrite length_map, Hlen, Nat.eqb_refl.
  eexists. split; [reflexivity|]. rewrite length_map.
  revert a Hlen. induction l as [|x l IH]; intros [|y a] Hlen;
    try discriminate; [reflexivity|].
  cbn [map combine filter fst]. injection Hlen as Hlen.
  destruct (p x); cbn [length]; rewrite (IH a Hlen); reflexivity.
Qed.

Lemma last_item_ok {X} (d : X) (l : list X) :
  l <> [] -> last_item l = Ok (last l d).
Proof.
  intros Hne. unfold last_item.
  rewrite (nth_error_nth' l d) by (destruct l; [contradiction|simpl; lia]).
  cbn [from_option]. rewrite last_is_nth. reflexivity.
Qed.

(** The frequencies [add_frf] keeps. *)
Definition kept_axis (o : pyfrf_object) : list F :=
  filter (fun f => fgeb f f_0_1) (get_f_axis o).

(** The receptance at the frequencies [add_frf] keeps: the entries of
    [get_FRF] whose frequency passes the test. *)
Definition kept_FRF (o : pyfrf_object) : list complex :=
  map snd (filter (fun fz => fgeb (fst fz) f_0_1)
                  (combine (get_f_axis o) (get_FRF o))).

Lemma masked_pairs {X} (p : F -> bool) (l : list F) (a : list X) :
  length a = length l ->
  masked (map p l) a
  = Ok (map snd (filter (fun xa => p (fst xa)) (combine l a))) /\
  combine (filter p l)
          (map snd (filter (fun xa => p (fst xa)) (combine l a)))
  = filter (fun xa => p (fst xa)) (combine l a).
Proof.
  intros Hlen. unfold masked. rewrite length_map, Hlen, Nat.eqb_refl.
  revert a Hlen. induction l as [|x l IH]; intros [|y a] Hlen;
    try discriminate; [split; reflexivity|].
  injection Hlen as Hlen. destruct (IH a Hlen) as [IH1 IH2].
  injection IH1 as IH1.
  cbn [map combine filter fst]. destruct (p x); cbn [map snd combine].
  - rewrite IH1, IH2. split; reflexivity.
  - rewrite IH1, IH2. split; reflexivity.
Qed.

(** [frf] is still the integer of the pyFRF mode, or holds rows of as
    many columns as frequencies are kept. *)
Definition stackable (o : pyfrf_object) (st : lscf)
  (rows : list (list complex)) : Prop :=
  (exists n, frf st = Some (FrfInt n) /\ rows = []) \/
  (frf st = Some (FrfArray (length (kept_axis o)) rows) /\
   Forall (fun r => length r = length (kept_axis o)) rows).

(** X20.  [add_frf] keeps the frequencies from 0.1 up, whatever [lower]
    and [upper] are, and stores the receptance at those frequencies as
    one more row of [frf]: entry [k] of the new row is the entry of
    [get_FRF] that came with the [k]-th frequency kept.  The first call
    replaces the integer of the pyFRF mode by a one-row matrix, a later
    call with an axis that keeps as many frequencies appends the row.
    [freq], [omega] and [sampling_time] are set anew from the axis
    given. *)
Theorem add_frf_stacks (o : pyfrf_object) (st : lscf)
  (rows : list (list complex)) :
  length (get_FRF o) = length (get_f_axis o) ->
  kept_axis o <> [] ->
  stackable o st rows ->
  exists st',
    add_frf f_0_1 fgeb o st = (st', Ok tt) /\
    freq st' = Some (Seq1 (kept_axis o)) /\
    Forall (fun f => fgeb f f_0_1 = true) (kept_axis o) /\
    omega st' = Some (map (fmul (fmul f_two f_pi)) (kept_axis o)) /\
    sampling_time st'
    = Some (fdiv f_one (fmul f_two (last (kept_axis o) f_zero))) /\
    frf st'
    = Some (FrfArray (length (kept_axis o)) (rows ++ [kept_FRF o])) /\
    combine (kept_axis o) (kept_FRF o)
    = filter (fun fz => fgeb (fst fz) f_0_1)
             (combine (get_f_axis o) (get_FRF o)) /\
    length (kept_FRF o) = length (kept_axis o) /\
    stackable o st' (rows ++ [kept_FRF o]) /\
    lower st' = lower st /\ upper st' = upper st.
Proof.
  intros Hlen Hne Hst.
  destruct (@masked_pairs complex (fun f => fgeb f f_0_1) (get_f_axis o)
              (get_FRF o) Hlen) as [Hpick Hpairs].
  fold (kept_FRF o) in Hpick, Hpairs. fold (kept_axis o) in Hpairs.
  assert (Hplen : length (kept_FRF o) = length (kept_axis o)).
  { destruct (@masked_other complex (fun f => fgeb f f_0_1) (get_f_axis o)
                (get_FRF o) Hlen) as [row [Hrow Hrlen]].
    rewrite Hpick in Hrow. injection Hrow as <-. exact Hrlen. }
  remember (kept_FRF o) as picked_frf eqn:Hpf.
  assert (Hpne : picked_frf <> []).
  { intros E. rewrite E in Hplen. destruct (kept_axis o);
      [contradiction|discriminate]. }
  assert (HT : map (fun row => nth 0 row (Cx f_zero f_zero))
                   (map (fun z : complex => [z]) picked_frf) = picked_frf).
  { rewrite map_map. cbn [nth]. apply map_id. }
  assert (Hkept : Forall (fun f => fgeb f f_0_1 = true) (kept_axis o)).
  { apply Forall_forall. intros f Hf. apply filter_In in Hf. apply Hf. }
  assert (Hrun : add_frf f_0_1 fgeb o st
                 = (let st1 :=
                      set_sampling_time
                        (fdiv f_one (fmul f_two (last (kept_axis o) f_zero)))
                        (set_omega (map (fmul (fmul f_two f_pi)) (kept_axis o))
                           (set_freq (Seq1 (kept_axis o)) st)) in
                    match frf st with
                    | None => (st1, Raise AttributeError)
                    | Some (FrfInt _) =>
                        (set_frf (FrfArray (length picked_frf) [picked_frf])
                                 st1, Ok tt)
                    | Some (FrfArray ncols rows0) =>
                        if (ncols =? length picked_frf)%nat
                        then (set_frf (FrfArray ncols (rows0 ++ [picked_frf]))
                                      st1, Ok tt)
                        else (st1, Raise ValueError)
                    end)).
  { unfold add_frf. cbv [mbind lift assign attr ret throw].
    rewrite masked_axis. fold (kept_axis o).
    rewrite (last_item_ok f_zero Hne), Hpick.
    destruct picked_frf as [|z zs] eqn:Ep; [contradiction|].
    rewrite <- Ep in *. rewrite HT, length_map.
    cbn [frf set_sampling_time set_omega set_freq].
    destruct (frf st) as [[n|ncols rows0]|]; cbn [from_option];
      try reflexivity.
    destruct (ncols =? length picked_frf)%nat; reflexivity. }
  rewrite Hrun. cbv zeta.
  destruct Hst as [[n [Hfrf ->]]|[Hfrf Hrows]]; rewrite Hfrf.
  - eexists. split; [reflexivity|].
    cbn [freq omega sampling_time frf lower upper set_frf set_sampling_time
         set_omega set_freq app].
    rewrite Hplen.
    repeat (split; [first [reflexivity|assumption]|]).
    split; [|split; reflexivity].
    right. cbn [frf set_frf]. split; [reflexivity|].
    constructor; [exact Hplen|constructor].
  - rewrite Hplen, Nat.eqb_refl.
    eexists. split; [reflexivity|].
    cbn [freq omega sampling_time frf lower upper set_frf set_sampling_time
         set_omega set_freq].
    repeat (split; [first [reflexivity|assumption]|]).
    split; [|split; reflexivity].
    right. cbn [frf set_frf]. split; [reflexivity|].
    apply Forall_app. split; [exact Hrows|].
    constructor; [exact Hplen|constructor].
Qed.

(** X21.  [add_frf] assigns before it checks.  When no frequency reaches
    0.1 the call ends in the [IndexError] of [self.freq[-1]] with [freq]
    and [omega] already emptied; when the axis keeps another number of
    frequencies than [frf] has columns, it ends in a [ValueError] with
    [freq], [omega] and [sampling_time] already replaced, so that [freq]
    and the rows of [frf] no longer have the same length. *)
Theorem add_frf_failures (o : pyfrf_object) (st : lscf) :
  (kept_axis o = [] ->
   exists st',
     add_frf f_0_1 fgeb o st = (st', Raise IndexError) /\
     freq st' = Some (Seq1 []) /\ omega st' = Some [] /\
     sampling_time st' = sampling_time st /\ frf st' = frf st) /\
  (forall cols rows,
     length (get_FRF o) = length (get_f_axis o) ->
     kept_axis o <> [] ->
     frf st = Some (FrfArray cols rows) -> cols <> length (kept_axis o) ->
     exists st',
       add_frf f_0_1 fgeb o st = (st', Raise ValueError) /\
       freq st' = Some (Seq1 (kept_axis o)) /\
       omega st' = Some (map (fmul (fmul f_two f_pi)) (kept_axis o)) /\
       frf st' = Some (FrfArray cols rows) /\
       sampling_time st'
       = Some (fdiv f_one (fmul f_two (last (kept_axis o) f_zero)))).
Proof.
  split.
  - intros Hnone. unfold add_frf. cbv [mbind lift assign attr ret throw].
    rewrite masked_axis. fold (kept_axis o). rewrite Hnone.
    cbn [last_item length Nat.sub nth_error from_option map].
    eexists. split; [reflexivity|]. repeat split; reflexivity.
  - intros cols rows Hlen Hne Hfrf Hcols.
    destruct (@masked_other complex (fun f => fgeb f f_0_1) (get_f_axis o)
                (get_FRF o) Hlen) as [picked_frf [Hpick Hplen]].
    fold (kept_axis o) in Hplen.
    unfold add_frf. cbv [mbind lift assign attr ret throw].
    rewrite masked_axis. fold (kept_axis o).
    rewrite (last_item_ok f_zero Hne), Hpick.
    destruct picked_frf as [|z zs] eqn:Ep.
    { exfalso. destruct (kept_axis o); [contradiction|discriminate]. }
    rewrite <- Ep in *. rewrite length_map, Hplen.
    cbn [frf set_sampling_time set_omega set_freq]. rewrite Hfrf.
    cbn [from_option].
    destruct (Nat.eqb_spec cols (length (kept_axis o))); [contradiction|].
    eexists. split; [reflexivity|].
    cbn [freq omega frf sampling_time set_sampling_time set_omega
         set_freq].
    repeat split; [exact Hfrf].
Qed.

End AddFrf.

(** ** [_select_closest_poles_on_the_fly] *)

Section OnTheFly.

Context {Sc : Scalar}.

Lemma find_index_in_range {X} (p : X -> bool) (l : list X) (i : nat) :
  find_index p l = Some i -> (i < length l)%nat.
Proof.
  revert i. induction l as [|x l IH]; intros i; cbn [find_index];
    [discriminate|].
  destruct (p x); [intros H; injection H as <-; simpl; lia|].
  destruct (find_index p l) as [j|]; cbn [option_map]; [|discriminate].
  intros H. injection H as <-. specialize (IH j eq_refl). simpl. lia.
Qed.

Lemma first_min_in_range (rest : list F) (best : F) (best_at next : nat) :
  (best_at < next)%nat ->
  (first_min best best_at next rest < next + length rest)%nat.
Proof.
  revert best best_at next. induction rest as [|y rest IH];
    intros best best_at next Hlt; cbn [first_min length].
  - lia.
  - destruct (fltb y best).
    + specialize (IH y next (S next) ltac:(lia)). lia.
    + specialize (IH best best_at (S next) ltac:(lia)). lia.
Qed.

(** [np.argmin] of a non-empty array is an index of the array. *)
Lemma argmin_in_range (l : list F) :
  match argmin l with
  | Ok i => (i < length l)%nat
  | Raise e => l = [] /\ e = ValueError
  end.
Proof.
  unfold argmin. destruct l as [|x rest]; [split; reflexivity|].
  destruct (find_index is_nan (x :: rest)) as [i|] eqn:E.
  - apply find_index_in_range in E. exact E.
  - pose proof (@first_min_in_range rest x 0%nat 1%nat ltac:(lia)) as H.
    simpl. lia.
Qed.

(** X22.  On the lists that [get_poles] leaves (every order with its
    frequencies and dampings, one per pole) and with at least one order,
    none of them empty, a click on the chart always picks a pole that
    exists: the reference appended to [pole_ind] is in range for
    [all_poles], and the frequency and the damping appended to [nat_freq]
    and [nat_xi] are those stored for that pole.  Nothing else
    changes. *)
Theorem select_closest_poles_on_the_fly_picks (c : chart) (self : lscf)
  (ps : list (list complex)) (refs : list pole_ref) :
  all_poles self = Some ps ->
  pole_freq self
  = Some (map (fun p => fst (complex_freq_to_freq_and_damp p)) ps) ->
  pole_xi self
  = Some (map (fun p => snd (complex_freq_to_freq_and_damp p)) ps) ->
  pole_ind self = Some refs ->
  ps <> [] -> Forall (fun order => order <> []) ps ->
  exists y sel order,
    nth_error ps y = Some order /\ (sel < length order)%nat /\
    select_closest_poles_on_the_fly c self
    = ((set_nat_xi
          (nat_xi c
           ++ [nth sel (snd (complex_freq_to_freq_and_damp order)) f_zero])
          (set_nat_freq
             (nat_freq c
              ++ [nth sel (fst (complex_freq_to_freq_and_damp order)) f_zero])
             c),
        set_pole_ind (refs ++ [(Z.of_nat y, Z.of_nat sel)]) self),
       Ok tt).
Proof.
  intros Hps Hfs Hxs Hrefs Hne Hall.
  assert (Hlenf : forall p : list complex,
            length (fst (complex_freq_to_freq_and_damp p)) = length p).
  { intros p. unfold complex_freq_to_freq_and_damp. cbn [fst].
    rewrite !length_map. reflexivity. }
  assert (Hlenx : forall p : list complex,
            length (snd (complex_freq_to_freq_and_damp p)) = length p).
  { intros p. unfold complex_freq_to_freq_and_damp. cbn [snd].
    rewrite length_map, length_combine, length_map. apply Nat.min_id. }
  unfold select_closest_poles_on_the_fly. rewrite Hfs.
  match goal with
  | |- context [argmin ?l] =>
      pose proof (argmin_in_range l) as Hy; destruct (argmin l) as [y|e]
  end.
  2:{ exfalso. destruct Hy as [Hy _]. apply map_eq_nil in Hy.
      unfold arange in Hy. apply map_eq_nil in Hy.
      rewrite length_map in Hy.
      destruct ps; [contradiction|]. cbn [length] in Hy.
      rewrite Z.sub_0_r, Nat2Z.id in Hy. discriminate. }
  rewrite length_map in Hy. unfold arange in Hy.
  rewrite !length_map, length_seq, Z.sub_0_r, Nat2Z.id in Hy.
  destruct (nth_error ps y) as [order|] eqn:Ho;
    [|apply nth_error_None in Ho; lia].
  rewrite nth_error_map, Ho. cbn [option_map].
  assert (Hone : order <> []).
  { rewrite Forall_forall in Hall. apply Hall.
    eapply nth_error_In. exact Ho. }
  match goal with
  | |- context [argmin ?l] =>
      pose proof (argmin_in_range l) as Hs; destruct (argmin l) as [sel|e]
  end.
  2:{ exfalso. destruct Hs as [Hs _]. apply map_eq_nil in Hs.
      apply Hone. apply length_zero_iff_nil.
      rewrite <- (Hlenf order), Hs. reflexivity. }
  rewrite length_map, Hlenf in Hs.
  rewrite Hrefs. cbn [pole_xi set_pole_ind]. rewrite Hxs.
  rewrite nth_error_map, Ho. cbn [option_map].
  rewrite (nth_error_nth' _ f_zero) by (rewrite Hlenf; exact Hs).
  rewrite (nth_error_nth' _ f_zero) by (rewrite Hlenx; exact Hs).
  exists y, sel, order. split; [exact Ho|]. split; [exact Hs|].
  reflexivity.
Qed.

End OnTheFly.

Section NearestPole.

Open Scope R_scope.

Lemma nth_arange_distance (n k : nat) (y : R) :
  (k < n)%nat ->
  nth k (map (fun j => @fabs ideal (@fsub ideal (float_of j) y))
             (arange 0 (Z.of_nat n))) 0
  = Rabs (INR k - y).
Proof.
  intros Hk. unfold arange. rewrite Z.sub_0_r, Nat2Z.id, map_map.
  rewrite nth_map_seq by exact Hk.
  cbn [fabs fsub ideal]. unfold float_of. cbn [of_int ideal].
  rewrite Z.add_0_l, <- INR_IZR_INZ. reflexivity.
Qed.

Lemma nth_shift_distance (fq : list R) (x : R) (j : nat) :
  (j < length fq)%nat ->
  nth j (map (fun f : R => @fabs ideal (@fsub ideal f x)) fq) 0
  = Rabs (nth j fq 0 - x).
Proof.
  intros Hj. cbn [fabs fsub ideal].
  rewrite (nth_indep _ 0 (Rabs (0 - x))) by (rewrite length_map; exact Hj).
  rewrite (map_nth (fun f : R => Rabs (f - x))). reflexivity.
Qed.

(** X23.  Over the reals the pole picked is the nearest one: the order
    index chosen is nearest to the height of the click, and within that
    order the frequency chosen is nearest to the abscissa of the
    click. *)
Theorem select_closest_poles_on_the_fly_nearest (c c' : @chart ideal)
  (self self' : @lscf ideal) (fs : list (list R)) (refs : list pole_ref) :
  pole_freq self = Some fs -> pole_ind self = Some refs ->
  select_closest_poles_on_the_fly c self = ((c', self'), Ok tt) ->
  exists y sel,
    pole_ind self' = Some (refs ++ [(Z.of_nat y, Z.of_nat sel)]) /\
    (y < length fs)%nat /\ (sel < length (nth y fs []))%nat /\
    nat_freq c' = nat_freq c ++ [nth sel (nth y fs []) 0] /\
    (forall k, (k < length fs)%nat ->
       Rabs (INR y - y_data_pole c) <= Rabs (INR k - y_data_pole c)) /\
    (forall j, (j < length (nth y fs []))%nat ->
       Rabs (nth sel (nth y fs []) 0 - x_data_pole c)
       <= Rabs (nth j (nth y fs []) 0 - x_data_pole c)).
Proof.
  intros Hfs Hrefs. unfold select_closest_poles_on_the_fly.
  rewrite Hfs. cbv beta iota.
  match goal with
  | |- context [argmin ?l] => destruct (argmin l) as [y|e] eqn:Ey
  end; cbv beta iota; [|discriminate].
  match goal with
  | |- context [@nth_error ?T ?l y] =>
      destruct (@nth_error T l y) as [order|] eqn:Ho
  end; cbv beta iota; [|discriminate].
  match goal with
  | |- context [argmin ?l] => destruct (argmin l) as [sel|e] eqn:Es
  end; cbv beta iota; [|discriminate].
  rewrite Hrefs. cbv beta iota zeta.
  match goal with
  | |- context [@nth_error ?T order sel] =>
      destruct (@nth_error T order sel) as [f|] eqn:Ef
  end; cbv beta iota; [|discriminate].
  cbn [pole_xi set_pole_ind].
  destruct (pole_xi self) as [xs|]; cbv beta iota; [|discriminate].
  match goal with
  | |- context [@nth_error ?T xs y] =>
      destruct (@nth_error T xs y) as [xorder|]
  end; cbv beta iota; [|discriminate].
  match goal with
  | |- context [@nth_error ?T xorder sel] =>
      destruct (@nth_error T xorder sel) as [x|]
  end; cbv beta iota; [|discriminate].
  intros H. injection H as <- <-.
  apply argmin_least in Ey as [Hy Hymin].
  apply argmin_least in Es as [Hs Hsmin].
  rewrite length_map in Hs, Hsmin.
  rewrite length_map in Hy, Hymin. unfold arange in Hy, Hymin at 1.
  rewrite !length_map, length_seq, Z.sub_0_r, Nat2Z.id in Hy, Hymin.
  assert (Hord : nth y fs [] = order)
    by (apply nth_error_nth; exact Ho).
  exists y, sel. rewrite Hord.
  split; [reflexivity|]. split; [exact Hy|]. split; [exact Hs|].
  split.
  { cbn [nat_freq set_nat_xi set_nat_freq].
    apply (nth_error_nth _ _ 0) in Ef.
    change (@F ideal) with R in *. rewrite Ef. reflexivity. }
  split.
  - intros k Hk. specialize (Hymin k Hk).
    change (@F ideal) with R in *.
    rewrite !nth_arange_distance in Hymin by assumption. exact Hymin.
  - intros j Hj. specialize (Hsmin j Hj).
    change (@F ideal) with R in *.
    rewrite !nth_shift_distance in Hsmin by assumption. exact Hsmin.
Qed.

End NearestPole.

(** ** [irfft_adjusted_lower_limit] *)

Section Transform.

Context {Sc : Scalar} {Np : Numpy}.

Lemma map_result_forall {X Y} (P : Y -> Prop) (f : X -> result Y)
  (xs : list X) (ys : list Y) :
  (forall x y, f x = Ok y -> P y) ->
  map_result f xs = Ok ys -> Forall P ys.
Proof.
  intros Hf. revert ys. induction xs as [|x xs IH]; intros ys;
    cbn [map_result].
  - intros H. injection H as <-. constructor.
  - destruct (f x) as [y|] eqn:Ey; cbn [bind]; [|discriminate].
    destruct (map_result f xs) as [zs|]; cbn [bind]; [|discriminate].
    intros H. injection H as <-.
    constructor; [eapply Hf; exact Ey|apply IH; reflexivity].
Qed.

Lemma irfft_at_shape (x : list (list complex)) (nf : Z) (indices : list Z)
  (a : list (list F)) :
  irfft_at x nf indices = Ok a ->
  length a = length x /\
  Forall (fun row => length row = length indices) a.
Proof.
  unfold irfft_at. destruct (nf <? 1)%Z; [discriminate|].
  intros H. split; [eapply map_result_length; exact H|].
  eapply map_result_forall; [|exact H].
  intros row y Hy. cbv beta in Hy.
  eapply map_result_length. exact Hy.
Qed.

(** X24.  Whenever [irfft_adjusted_lower_limit] returns, the result has
    one row per row of [x] and one column per index asked for; with at
    most one column in [x] the transform length [2*(ncols-1)] is 0 and
    the call is a [ValueError]. *)
Theorem irfft_adjusted_lower_limit_shape (cols : nat)
  (x : list (list complex)) (low_lim : nat) (indices : list Z) :
  (forall y,
     irfft_adjusted_lower_limit cols x low_lim indices = Ok y ->
     length y = length x /\
     Forall (fun row => length row = length indices) y) /\
  ((cols <= 1)%nat ->
   irfft_adjusted_lower_limit cols x low_lim indices = Raise ValueError).
Proof.
  split.
  - intros y. unfold irfft_adjusted_lower_limit.
    destruct (irfft_at x _ indices) as [a|] eqn:Ea; cbn [bind];
      [|discriminate].
    destruct (irfft_at (map _ x) _ indices) as [b|] eqn:Eb; cbn [bind];
      [|discriminate].
    intros H. injection H as <-.
    apply irfft_at_shape in Ea as [La Fa].
    apply irfft_at_shape in Eb as [Lb Fb]. rewrite length_map in Lb.
    split; [rewrite length_map, length_combine; lia|].
    apply Forall_forall. intros row Hrow.
    apply in_map_iff in Hrow as [[ra rb] [<- Hin]].
    rewrite Forall_forall in Fa, Fb.
    pose proof (in_combine_l _ _ _ _ Hin) as Hra.
    pose proof (in_combine_r _ _ _ _ Hin) as Hrb.
    cbn [fst snd]. rewrite length_map, length_combine.
    rewrite (Fa _ Hra), (Fb _ Hrb). apply Nat.min_id.
  - intros Hc. unfold irfft_adjusted_lower_limit, irfft_at.
    destruct (Z.ltb_spec (2 * (Z.of_nat cols - 1)) 1); [reflexivity|lia].
Qed.

End Transform.

Lemma irfft_adjusted_lower_limit_shape_witness :
  irfft_adjusted_lower_limit (Np:=b64_numpy) 1 [[Cx (Sc:=b64) 1 0]] 0 [0%Z]
  = Raise ValueError.
Proof.
  apply (proj2 (@irfft_adjusted_lower_limit_shape b64 b64_numpy 1
                  [[Cx (Sc:=b64) 1 0]] 0 [0%Z])).
  lia.
Defined.

Lemma lsfd_repeatable_witness :
  lsfd (Np:=b64_numpy) None SelNone None None true true true blank
  = (blank, Raise AttributeError).
Proof.
  apply (proj2 (@lsfd_repeatable b64 b64_numpy None SelNone None None
                  true true true blank)).
  reflexivity.
Defined.

(** *** Runs of [add_frf] and of the selection in binary64 *)

Definition b64_geb (x y : float) : bool := PrimFloat.leb y x.

(** A measurement at 0, 1 and 2 Hz. *)
Definition measured : @pyfrf_object b64 :=
  @PyFRF b64 [0; 1; 2]
         [Cx (Sc:=b64) 5 0; Cx (Sc:=b64) 6 0; Cx (Sc:=b64) 7 0].

(** A measurement at 0 Hz alone. *)
Definition measured_at_zero : @pyfrf_object b64 :=
  @PyFRF b64 [0] [Cx (Sc:=b64) 5 0].

Lemma measured_kept :
  kept_axis (Sc:=b64) 0x1.999999999999ap-4 b64_geb measured = [1; 2].
Proof. reflexivity. Qed.

Lemma add_frf_stacks_witness :
  exists st',
    add_frf (Sc:=b64) 0x1.999999999999ap-4 b64_geb measured
            (set_frf (FrfInt 0) blank) = (st', Ok tt) /\
    freq st' = Some (Seq1 [1; 2]) /\
    frf st' = Some (FrfArray 2 [[Cx (Sc:=b64) 6 0; Cx (Sc:=b64) 7 0]]).
Proof.
  destruct (@add_frf_stacks b64 0x1.999999999999ap-4 b64_geb measured
              (set_frf (FrfInt 0) blank) [])
    as (st' & Hrun & Hfreq & _ & _ & _ & Hfrf & _).
  - reflexivity.
  - rewrite measured_kept. discriminate.
  - left. exists 0%Z. split; reflexivity.
  - exists st'. rewrite measured_kept in Hfreq, Hfrf.
    split; [exact Hrun|]. split; [exact Hfreq|]. exact Hfrf.
Defined.

Lemma add_frf_failures_witness :
  (exists st',
     add_frf (Sc:=b64) 0x1.999999999999ap-4 b64_geb measured_at_zero
             (set_frf (FrfInt 0) blank) = (st', Raise IndexError) /\
     freq st' = Some (Seq1 [])) /\
  (exists st',
     add_frf (Sc:=b64) 0x1.999999999999ap-4 b64_geb measured
             (set_frf (FrfArray 3 [[Cx (Sc:=b64) 1 0; Cx (Sc:=b64) 2 0;
                                    Cx (Sc:=b64) 3 0]]) blank)
     = (st', Raise ValueError) /\
     freq st' = Some (Seq1 [1; 2])).
Proof.
  split.
  - destruct (proj1 (@add_frf_failures b64 0x1.999999999999ap-4 b64_geb
                       measured_at_zero (set_frf (FrfInt 0) blank))
                    eq_refl)
      as (st' & Hrun & Hfreq & _).
    exists st'. split; assumption.
  - destruct (proj2 (@add_frf_failures b64 0x1.999999999999ap-4 b64_geb
                       measured
                       (set_frf (FrfArray 3 [[Cx (Sc:=b64) 1 0;
                                              Cx (Sc:=b64) 2 0;
                                              Cx (Sc:=b64) 3 0]]) blank))
                    3%nat [[Cx (Sc:=b64) 1 0; Cx (Sc:=b64) 2 0;
                            Cx (Sc:=b64) 3 0]] eq_refl)
      as (st' & Hrun & Hfreq & _).
    + rewrite measured_kept. discriminate.
    + reflexivity.
    + rewrite measured_kept. cbn [length]. lia.
    + exists st'. rewrite measured_kept in Hfreq. split; assumption.
Defined.

(** An object with one order of two poles, as [get_poles] would leave it,
    and an empty selection. *)
Definition charted : @lscf b64 :=
  let ps := [[Cx (Sc:=b64) (-1) 10; Cx (Sc:=b64) (-1) (-10)]] in
  {| lower := None; upper := None; frf := None; freq := None;
     pol_order_high := None; omega := None; sampling_time := None;
     all_poles := Some ps;
     pole_freq :=
       Some (map (fun p => fst (complex_freq_to_freq_and_damp p)) ps);
     pole_xi :=
       Some (map (fun p => snd (complex_freq_to_freq_and_damp p)) ps);
     partfactors := None; pole_ind := Some []; modal_A := None;
     LR := None; UR := None; poles := None |}.

Definition click : @chart b64 :=
  @Chart b64 1.5 0.25 [] [].

Lemma select_closest_poles_on_the_fly_picks_witness :
  exists y sel order,
    nth_error [[Cx (Sc:=b64) (-1) 10; Cx (Sc:=b64) (-1) (-10)]] y
    = Some order /\
    (sel < length order)%nat /\
    pole_ind (snd (fst (select_closest_poles_on_the_fly click charted)))
    = Some [(Z.of_nat y, Z.of_nat sel)].
Proof.
  destruct (@select_closest_poles_on_the_fly_picks b64 click charted
              [[Cx (Sc:=b64) (-1) 10; Cx (Sc:=b64) (-1) (-10)]] []
              eq_refl eq_refl eq_refl eq_refl)
    as (y & sel & order & Ho & Hs & Hrun).
  - discriminate.
  - constructor; [discriminate|constructor].
  - exists y, sel, order. rewrite Hrun.
    split; [exact Ho|]. split; [exact Hs|]. reflexivity.
Defined.

Section NearestWitness.

Open Scope R_scope.

(** One order with one pole at 7 Hz, over the reals. *)
Definition one_pole : @lscf ideal :=
  {| lower := None; upper := None; frf := None; freq := None;
     pol_order_high := None; omega := None; sampling_time := None;
     all_poles := None; pole_freq := Some [[7]]; pole_xi := Some [[1 / 100]];
     partfactors := None; pole_ind := Some []; modal_A := None;
     LR := None; UR := None; poles := None |}.

Definition click_near : @chart ideal :=
  @Chart ideal 6 0 [] [].

Lemma one_pole_run :
  select_closest_poles_on_the_fly click_near one_pole
  = ((set_nat_xi [1 / 100] (set_nat_freq [7] click_near),
      set_pole_ind [(0, 0)%Z] one_pole), Ok tt).
Proof.
  unfold select_closest_poles_on_the_fly. cbn [pole_freq one_pole length].
  change (arange 0 (Z.of_nat 1)) with [0%Z]. cbn [map].
  unfold argmin at 1. rewrite ideal_no_nan. cbn [first_min nth_error].
  cbn [map]. unfold argmin at 1. rewrite ideal_no_nan.
  cbn [first_min nth_error]. reflexivity.
Qed.

Lemma select_closest_poles_on_the_fly_nearest_witness :
  exists y sel,
    pole_ind (set_pole_ind [(0, 0)%Z] one_pole)
    = Some ([] ++ [(Z.of_nat y, Z.of_nat sel)]) /\
    (y < 1)%nat /\
    (forall k, (k < 1)%nat ->
       Rabs (INR y - 0) <= Rabs (INR k - 0)).
Proof.
  destruct (@select_closest_poles_on_the_fly_nearest click_near _ one_pole _
              [[7]] [] eq_refl eq_refl one_pole_run)
    as (y & sel & Hind & Hy & _ & _ & Hmin & _).
  exists y, sel. split; [exact Hind|]. split; [exact Hy|]. exact Hmin.
Defined.

End NearestWitness.

(** ** [lsfd] on a band without bins *)

Section EmptyBand.

Context {Sc : Scalar} {Np : Numpy}.

Lemma slice_empty {X} (i j : nat) (l : list X) :
  (j <= i)%nat -> slice i j l = [].
Proof.
  intros Hji. unfold slice. apply length_zero_iff_nil.
  rewrite length_skipn, length_firstn. lia.
Qed.

Lemma combine_nil_r {X Y} (l : list X) : combine l (@nil Y) = [].
Proof. destruct l; reflexivity. Qed.

(** The entry of [self.A] that an all-zero solution row gives. *)
Definition zero_constant : complex :=
  cneg (cadd (c_of_real f_zero) (cmul c_i (c_of_real f_zero))).

(** X25.  A band without bins is not refused.  When the frequency
    nearest to [f_upper] does not come after the one nearest to
    [f_lower], no bin enters the fit; if the call then returns, every modal
    constant is the same value, got from a solution of zeros, whatever
    the measured FRFs are. *)
Theorem lsfd_empty_band (whose_poles : option lscf) (lo up : F)
  (complex_mode upper_r lower_r : bool) (self s : lscf)
  (a : matrix complex) (fq : list F) (i j : nat) :
  freq self = Some (Seq1 fq) ->
  nearest_index fq lo = Ok i -> nearest_index fq up = Ok j ->
  (j <= i)%nat ->
  lsfd whose_poles SelNone (Some lo) (Some up) complex_mode upper_r lower_r
       self
  = (s, Ok (ModalConstants a)) ->
  Forall (Forall (fun z => z = zero_constant)) (mrows a).
Proof.
  intros Hfq Hi Hj Hji Hrun.
  unfold lsfd in Hrun. cbv [mbind ret] in Hrun.
  destruct (modal_fit whose_poles (Some lo) (Some up) complex_mode upper_r
                      lower_r self) as [s1 [a1|e]] eqn:Hfit;
    [|discriminate].
  injection Hrun as <- <-.
  unfold modal_fit in Hfit. cbv [mbind lift attr assign ret throw] in Hfit.
  destruct (pole_ind _) as [refs|]; cbn [from_option] in Hfit;
    [|discriminate].
  match type of Hfit with
  | context [map_result ?f refs] =>
      destruct (map_result f refs) as [ps|]; [|discriminate]
  end.
  rewrite Hfq in Hfit. cbn [from_option] in Hfit.
  rewrite Hi, Hj in Hfit.
  destruct (frf self) as [[z|k rows]|]; cbn [from_option] in Hfit;
    try discriminate.
  rewrite (slice_empty fq Hji) in Hfit. cbn [map length] in Hfit.
  match type of Hfit with
  | context [linalg_pinv ?n ?m] =>
      destruct (linalg_pinv n m) as [p|]; [|discriminate]
  end.
  match type of Hfit with
  | context [map_result ?f ?l] =>
      destruct (map_result f l) as [A_LSFD|] eqn:EA; [|discriminate]
  end.
  cbn [modal_A set_modal from_option] in Hfit.
  injection Hfit as _ <-. cbn [mrows].
  assert (Hzero : Forall (Forall (fun v => v = f_zero)) A_LSFD).
  { eapply map_result_forall; [|exact EA].
    intros frf_row y. cbv beta.
    destruct (Nat.eqb_spec (length frf_row) 0) as [E|]; [|discriminate].
    apply length_zero_iff_nil in E. subst frf_row.
    intros H. injection H as <-.
    apply Forall_map, Forall_forall. intros at_row _.
    rewrite combine_nil_r. reflexivity. }
  apply Forall_map. eapply Forall_impl; [|exact Hzero].
  intros row Hrow. apply Forall_map, Forall_forall. intros n _.
  assert (Hnth : forall q, nth q row f_zero = f_zero).
  { intros q. destruct (nth_in_or_default q row f_zero) as [Hin|Hd];
      [|exact Hd].
    rewrite Forall_forall in Hrow. apply Hrow. exact Hin. }
  rewrite !Hnth. reflexivity.
Qed.

End EmptyBand.

Lemma lsfd_empty_band_witness :
  exists a,
    snd (@lsfd b64 b64_numpy None SelNone (Some 1) (Some 1) false false false
              two_outputs_object)
    = Ok (ModalConstants a) /\
    Forall (Forall (fun z => z = zero_constant (Np:=b64_numpy))) (mrows a).
Proof.
  destruct (@lsfd b64 b64_numpy None SelNone (Some 1) (Some 1) false false false
                 two_outputs_object) as [s r] eqn:E.
  assert (Hr : exists a, r = Ok (ModalConstants a)).
  { replace r with (snd (@lsfd b64 b64_numpy None SelNone (Some 1) (Some 1) false false
                              false two_outputs_object))
      by (rewrite E; reflexivity).
    eexists. reflexivity. }
  destruct Hr as [a ->]. exists a. split; [reflexivity|].
  apply (@lsfd_empty_band b64 b64_numpy None 1 1 false false false
           two_outputs_object s a [1; 2] 0 0);
    try reflexivity; exact E.
Defined.
